(** * Mental Sprint: the session engine of [+page.svelte]

    A shallow embedding of the script block of
    [src/app/src/routes/+page.svelte]: the configuration toggles, the
    problem generator, the answer handler, the round life cycle with the
    browser's timer table, the accuracy computation, the hydration of the
    stored history and the leaderboard aggregation.

    Conventions of the embedding.
    - JavaScript numbers that the program keeps integral (operands, answers,
      scores, counters, epoch milliseconds) are [Z].
    - Strings are [string], that is byte sequences; the non-ASCII literals of
      the source are written with the bytes the source file holds.
    - The component's [let] variables are the fields of one record, and each
      handler is a function from that record to the next one.
    - [Math.random], the clock and the timer table are explicit parts of the
      state. *)

From Stdlib Require Import ZArith QArith Qround Qpower List String Ascii Bool Lia Lqa.
From Stdlib Require Import Sorted Permutation DecimalString DecimalZ DecimalPos.
Import ListNotations.

#[local] Open Scope string_scope.
#[local] Open Scope list_scope.
#[local] Open Scope Z_scope.

(** ** Data model *)

(** [type Config] *)
Record Config := mkConfig {
  add : bool;
  sub : bool;
  mul : bool;
  div : bool;
  negatives : bool;
  doubleDigits : bool
}.

(** [keyof Config] *)
Inductive ConfigKey := Kadd | Ksub | Kmul | Kdiv | Knegatives | KdoubleDigits.

Definition ConfigKey_eqb (a b : ConfigKey) : bool :=
  match a, b with
  | Kadd, Kadd | Ksub, Ksub | Kmul, Kmul | Kdiv, Kdiv
  | Knegatives, Knegatives | KdoubleDigits, KdoubleDigits => true
  | _, _ => false
  end.

(** [config[key]] *)
Definition getFlag (c : Config) (k : ConfigKey) : bool :=
  match k with
  | Kadd => add c
  | Ksub => sub c
  | Kmul => mul c
  | Kdiv => div c
  | Knegatives => negatives c
  | KdoubleDigits => doubleDigits c
  end.

(** [config[key] = v] *)
Definition setFlag (c : Config) (k : ConfigKey) (v : bool) : Config :=
  match k with
  | Kadd => mkConfig v (sub c) (mul c) (div c) (negatives c) (doubleDigits c)
  | Ksub => mkConfig (add c) v (mul c) (div c) (negatives c) (doubleDigits c)
  | Kmul => mkConfig (add c) (sub c) v (div c) (negatives c) (doubleDigits c)
  | Kdiv => mkConfig (add c) (sub c) (mul c) v (negatives c) (doubleDigits c)
  | Knegatives => mkConfig (add c) (sub c) (mul c) (div c) v (doubleDigits c)
  | KdoubleDigits => mkConfig (add c) (sub c) (mul c) (div c) (negatives c) v
  end.

(** The initial value of [config]. *)
Definition initialConfig : Config := mkConfig true true true false false false.

(** [type Problem] *)
Record Problem := mkProblem { question : string; answer : Z }.

(** [type HistoryItem] *)
Record HistoryItem := mkHistoryItem {
  q : string;
  correct : Z;
  user : Z;
  isCorrect : bool
}.

(** [type GameRecord].  The [date] field holds an ISO-8601 string made by
    [toISOString]; the program only ever reads it back through
    [new Date(date).getTime()], so it is kept as that value: the epoch
    milliseconds. *)
Module GameRecord.
Record t := mk {
  id : Z;
  date : Z;
  score : Z;
  accuracy : Z;
  config : Config
}.
End GameRecord.

(** ** Configuration toggles *)

Definition operatorKeys : list ConfigKey := [Kadd; Ksub; Kmul; Kdiv].

(** [(['add','sub','mul','div']).filter(k => config[k]).length] *)
Definition activeOps (config : Config) : nat :=
  List.length (filter (getFlag config) operatorKeys).

Definition toggleConfig (config : Config) (key : ConfigKey) : Config :=
  if negb (ConfigKey_eqb key Knegatives) && negb (ConfigKey_eqb key KdoubleDigits)
  then
    if (activeOps config =? 1)%nat && getFlag config key
    then config
    else setFlag config key (negb (getFlag config key))
  else setFlag config key (negb (getFlag config key)).

(** The invariant of the data model: some operator flag is set. *)
Definition hasOperator (c : Config) : Prop :=
  add c = true \/ sub c = true \/ mul c = true \/ div c = true.

Definition isOperatorKey (k : ConfigKey) : Prop :=
  k = Kadd \/ k = Ksub \/ k = Kmul \/ k = Kdiv.

Definition isModifierKey (k : ConfigKey) : Prop :=
  k = Knegatives \/ k = KdoubleDigits.

(** ** Problem generator *)

(** [Math.random()].  The calls are numbered in program order and call [i]
    returns [draws i]; a well-behaved source only returns values of the
    interval [0, 1). *)
Record Rng := mkRng { draws : nat -> Q; used : nat }.

Definition Math_random (g : Rng) : Q * Rng :=
  (draws g (used g), mkRng (draws g) (S (used g))).

Definition unitDraws (g : Rng) : Prop :=
  forall i, (0 <= draws g i)%Q /\ (draws g i < 1)%Q.

(** [Math.floor(r * n)] for an integer [n], the product being exact. *)
Definition floorTimes (r : Q) (n : Z) : Z := Qfloor (r * inject_Z n).

(** [r > 0.5] *)
Definition aboveHalf (r : Q) : bool := negb (Qle_bool r (1 # 2)).

(** The array [ops] after the four conditional [push]es. *)
Definition candidateOps (config : Config) : list string :=
  (if add config then ["+"] else []) ++
  (if sub config then ["-"] else []) ++
  (if mul config then ["*"] else []) ++
  (if div config then ["/"] else []).

(** [ops[i]]: [None] stands for [undefined]. *)
Definition lookup (ops : list string) (i : Z) : option string :=
  if i <? 0 then None else nth_error ops (Z.to_nat i).

(** The values of [operator], [num1] and [num2] when the [switch] is
    reached. *)
Record Draw := mkDraw { operator : option string; num1 : Z; num2 : Z }.

Definition drawProblem (config : Config) (g : Rng) : Draw * Rng :=
  let ops := candidateOps config in
  let (r0, g) := Math_random g in
  let operator := lookup ops (floorTimes r0 (Z.of_nat (List.length ops))) in
  let max := if doubleDigits config then 99 else 12 in
  let min := if doubleDigits config then 10 else 1 in
  let (r1, g) := Math_random g in
  let num1 := floorTimes r1 (max - min + 1) + min in
  let (r2, g) := Math_random g in
  let num2 := floorTimes r2 (max - min + 1) + min in
  if negatives config then
    let (r3, g) := Math_random g in
    let num1 := if aboveHalf r3 then num1 * -1 else num1 in
    let (r4, g) := Math_random g in
    let num2 := if aboveHalf r4 then num2 * -1 else num2 in
    (mkDraw operator num1 num2, g)
  else (mkDraw operator num1 num2, g).

(** [`${n}`] for an integral number. *)
Definition Number_toString (n : Z) : string :=
  NilZero.string_of_int (Z.to_int n).

(** [`${v}`] for a value that is a string or [undefined]. *)
Definition String_of (v : option string) : string :=
  match v with Some s => s | None => "undefined" end.

(** [operator === s] *)
Definition isOp (operator : option string) (s : string) : bool :=
  match operator with Some o => (o =? s)%string | None => false end.

(** [const fmt = (n) => n < 0 ? `(${n})` : `${n}`] *)
Definition fmt (n : Z) : string :=
  if n <? 0 then ("(" ++ Number_toString n ++ ")")%string else Number_toString n.

(** The two display literals of the source, with the bytes the source file
    holds for them: the division sign and the multiplication sign went
    through a second encoding, so they are the four bytes C3 83 C2 B7 and
    the five bytes C3 83 E2 80 94. *)
Definition divisionLiteral : string := "Ã·".
Definition timesLiteral : string := "Ã—".

(** [operator === '/' ? divisionLiteral : operator === '*' ? timesLiteral : operator] *)
Definition opSymbol (operator : option string) : option string :=
  if isOp operator "/" then Some divisionLiteral
  else if isOp operator "*" then Some timesLiteral
  else operator.

(** The [switch] and the template literal.  In the division case [num1] is
    first replaced by [num1 * num2]; the quotient is then exact, so [Z.div]
    is the value of the JavaScript [/] there. *)
Definition makeProblem (d : Draw) : Problem :=
  let o := operator d in
  let '(n1, ans) :=
    if isOp o "+" then (num1 d, num1 d + num2 d)
    else if isOp o "-" then (num1 d, num1 d - num2 d)
    else if isOp o "*" then (num1 d, num1 d * num2 d)
    else if isOp o "/" then (num1 d * num2 d, (num1 d * num2 d) / num2 d)
    else (num1 d, 0) in
  mkProblem (fmt n1 ++ " " ++ String_of (opSymbol o) ++ " " ++ fmt (num2 d))%string ans.

(** The part of [generateProblem] that builds [currentProblem]. *)
Definition generate (config : Config) (g : Rng) : Problem * Rng :=
  let (d, g') := drawProblem config g in (makeProblem d, g').

(** ** Reading a question back

    The evaluator of displayed questions: three tokens separated by single
    spaces, an operand being a decimal literal or a parenthesised one, the
    middle token one of the four display symbols.  A division evaluates only
    when it leaves no remainder. *)

Fixpoint splitOn (c : ascii) (s : string) : list string :=
  match s with
  | EmptyString => [EmptyString]
  | String a s' =>
      if Ascii.eqb a c then EmptyString :: splitOn c s'
      else match splitOn c s' with
           | t :: ts => String a t :: ts
           | [] => [String a EmptyString]
           end
  end.

(** [chopLast c (t ++ c)] is [t]. *)
Fixpoint chopLast (c : ascii) (s : string) : option string :=
  match s with
  | EmptyString => None
  | String a r =>
      match r with
      | EmptyString => if Ascii.eqb a c then Some EmptyString else None
      | String _ _ => option_map (String a) (chopLast c r)
      end
  end.

Definition readLiteral (tok : string) : option Z :=
  option_map Z.of_int (NilZero.int_of_string tok).

Definition readOperand (tok : string) : option Z :=
  match tok with
  | String "("%char r =>
      match chopLast ")"%char r with
      | Some inner => readLiteral inner
      | None => None
      end
  | _ => readLiteral tok
  end.

Inductive Arith := Plus | Minus | Times | Divide.

Definition readSymbol (tok : string) : option Arith :=
  if (tok =? String_of (opSymbol (Some "+")))%string then Some Plus
  else if (tok =? String_of (opSymbol (Some "-")))%string then Some Minus
  else if (tok =? String_of (opSymbol (Some "*")))%string then Some Times
  else if (tok =? String_of (opSymbol (Some "/")))%string then Some Divide
  else None.

Definition applyArith (o : Arith) (x y : Z) : option Z :=
  match o with
  | Plus => Some (x + y)
  | Minus => Some (x - y)
  | Times => Some (x * y)
  | Divide => if (y =? 0) || negb (Z.rem x y =? 0) then None else Some (Z.quot x y)
  end.

Definition evalQuestion (text : string) : option Z :=
  match splitOn " "%char text with
  | [a; s; b] =>
      match readOperand a, readSymbol s, readOperand b with
      | Some x, Some o, Some y => applyArith o x y
      | _, _, _ => None
      end
  | _ => None
  end.

(** Character classes used to state what a formatted operand looks like. *)
Fixpoint allChars (p : ascii -> bool) (s : string) : bool :=
  match s with
  | EmptyString => true
  | String a r => p a && allChars p r
  end.

Definition isDigit (a : ascii) : bool :=
  (48 <=? nat_of_ascii a)%nat && (nat_of_ascii a <=? 57)%nat.

Definition notChar (c a : ascii) : bool := negb (Ascii.eqb a c).

(** A source of draws that replays a list and then returns zeros, and the
    configurations with a single operator, used in the examples. *)
Definition rngOf (l : list Q) : Rng := mkRng (fun i => nth i l 0%Q) 0.

Definition onlySub : Config := mkConfig false true false false false false.
Definition onlyDiv : Config := mkConfig false false false true false false.

(** The operand range of a configuration, with either sign allowed when
    [negatives] is set. *)
Definition operandRange (config : Config) (n : Z) : Prop :=
  let max := if doubleDigits config then 99 else 12 in
  let min := if doubleDigits config then 10 else 1 in
  if negatives config then min <= Z.abs n <= max else min <= n <= max.

(** The first operand as displayed: the dividend in the division case. *)
Definition shownFirst (d : Draw) : Z :=
  if isOp (operator d) "/" then num1 d * num2 d else num1 d.

(** The symbol table as the specification words it: the plus sign, the
    Unicode minus sign U+2212, the multiplication sign U+00D7 and the
    division sign U+00F7 (in UTF-8). *)
Definition specSymbol (operator : string) : string :=
  if (operator =? "+")%string then "+"
  else if (operator =? "-")%string then "−"
  else if (operator =? "*")%string then "×"
  else "÷".

(** ** Accuracy

    [Math.round((correctCount / sessionHistory.length) * 100)] is computed
    on IEEE 754 binary64 numbers: the quotient is rounded to the nearest
    double, its product with 100 is rounded again, and [Math.round] takes the
    result to the nearest integer, a tie going up.  The values met here are
    finite, not negative, and in the normal range, so a double is kept as
    the rational it denotes. *)

(** [2 ^ k] for an integer exponent of either sign. *)
Definition pow2 (k : Z) : Q := Qpower 2 k.

(** The binary exponent of a positive rational: [2 ^ e <= x < 2 ^ (e + 1)]. *)
Definition exponentOf (x : Q) : Z :=
  let e0 := Z.log2 (Qnum x) - Z.log2 (Z.pos (Qden x)) in
  if Qle_bool (pow2 e0) x then e0 else e0 - 1.

(** Nearest integer, a tie going to the even one. *)
Definition roundHalfEven (x : Q) : Z :=
  let f := Qfloor x in
  let r := (x - inject_Z f)%Q in
  if Qle_bool r (1 # 2)
  then if Qle_bool (1 # 2) r then (if Z.even f then f else f + 1) else f
  else f + 1.

(** The double nearest to [x]: 53 significant bits, ties to even. *)
Definition round64 (x : Q) : Q :=
  if Qle_bool x 0 then 0%Q
  else
    let e := exponentOf x in
    (inject_Z (roundHalfEven (x * pow2 (52 - e))) * pow2 (e - 52))%Q.

(** [a / b] and [a * b] on doubles. *)
Definition fdiv (a b : Q) : Q := round64 (a / b).
Definition fmul (a b : Q) : Q := round64 (a * b).

(** [Math.round(x)]: [floor(x + 1/2)], computed exactly. *)
Definition Math_round (x : Q) : Z := Qfloor (x + (1 # 2)).

(** [sessionHistory.filter(h => h.isCorrect).length] *)
Definition correctCount (h : list HistoryItem) : nat :=
  List.length (filter isCorrect h).

(** The expression shared by [endGame] and by the reactive [accuracy]. *)
Definition accuracyOf (sessionHistory : list HistoryItem) : Z :=
  if (0 <? Z.of_nat (List.length sessionHistory))
  then Math_round
         (fmul (fdiv (inject_Z (Z.of_nat (correctCount sessionHistory)))
                     (inject_Z (Z.of_nat (List.length sessionHistory))))
               (inject_Z 100))
  else 0.

(** The accuracy as the specification words it, in exact arithmetic: the
    percentage of correct entries rounded to the nearest integer, a tie
    going up; 0 for an empty history. *)
Definition specAccuracy (sessionHistory : list HistoryItem) : Z :=
  let c := inject_Z (Z.of_nat (correctCount sessionHistory)) in
  let t := inject_Z (Z.of_nat (List.length sessionHistory)) in
  if Qeq_bool t 0 then 0 else Math_round (c / t * 100).

(** A history of [c] correct entries followed by [w] wrong ones. *)
Definition historyOf (c w : nat) : list HistoryItem :=
  repeat (mkHistoryItem "1 + 1" 2 2 true) c ++
  repeat (mkHistoryItem "1 + 1" 2 3 false) w.

(** ** [parseInt]

    [parseInt(string)] with no radix, after ECMA-262: leading white space is
    dropped, then an optional sign, then an optional [0x] or [0X] that
    switches to radix 16; the value is that of the longest run of digits that
    follows, and [NaN] (here [None]) when the run is empty.  The result is
    the mathematical value: the rounding of a literal beyond 2^53 to a double
    is left out. *)

Definition isAsciiWhite (a : ascii) : bool :=
  let n := nat_of_ascii a in
  ((9 <=? n) && (n <=? 13) || (n =? 32))%nat.

(** The white space and line terminator code points, in UTF-8: U+0009 to
    U+000D, U+0020, U+00A0, U+1680, U+2000 to U+200A, U+2028, U+2029,
    U+202F, U+205F, U+3000 and U+FEFF. *)
Fixpoint skipWhite (s : string) : string :=
  match s with
  | EmptyString => s
  | String a r =>
      if isAsciiWhite a then skipWhite r
      else
        match r with
        | String b r2 =>
            if ((nat_of_ascii a =? 194) && (nat_of_ascii b =? 160))%nat
            then skipWhite r2
            else
              match r2 with
              | String c r3 =>
                  let x := nat_of_ascii a in
                  let y := nat_of_ascii b in
                  let z := nat_of_ascii c in
                  if ((x =? 225) && (y =? 154) && (z =? 128)
                      || (x =? 226) && (y =? 128) &&
                         ((128 <=? z) && (z <=? 138) || (z =? 168) || (z =? 169)
                          || (z =? 175))
                      || (x =? 226) && (y =? 129) && (z =? 159)
                      || (x =? 227) && (y =? 128) && (z =? 128)
                      || (x =? 239) && (y =? 187) && (z =? 191))%nat
                  then skipWhite r3
                  else s
              | EmptyString => s
              end
        | EmptyString => s
        end
  end.

(** The value of a character as a digit of radix [radix], if it is one. *)
Definition digitValue (radix : Z) (a : ascii) : option Z :=
  let n := Z.of_nat (nat_of_ascii a) in
  let v := if (48 <=? n) && (n <=? 57) then n - 48
           else if (97 <=? n) && (n <=? 122) then n - 87
           else if (65 <=? n) && (n <=? 90) then n - 55
           else radix in
  if v <? radix then Some v else None.

(** The value of the longest run of digits at the head of [s]; [acc] is the
    value read so far, [None] before the first digit. *)
Fixpoint readDigits (radix : Z) (s : string) (acc : option Z) : option Z :=
  match s with
  | EmptyString => acc
  | String a r =>
      match digitValue radix a with
      | Some v =>
          readDigits radix r
            (Some (radix * match acc with Some n => n | None => 0 end + v))
      | None => acc
      end
  end.

Definition parseInt (input : string) : option Z :=
  let s := skipWhite input in
  let '(sign, s) :=
    match s with
    | String "-"%char r => (-1, r)
    | String "+"%char r => (1, r)
    | _ => (1, s)
    end in
  let '(radix, s) :=
    match s with
    | String "0"%char (String x r) =>
        if (Ascii.eqb x "x" || Ascii.eqb x "X")%char then (16, r) else (10, s)
    | _ => (10, s)
    end in
  option_map (Z.mul sign) (readDigits radix s None).

(** ** The component and its environment *)

Inductive Screen := Menu | Game | Result | History.

(** The functions handed to [setInterval] and [setTimeout]. *)
Inductive Callback :=
| Tick            (* () => { timeLeft--; if (timeLeft <= 0) endGame(); } *)
| Focus           (* () => inputEl?.focus() *)
| NextProblem     (* generateProblem *)
| ShakeThenNext.  (* () => { shaking = false; generateProblem(); } *)

(** An entry of the browser's timer table: [period] is the interval of a
    [setInterval] timer and [None] for a [setTimeout] one. *)
Record Timer := mkTimer {
  handle : nat;
  due : Z;
  period : option Z;
  callback : Callback
}.

(** The [let] variables of the component, then its environment: the timer
    table and the next free handle, the clock in epoch milliseconds, the
    random source, the list last written to [localStorage] under
    ['mathSprintHistory'] and the [browser] flag. *)
Record World := mkWorld {
  screen : Screen;
  config : Config;
  score : Z;
  timeLeft : Z;
  timerInterval : option nat;
  currentProblem : Problem;
  sessionHistory : list HistoryItem;
  pastGames : list GameRecord.t;
  userInput : string;
  inputClass : string;
  shaking : bool;
  timers : list Timer;
  nextHandle : nat;
  clock : Z;
  rng : Rng;
  saved : option (list GameRecord.t);
  browser : bool
}.

Definition with_screen v w := mkWorld v (config w) (score w) (timeLeft w) (timerInterval w) (currentProblem w) (sessionHistory w) (pastGames w) (userInput w) (inputClass w) (shaking w) (timers w) (nextHandle w) (clock w) (rng w) (saved w) (browser w).
Definition with_config v w := mkWorld (screen w) v (score w) (timeLeft w) (timerInterval w) (currentProblem w) (sessionHistory w) (pastGames w) (userInput w) (inputClass w) (shaking w) (timers w) (nextHandle w) (clock w) (rng w) (saved w) (browser w).
Definition with_score v w := mkWorld (screen w) (config w) v (timeLeft w) (timerInterval w) (currentProblem w) (sessionHistory w) (pastGames w) (userInput w) (inputClass w) (shaking w) (timers w) (nextHandle w) (clock w) (rng w) (saved w) (browser w).
Definition with_timeLeft v w := mkWorld (screen w) (config w) (score w) v (timerInterval w) (currentProblem w) (sessionHistory w) (pastGames w) (userInput w) (inputClass w) (shaking w) (timers w) (nextHandle w) (clock w) (rng w) (saved w) (browser w).
Definition with_timerInterval v w := mkWorld (screen w) (config w) (score w) (timeLeft w) v (currentProblem w) (sessionHistory w) (pastGames w) (userInput w) (inputClass w) (shaking w) (timers w) (nextHandle w) (clock w) (rng w) (saved w) (browser w).
Definition with_currentProblem v w := mkWorld (screen w) (config w) (score w) (timeLeft w) (timerInterval w) v (sessionHistory w) (pastGames w) (userInput w) (inputClass w) (shaking w) (timers w) (nextHandle w) (clock w) (rng w) (saved w) (browser w).
Definition with_sessionHistory v w := mkWorld (screen w) (config w) (score w) (timeLeft w) (timerInterval w) (currentProblem w) v (pastGames w) (userInput w) (inputClass w) (shaking w) (timers w) (nextHandle w) (clock w) (rng w) (saved w) (browser w).
Definition with_pastGames v w := mkWorld (screen w) (config w) (score w) (timeLeft w) (timerInterval w) (currentProblem w) (sessionHistory w) v (userInput w) (inputClass w) (shaking w) (timers w) (nextHandle w) (clock w) (rng w) (saved w) (browser w).
Definition with_userInput v w := mkWorld (screen w) (config w) (score w) (timeLeft w) (timerInterval w) (currentProblem w) (sessionHistory w) (pastGames w) v (inputClass w) (shaking w) (timers w) (nextHandle w) (clock w) (rng w) (saved w) (browser w).
Definition with_inputClass v w := mkWorld (screen w) (config w) (score w) (timeLeft w) (timerInterval w) (currentProblem w) (sessionHistory w) (pastGames w) (userInput w) v (shaking w) (timers w) (nextHandle w) (clock w) (rng w) (saved w) (browser w).
Definition with_shaking v w := mkWorld (screen w) (config w) (score w) (timeLeft w) (timerInterval w) (currentProblem w) (sessionHistory w) (pastGames w) (userInput w) (inputClass w) v (timers w) (nextHandle w) (clock w) (rng w) (saved w) (browser w).
Definition with_timers v w := mkWorld (screen w) (config w) (score w) (timeLeft w) (timerInterval w) (currentProblem w) (sessionHistory w) (pastGames w) (userInput w) (inputClass w) (shaking w) v (nextHandle w) (clock w) (rng w) (saved w) (browser w).
Definition with_nextHandle v w := mkWorld (screen w) (config w) (score w) (timeLeft w) (timerInterval w) (currentProblem w) (sessionHistory w) (pastGames w) (userInput w) (inputClass w) (shaking w) (timers w) v (clock w) (rng w) (saved w) (browser w).
Definition with_clock v w := mkWorld (screen w) (config w) (score w) (timeLeft w) (timerInterval w) (currentProblem w) (sessionHistory w) (pastGames w) (userInput w) (inputClass w) (shaking w) (timers w) (nextHandle w) v (rng w) (saved w) (browser w).
Definition with_rng v w := mkWorld (screen w) (config w) (score w) (timeLeft w) (timerInterval w) (currentProblem w) (sessionHistory w) (pastGames w) (userInput w) (inputClass w) (shaking w) (timers w) (nextHandle w) (clock w) v (saved w) (browser w).
Definition with_saved v w := mkWorld (screen w) (config w) (score w) (timeLeft w) (timerInterval w) (currentProblem w) (sessionHistory w) (pastGames w) (userInput w) (inputClass w) (shaking w) (timers w) (nextHandle w) (clock w) (rng w) v (browser w).

Definition neutralClass : string := "border-zinc-700 focus:border-purple-500 text-white".
Definition correctClass : string := "border-emerald-500 text-emerald-500".
Definition wrongClass : string := "border-red-500 text-red-500".

(** The component as it is mounted, before [onMount] runs. *)
Definition initialWorld (now : Z) (g : Rng) (inBrowser : bool) : World :=
  mkWorld Menu initialConfig 0 60 None (mkProblem EmptyString 0) [] [] EmptyString neutralClass
    false [] 1%nat now g None inBrowser.

(** *** The timer table *)

(** [setTimeout(cb, delay)] *)
Definition setTimeout (cb : Callback) (delay : Z) (w : World) : World :=
  with_nextHandle (S (nextHandle w))
    (with_timers (timers w ++ [mkTimer (nextHandle w) (clock w + delay) None cb]) w).

(** [setInterval(cb, delay)], with the handle it returns. *)
Definition setInterval (cb : Callback) (delay : Z) (w : World) : nat * World :=
  (nextHandle w,
   with_nextHandle (S (nextHandle w))
     (with_timers
        (timers w ++ [mkTimer (nextHandle w) (clock w + delay) (Some delay) cb]) w)).

(** [clearInterval(h)]: the entry of handle [h], if any, leaves the table. *)
Definition clearInterval (h : nat) (w : World) : World :=
  with_timers (filter (fun t => negb (handle t =? h)%nat) (timers w)) w.

(** [if (timerInterval) clearInterval(timerInterval)]; handles start at 1, so
    a handle is always truthy. *)
Definition clearCountdown (w : World) : World :=
  match timerInterval w with
  | Some h => clearInterval h w
  | None => w
  end.

(** *** The handlers *)

Definition generateProblem (w : World) : World :=
  let (p, g) := generate (config w) (rng w) in
  with_inputClass neutralClass
    (with_userInput EmptyString (with_rng g (with_currentProblem p w))).

Definition startGame (w : World) : World :=
  let w := with_score 0 w in
  let w := with_timeLeft 60 w in
  let w := with_sessionHistory [] w in
  let w := with_userInput EmptyString w in
  let w := with_inputClass neutralClass w in
  let w := with_screen Game w in
  let w := generateProblem w in
  let w := clearCountdown w in
  let (h, w) := setInterval Tick 1000 w in
  let w := with_timerInterval (Some h) w in
  setTimeout Focus 100 w.

Definition abandonGame (w : World) : World :=
  with_screen Menu (clearCountdown w).

Definition handleAnswer (w : World) : World :=
  match parseInt (userInput w) with
  | None => w
  | Some val =>
      let isCorrect := val =? answer (currentProblem w) in
      let w :=
        with_sessionHistory
          (sessionHistory w ++
           [mkHistoryItem (question (currentProblem w))
              (answer (currentProblem w)) val isCorrect]) w in
      if isCorrect then
        let w := with_score (score w + 1) w in
        let w := with_inputClass correctClass w in
        setTimeout NextProblem 150 w
      else
        let w := with_inputClass wrongClass w in
        let w := with_shaking true w in
        setTimeout ShakeThenNext 400 w
  end.

(** The record built by [endGame]: [Date.now()] and [new Date()] read the
    same clock. *)
Definition newRecord (w : World) : GameRecord.t :=
  GameRecord.mk (clock w) (clock w) (score w) (accuracyOf (sessionHistory w))
    (config w).

Definition endGame (w : World) : World :=
  let w := clearCountdown w in
  let record := newRecord w in
  let w := with_pastGames (firstn 50 (record :: pastGames w)) w in
  let w := if browser w then with_saved (Some (pastGames w)) w else w in
  with_screen Result w.

(** The reactive declarations [accuracy] and [missed]. *)
Definition accuracy (w : World) : Z := accuracyOf (sessionHistory w).

Definition missed (w : World) : list HistoryItem :=
  firstn 3 (filter (fun h => negb (isCorrect h)) (sessionHistory w)).

(** *** The event loop *)

Definition runCallback (cb : Callback) (w : World) : World :=
  match cb with
  | Tick =>
      let w := with_timeLeft (timeLeft w - 1) w in
      if timeLeft w <=? 0 then endGame w else w
  | Focus => w
  | NextProblem => generateProblem w
  | ShakeThenNext => generateProblem (with_shaking false w)
  end.

(** The entry that is due first; among entries due together, the one
    registered first. *)
Fixpoint earliest (ts : list Timer) : option Timer :=
  match ts with
  | [] => None
  | t :: rest =>
      match earliest rest with
      | Some t' => if due t' <? due t then Some t' else Some t
      | None => Some t
      end
  end.

(** The entry [t] has fired: a timeout leaves the table, an interval timer is
    armed again one period later. *)
Definition rearm (t : Timer) (now : Z) (ts : list Timer) : list Timer :=
  match period t with
  | None => filter (fun t' => negb (handle t' =? handle t)%nat) ts
  | Some p =>
      map (fun t' => if (handle t' =? handle t)%nat
                     then mkTimer (handle t) (now + p) (Some p) (callback t)
                     else t') ts
  end.

(** What the user and the browser can do to the component. *)
Inductive Event :=
| Elapse (ms : Z)        (* time passes and no timer comes due *)
| TimerFires             (* the browser runs the timer that is due first *)
| Toggle (key : ConfigKey)
| Start                  (* Start Sprint, Enter on the menu, Play Again *)
| Abandon
| Input (text : string)  (* bind:value *)
| SubmitAnswer           (* on:submit *)
| GoMenu                 (* Settings on the result screen, Back on the history *)
| GoHistory.

Definition onScreen (s : Screen) (w : World) : bool :=
  match s, screen w with
  | Menu, Menu | Game, Game | Result, Result | History, History => true
  | _, _ => false
  end.

(** One event; [None] when the event cannot happen in [w]: a control that is
    not on the current screen, a wait past the next timer, or no timer to
    fire. *)
Definition step (e : Event) (w : World) : option World :=
  match e with
  | Elapse ms =>
      if (0 <=? ms) && forallb (fun t => clock w + ms <=? due t) (timers w)
      then Some (with_clock (clock w + ms) w) else None
  | TimerFires =>
      match earliest (timers w) with
      | Some t =>
          let now := Z.max (clock w) (due t) in
          let w := with_clock now w in
          let w := with_timers (rearm t now (timers w)) w in
          Some (runCallback (callback t) w)
      | None => None
      end
  | Toggle key =>
      if onScreen Menu w then Some (with_config (toggleConfig (config w) key) w)
      else None
  | Start =>
      if onScreen Menu w || onScreen Result w then Some (startGame w) else None
  | Abandon => if onScreen Game w then Some (abandonGame w) else None
  | Input text => if onScreen Game w then Some (with_userInput text w) else None
  | SubmitAnswer => if onScreen Game w then Some (handleAnswer w) else None
  | GoMenu =>
      if onScreen Result w || onScreen History w then Some (with_screen Menu w)
      else None
  | GoHistory => if onScreen Menu w then Some (with_screen History w) else None
  end.

Fixpoint run (es : list Event) (w : World) : option World :=
  match es with
  | [] => Some w
  | e :: rest =>
      match step e w with
      | Some w' => run rest w'
      | None => None
      end
  end.

(** The worlds the component can be in: those an event sequence leads to
    from the mounted component. *)
Definition reachable (w : World) : Prop :=
  exists now g inBrowser es, run es (initialWorld now g inBrowser) = Some w.

(** What holds of the timer table in every reachable world: handles are
    below the next free one, the countdown is the only [Tick] entry and is
    the entry [timerInterval] names, and that handle names no other entry. *)
Definition timersConsistent (w : World) : Prop :=
  (forall t, In t (timers w) -> (handle t < nextHandle w)%nat) /\
  (forall h, timerInterval w = Some h -> (h < nextHandle w)%nat) /\
  (forall t, In t (timers w) -> callback t = Tick ->
     timerInterval w = Some (handle t)) /\
  (forall t, In t (timers w) -> callback t <> Tick ->
     timerInterval w <> Some (handle t)).

(** The entry [handleAnswer] adds to the timer table for a submitted value. *)
Definition feedbackTimer (w : World) (val : Z) : Timer :=
  if val =? answer (currentProblem w)
  then mkTimer (nextHandle w) (clock w + 150) None NextProblem
  else mkTimer (nextHandle w) (clock w + 400) None ShakeThenNext.

(** The entry [handleAnswer] adds to the session history. *)
Definition historyEntry (w : World) (val : Z) : HistoryItem :=
  mkHistoryItem (question (currentProblem w)) (answer (currentProblem w)) val
    (val =? answer (currentProblem w)).

(** A mounted component used in the examples: the clock at 1000000, and
    draws that give [7 + 5], then [1 + 1], then a product of 4 and 4. *)
Definition demoWorld : World :=
  initialWorld 1000000
    (rngOf [0; 1 # 2; 1 # 3; 0; 0; 0; 2 # 3; 1 # 4; 1 # 4]%Q) true.

(** The world after the events [es], from [demoWorld]. *)
Definition demoAfter (es : list Event) : World :=
  match run es demoWorld with
  | Some w => w
  | None => demoWorld
  end.

(** ** [JSON.parse] and the hydration of the history

    [JSON.parse] after ECMA-404: a lexer that reads the text character by
    character and a stack machine over the tokens.  Both fail ([None], the
    [SyntaxError] of the source) on anything outside the grammar.  Numbers
    and strings are kept as their lexemes. *)

#[local] Unset Elimination Schemes.
Inductive json :=
| JNull
| JBool (b : bool)
| JNumber (lexeme : string)
| JString (raw : string)
| JArray (items : list json)
| JObject (members : list (string * json)).
#[local] Set Elimination Schemes.

Inductive token :=
| TLBrace | TRBrace | TLBracket | TRBracket | TComma | TColon
| TString (raw : string)
| TNumber (lexeme : string)
| TTrue | TFalse | TNull.

(** Where the lexer is inside a number: an optional minus sign; then a zero,
    or a digit from 1 to 9 and any digits; then, optionally, a point and at
    least one digit; then, optionally, [e] or [E], an optional sign and at
    least one digit. *)
Inductive NumState :=
| AfterMinus | AfterZero | InInt | AfterDot | InFrac | AfterE | AfterESign | InExp.

(** Where the lexer is inside a string: between characters, after a
    backslash, or with [n] hexadecimal digits of a [\u] escape to come. *)
Inductive StrState := Plain | Escaped | Hex (n : nat).

Inductive LexMode :=
| Between
| InString (acc : list ascii) (st : StrState)
| InNumber (acc : list ascii) (st : NumState)
| InWord (rest : list ascii) (tok : token).

Definition textOf (acc : list ascii) : string :=
  string_of_list_ascii (rev acc).

Definition isHexDigit (a : ascii) : bool :=
  let n := nat_of_ascii a in
  ((48 <=? n) && (n <=? 57) || (65 <=? n) && (n <=? 70)
   || (97 <=? n) && (n <=? 102))%nat.

Definition isJsonWhite (a : ascii) : bool :=
  let n := nat_of_ascii a in
  ((n =? 32) || (n =? 9) || (n =? 10) || (n =? 13))%nat.

(** The quotation mark, U+0022. *)
Definition quote : ascii := ascii_of_nat 34.

Definition isEscapable (a : ascii) : bool :=
  existsb (Ascii.eqb a)
    [quote; "\"; "/"; "b"; "f"; "n"; "r"; "t"]%char.

(** A number may end in these states. *)
Definition numberComplete (st : NumState) : bool :=
  match st with
  | AfterZero | InInt | InFrac | InExp => true
  | _ => false
  end.

(** A character met between tokens: the tokens it completes and the mode it
    opens. *)
Definition lexBetween (a : ascii) : option (list token * LexMode) :=
  if isJsonWhite a then Some ([], Between)
  else if Ascii.eqb a "{" then Some ([TLBrace], Between)
  else if Ascii.eqb a "}" then Some ([TRBrace], Between)
  else if Ascii.eqb a "[" then Some ([TLBracket], Between)
  else if Ascii.eqb a "]" then Some ([TRBracket], Between)
  else if Ascii.eqb a "," then Some ([TComma], Between)
  else if Ascii.eqb a ":" then Some ([TColon], Between)
  else if Ascii.eqb a quote then Some ([], InString [] Plain)
  else if Ascii.eqb a "-" then Some ([], InNumber [a] AfterMinus)
  else if Ascii.eqb a "0" then Some ([], InNumber [a] AfterZero)
  else if isDigit a then Some ([], InNumber [a] InInt)
  else if Ascii.eqb a "t" then Some ([], InWord ["r"; "u"; "e"]%char TTrue)
  else if Ascii.eqb a "f" then Some ([], InWord ["a"; "l"; "s"; "e"]%char TFalse)
  else if Ascii.eqb a "n" then Some ([], InWord ["u"; "l"; "l"]%char TNull)
  else None.

(** The next state of a number on a character that continues it. *)
Definition numberNext (st : NumState) (a : ascii) : option NumState :=
  match st with
  | AfterMinus =>
      if Ascii.eqb a "0" then Some AfterZero
      else if isDigit a then Some InInt else None
  | AfterZero =>
      if Ascii.eqb a "." then Some AfterDot
      else if Ascii.eqb a "e" || Ascii.eqb a "E" then Some AfterE else None
  | InInt =>
      if isDigit a then Some InInt
      else if Ascii.eqb a "." then Some AfterDot
      else if Ascii.eqb a "e" || Ascii.eqb a "E" then Some AfterE else None
  | AfterDot => if isDigit a then Some InFrac else None
  | InFrac =>
      if isDigit a then Some InFrac
      else if Ascii.eqb a "e" || Ascii.eqb a "E" then Some AfterE else None
  | AfterE =>
      if Ascii.eqb a "+" || Ascii.eqb a "-" then Some AfterESign
      else if isDigit a then Some InExp else None
  | AfterESign => if isDigit a then Some InExp else None
  | InExp => if isDigit a then Some InExp else None
  end.

Definition lexStep (m : LexMode) (a : ascii) : option (list token * LexMode) :=
  match m with
  | Between => lexBetween a
  | InString acc Plain =>
      if Ascii.eqb a quote then Some ([TString (textOf acc)], Between)
      else if Ascii.eqb a "\" then Some ([], InString (a :: acc) Escaped)
      else if (nat_of_ascii a <? 32)%nat then None
      else Some ([], InString (a :: acc) Plain)
  | InString acc Escaped =>
      if isEscapable a then Some ([], InString (a :: acc) Plain)
      else if Ascii.eqb a "u" then Some ([], InString (a :: acc) (Hex 4))
      else None
  | InString acc (Hex n) =>
      if isHexDigit a
      then Some ([], InString (a :: acc)
                       match n with 1%nat | 0%nat => Plain | S k => Hex k end)
      else None
  | InNumber acc st =>
      match numberNext st a with
      | Some st' => Some ([], InNumber (a :: acc) st')
      | None =>
          if numberComplete st then
            match lexBetween a with
            | Some (toks, m') => Some (TNumber (textOf acc) :: toks, m')
            | None => None
            end
          else None
      end
  | InWord rest tok =>
      match rest with
      | [] => None
      | c :: rest' =>
          if Ascii.eqb a c
          then match rest' with
               | [] => Some ([tok], Between)
               | _ => Some ([], InWord rest' tok)
               end
          else None
      end
  end.

Fixpoint lexFrom (m : LexMode) (s : string) : option (list token) :=
  match s with
  | EmptyString =>
      match m with
      | Between => Some []
      | InNumber acc st =>
          if numberComplete st then Some [TNumber (textOf acc)] else None
      | _ => None
      end
  | String a r =>
      match lexStep m a with
      | Some (toks, m') => option_map (app toks) (lexFrom m' r)
      | None => None
      end
  end.

(** An open array with its items so far, or an open object with its members
    so far and the key that waits for its value; both lists are reversed. *)
Inductive Frame :=
| FArray (items : list json)
| FObject (members : list (string * json)) (key : option string).

(** What the parser expects next. *)
Inductive Phase :=
| PValue          (* a value *)
| PValueOrClose   (* a value or the end of the array just opened *)
| PKeyOrClose     (* a key or the end of the object just opened *)
| PKey            (* a key *)
| PColon          (* the colon after a key *)
| PAfter          (* a comma or the end of the open container *)
| PDone (v : json).

(** The value [v] is complete: it goes into the open container, or is the
    result. *)
Definition complete (v : json) (stack : list Frame) : option (list Frame * Phase) :=
  match stack with
  | [] => Some ([], PDone v)
  | FArray items :: st => Some (FArray (v :: items) :: st, PAfter)
  | FObject members (Some k) :: st =>
      Some (FObject ((k, v) :: members) None :: st, PAfter)
  | FObject _ None :: _ => None
  end.

Definition closeArray (stack : list Frame) : option (list Frame * Phase) :=
  match stack with
  | FArray items :: st => complete (JArray (rev items)) st
  | _ => None
  end.

Definition closeObject (stack : list Frame) : option (list Frame * Phase) :=
  match stack with
  | FObject members None :: st => complete (JObject (rev members)) st
  | _ => None
  end.

Definition parseValueStart (t : token) (stack : list Frame)
  : option (list Frame * Phase) :=
  match t with
  | TLBrace => Some (FObject [] None :: stack, PKeyOrClose)
  | TLBracket => Some (FArray [] :: stack, PValueOrClose)
  | TString s => complete (JString s) stack
  | TNumber s => complete (JNumber s) stack
  | TTrue => complete (JBool true) stack
  | TFalse => complete (JBool false) stack
  | TNull => complete JNull stack
  | _ => None
  end.

Definition parseKey (s : string) (stack : list Frame)
  : option (list Frame * Phase) :=
  match stack with
  | FObject members None :: st => Some (FObject members (Some s) :: st, PColon)
  | _ => None
  end.

Definition parseStep (t : token) (stack : list Frame) (ph : Phase)
  : option (list Frame * Phase) :=
  match ph with
  | PValue => parseValueStart t stack
  | PValueOrClose =>
      match t with
      | TRBracket => closeArray stack
      | _ => parseValueStart t stack
      end
  | PKeyOrClose =>
      match t with
      | TRBrace => closeObject stack
      | TString s => parseKey s stack
      | _ => None
      end
  | PKey => match t with TString s => parseKey s stack | _ => None end
  | PColon => match t with TColon => Some (stack, PValue) | _ => None end
  | PAfter =>
      match t, stack with
      | TComma, FArray _ :: _ => Some (stack, PValue)
      | TComma, FObject _ _ :: _ => Some (stack, PKey)
      | TRBracket, _ => closeArray stack
      | TRBrace, _ => closeObject stack
      | _, _ => None
      end
  | PDone _ => None
  end.

Fixpoint parseTokens (ts : list token) (stack : list Frame) (ph : Phase)
  : option json :=
  match ts with
  | [] => match ph with PDone v => Some v | _ => None end
  | t :: rest =>
      match parseStep t stack ph with
      | Some (stack', ph') => parseTokens rest stack' ph'
      | None => None
      end
  end.

(** [JSON.parse(text)]; [None] is the [SyntaxError] it throws. *)
Definition JSON_parse (text : string) : option json :=
  match lexFrom Between text with
  | Some ts => parseTokens ts [] PValue
  | None => None
  end.

(** How a call ends: with a value, or with an exception on its way out. *)
Inductive Completion (A : Type) :=
| Normal (value : A)
| Throw (error : string).
Arguments Normal {A} value.
Arguments Throw {A} error.

(** The callback handed to [onMount].  [stored] is what
    [localStorage.getItem('mathSprintHistory')] returns, [None] for [null];
    the result is the value of [pastGames] afterwards.  The empty string is
    falsy, so it is skipped like [null]; nothing catches what [JSON.parse]
    throws. *)
Definition onMount (inBrowser : bool) (stored : option string) (pastGames : json)
  : Completion json :=
  if inBrowser then
    match stored with
    | Some text =>
        if (text =? EmptyString)%string then Normal pastGames
        else match JSON_parse text with
             | Some v => Normal v
             | None => Throw "SyntaxError"
             end
    | None => Normal pastGames
    end
  else Normal pastGames.

(** [let pastGames: GameRecord[] = []] *)
Definition noHistory : json := JArray [].

(** ** Leaderboards *)

(** [parts.join(sep)] *)
Fixpoint join (sep : string) (parts : list string) : string :=
  match parts with
  | [] => EmptyString
  | [p] => p
  | p :: rest => (p ++ sep ++ join sep rest)%string
  end.

Definition configKey (c : Config) : string :=
  let ops :=
    (if add c then ["+"] else []) ++
    (if sub c then ["-"] else []) ++
    (if mul c then [timesLiteral] else []) ++
    (if div c then [divisionLiteral] else []) in
  let mods :=
    (if negatives c then ["neg"] else []) ++
    (if doubleDigits c then ["2x"] else []) in
  (join EmptyString ops ++
   match mods with
   | [] => EmptyString
   | _ => " (" ++ join ", " mods ++ ")"
   end)%string.

(** An entry of the [Map], and later a leaderboard: the key, the
    configuration of the first game seen with that key, and the games. *)
Module Board.
Record t := mk {
key : string;
config : Config;
entries : list GameRecord.t
}.
End Board.

(** The body of the first loop for one game [g]: a [Map] keeps its keys in
    insertion order, a new key going last. *)
Fixpoint addGame (k : string) (g : GameRecord.t) (m : list Board.t) : list Board.t :=
  match m with
  | [] => [Board.mk k (GameRecord.config g) [g]]
  | b :: rest =>
      if (Board.key b =? k)%string
      then Board.mk (Board.key b) (Board.config b) (Board.entries b ++ [g]) :: rest
      else b :: addGame k g rest
  end.

Definition groupGames (games : list GameRecord.t) : list Board.t :=
  fold_left (fun m g => addGame (configKey (GameRecord.config g)) g m) games [].

(** [Array.prototype.sort]: a stable sort by a comparison function whose
    negative result puts its first argument first.  [insertBy] puts [x],
    which came before the elements of [l], in front of the first element it
    does not have to follow. *)
Fixpoint insertBy {A} (cmp : A -> A -> Z) (x : A) (l : list A) : list A :=
  match l with
  | [] => [x]
  | y :: rest => if cmp x y <=? 0 then x :: l else y :: insertBy cmp x rest
  end.

Fixpoint sortBy {A} (cmp : A -> A -> Z) (l : list A) : list A :=
  match l with
  | [] => []
  | x :: rest => insertBy cmp x (sortBy cmp rest)
  end.

(** [b.score - a.score || new Date(b.date).getTime() - new Date(a.date).getTime()] *)
Definition byScoreThenDate (a b : GameRecord.t) : Z :=
  let d := GameRecord.score b - GameRecord.score a in
  if d =? 0 then GameRecord.date b - GameRecord.date a else d.

(** [new Date(b.entries[0]?.date || 0).getTime()] *)
Definition topDate (b : Board.t) : Z :=
  match Board.entries b with
  | e :: _ => GameRecord.date e
  | [] => 0
  end.

Definition byTopDate (a b : Board.t) : Z := topDate b - topDate a.

(** The second loop for one entry of the map. *)
Definition rankEntries (b : Board.t) : Board.t :=
  Board.mk (Board.key b) (Board.config b)
    (firstn 10 (sortBy byScoreThenDate (Board.entries b))).

Definition getLeaderboards (games : list GameRecord.t) : list Board.t :=
  sortBy byTopDate (map rankEntries (groupGames games)).

(** [a] is ranked no lower than [b]: a higher score, or the same score and
    a timestamp that is not older. *)
Definition ranksBefore (a b : GameRecord.t) : Prop :=
  GameRecord.score b < GameRecord.score a \/
  (GameRecord.score b = GameRecord.score a /\
   GameRecord.date b <= GameRecord.date a).

Definition hasKey (k : string) (g : GameRecord.t) : bool :=
  (configKey (GameRecord.config g) =? k)%string.

(** The map after the games [seen]: distinct keys, each with the games of
    that key in the order they came, none empty, and every game filed. *)
Definition grouped (seen : list GameRecord.t) (m : list Board.t) : Prop :=
  NoDup (map Board.key m) /\
  Forall (fun b => Board.entries b = filter (hasKey (Board.key b)) seen /\
                   Board.entries b <> []) m /\
  forall g, In g seen -> In (configKey (GameRecord.config g)) (map Board.key m).

(** ** The round as a whole: what every reachable world satisfies *)

(** The countdown entries of the timer table. *)
Definition isTick (t : Timer) : bool :=
  match callback t with Tick => true | _ => false end.

Definition countdowns (w : World) : list Timer := filter isTick (timers w).

(** A stored record made no later than [now], with the fields [endGame]
    gives it in range. *)
Definition wellFormedRecord (now : Z) (r : GameRecord.t) : Prop :=
  GameRecord.date r <= now /\
  GameRecord.id r = GameRecord.date r /\
  0 <= GameRecord.score r /\
  0 <= GameRecord.accuracy r <= 100 /\
  hasOperator (GameRecord.config r).

(** A countdown entry repeats every second; the other entries fire once. *)
Definition periodsTyped (ts : list Timer) : Prop :=
  Forall (fun t => if isTick t then period t = Some 1000 else period t = None) ts.

Definition sessionInvariant (w : World) : Prop :=
  periodsTyped (timers w) /\
  (List.length (countdowns w) <= 1)%nat /\
  (screen w = Game <-> countdowns w <> []) /\
  0 <= timeLeft w <= 60 /\
  (countdowns w <> [] -> 1 <= timeLeft w) /\
  score w = Z.of_nat (correctCount (sessionHistory w)) /\
  Forall (wellFormedRecord (clock w)) (pastGames w) /\
  StronglySorted (fun a b => GameRecord.date b <= GameRecord.date a) (pastGames w) /\
  (if browser w
   then saved w = Some (pastGames w) \/ (saved w = None /\ pastGames w = [])
   else saved w = None).

(** [$: progressPct = (timeLeft / 60) * 100], on doubles. *)
Definition progressPct (w : World) : Q :=
  fmul (fdiv (inject_Z (timeLeft w)) (inject_Z 60)) (inject_Z 100).

(** The entries of the timer table that fire once. *)
Definition timeouts (w : World) : list Timer :=
  filter (fun t => negb (isTick t)) (timers w).

(** ** Further vocabulary for the generator, the toggles and [parseInt] *)

(** The largest operand magnitude of a configuration. *)
Definition maxOperand (config : Config) : Z :=
  if doubleDigits config then 99 else 12.

(** A sequence of toggles from [c] to [c']: first the operators to switch
    on, then those to switch off, then the modifiers that differ. *)
Definition togglePath (c c' : Config) : list ConfigKey :=
  filter (fun k => negb (getFlag c k) && getFlag c' k) operatorKeys ++
  filter (fun k => getFlag c k && negb (getFlag c' k)) operatorKeys ++
  filter (fun k => negb (Bool.eqb (getFlag c k) (getFlag c' k)))
    [Knegatives; KdoubleDigits].

(** What may follow the digits of a number in an input without changing
    what [parseInt] reads: nothing, or a character that is neither a
    decimal digit nor the [x] of a hexadecimal prefix. *)
Definition endsNumber (rest : string) : bool :=
  match rest with
  | EmptyString => true
  | String a _ =>
      negb (isDigit a || Ascii.eqb a "x" || Ascii.eqb a "X")
  end.

(** An entry of the session history whose verdict is the comparison of the
    typed value with the answer. *)
Definition honestEntry (h : HistoryItem) : Prop :=
  isCorrect h = (user h =? correct h).

(** Every entry of the map has the key of the configuration it carries. *)
Definition keyed (m : list Board.t) : Prop :=
  Forall (fun b => Board.key b = configKey (Board.config b)) m.

(** ** Vocabulary for the feedback on an answer *)

(** The delay each callback is registered with. *)
Definition delayOf (cb : Callback) : Z :=
  match cb with
  | Tick => 1000
  | Focus => 100
  | NextProblem => 150
  | ShakeThenNext => 400
  end.

(** The callbacks [handleAnswer] registers. *)
Definition isFeedback (cb : Callback) : bool :=
  match cb with
  | NextProblem | ShakeThenNext => true
  | _ => false
  end.

(** An entry that is not overdue and fires within its delay. *)
Definition timely (now : Z) (t : Timer) : Prop :=
  now <= due t <= now + delayOf (callback t).

(** Handles name one entry each, no entry is overdue, and the feedback
    shown on the input has a callback pending that withdraws it. *)
Definition feedbackInvariant (w : World) : Prop :=
  NoDup (map handle (timers w)) /\
  Forall (timely (clock w)) (timers w) /\
  (shaking w = true ->
   Exists (fun t => callback t = ShakeThenNext) (timers w)) /\
  (inputClass w <> neutralClass ->
   Exists (fun t => isFeedback (callback t) = true) (timers w)).

(** * Theorems *)

(** ** Theorems: configuration *)

Lemma toggleConfig_hasOperator config key :
  hasOperator config -> hasOperator (toggleConfig config key).
Proof.
  intros Hinv.
  destruct config as [[] [] [] [] n d], key; unfold hasOperator in *; simpl in *;
    try (decompose [or] Hinv; discriminate); auto.
Qed.

(** ** Theorems: problem generator *)

Section Strings.

Lemma allChars_app p s t :
  allChars p (s ++ t) = allChars p s && allChars p t.
Proof.
  induction s as [|a s IH]; simpl; [reflexivity|].
  now rewrite IH, andb_assoc.
Qed.

Lemma allChars_weaken (p p' : ascii -> bool) s :
  (forall a, p a = true -> p' a = true) ->
  allChars p s = true -> allChars p' s = true.
Proof.
  intros Hpp'. induction s as [|a s IH]; simpl; [reflexivity|].
  rewrite !andb_true_iff. intros [Ha Hs]. split; auto.
Qed.

Lemma digits_of_uint d : allChars isDigit (NilEmpty.string_of_uint d) = true.
Proof. induction d; simpl; auto. Qed.

Lemma digits_of_uint0 d : allChars isDigit (NilZero.string_of_uint d) = true.
Proof. destruct d; try reflexivity; apply (digits_of_uint (_ _)). Qed.

Lemma isDigit_notChar c :
  isDigit c = false -> forall a, isDigit a = true -> notChar c a = true.
Proof.
  intros Hc a Ha. unfold notChar.
  destruct (Ascii.eqb_spec a c) as [->|]; [congruence | reflexivity].
Qed.

Lemma splitOn_whole c t :
  allChars (notChar c) t = true -> splitOn c t = [t].
Proof.
  induction t as [|a t IH]; simpl; [reflexivity|].
  rewrite andb_true_iff. intros [Ha Ht]. unfold notChar in Ha.
  destruct (Ascii.eqb a c); [discriminate|]. now rewrite IH.
Qed.

Lemma splitOn_app c t r :
  allChars (notChar c) t = true ->
  splitOn c (t ++ String c r) = t :: splitOn c r.
Proof.
  induction t as [|a t IH]; simpl.
  - intros _. now rewrite Ascii.eqb_refl.
  - rewrite andb_true_iff. intros [Ha Ht]. unfold notChar in Ha.
    destruct (Ascii.eqb a c); [discriminate|]. now rewrite IH.
Qed.

Lemma chopLast_app c t : chopLast c (t ++ String c EmptyString) = Some t.
Proof.
  induction t as [|a t IH].
  - simpl. now rewrite Ascii.eqb_refl.
  - change (String a t ++ String c EmptyString)%string
      with (String a (t ++ String c EmptyString)).
    cbn [chopLast]. rewrite IH.
    destruct (t ++ String c EmptyString)%string eqn:E; [|reflexivity].
    destruct t; discriminate.
Qed.

End Strings.

Section NumberText.

Lemma to_int_regular n :
  Z.to_int n <> Decimal.Pos Decimal.Nil /\ Z.to_int n <> Decimal.Neg Decimal.Nil.
Proof.
  destruct n as [|p|p]; simpl; split; try discriminate;
    intros [= H]; now apply (DecimalPos.Unsigned.to_uint_nonnil p).
Qed.

Lemma readLiteral_toString n : readLiteral (Number_toString n) = Some n.
Proof.
  unfold readLiteral, Number_toString.
  destruct (to_int_regular n) as [H1 H2].
  rewrite NilZero.isi by assumption. simpl. now rewrite DecimalZ.of_to.
Qed.

Lemma toString_nonneg n :
  0 <= n -> allChars isDigit (Number_toString n) = true.
Proof.
  intros Hn. unfold Number_toString.
  destruct n as [|p|p]; [reflexivity | | lia].
  apply digits_of_uint0.
Qed.

Lemma toString_neg n :
  n < 0 -> exists ds, Number_toString n = String "-" ds /\
                     allChars isDigit ds = true.
Proof.
  intros Hn. unfold Number_toString.
  destruct n as [|p|p]; try lia.
  eexists; split; [reflexivity | apply digits_of_uint0].
Qed.

Lemma fmt_noSpace n : allChars (notChar " ") (fmt n) = true.
Proof.
  unfold fmt. destruct (Z.ltb_spec n 0) as [Hn|Hn].
  - destruct (toString_neg n Hn) as (ds & -> & Hds). simpl.
    rewrite allChars_app. simpl. rewrite andb_true_r.
    apply (allChars_weaken isDigit); [|assumption].
    now apply isDigit_notChar.
  - apply (allChars_weaken isDigit); [|now apply toString_nonneg].
    now apply isDigit_notChar.
Qed.

Lemma readOperand_fmt n : readOperand (fmt n) = Some n.
Proof.
  unfold fmt. destruct (Z.ltb_spec n 0) as [Hn|Hn].
  - cbn [append readOperand]. rewrite chopLast_app. apply readLiteral_toString.
  - pose proof (toString_nonneg n Hn) as Hd.
    pose proof (readLiteral_toString n) as Hr.
    unfold readOperand.
    destruct (Number_toString n) as [|a r]; [exact Hr|].
    simpl in Hd. apply andb_true_iff in Hd as [Ha _].
    destruct (Ascii.eqb_spec a "(") as [->|Hne]; [discriminate|].
    destruct a as [[] [] [] [] [] [] [] []]; try exact Hr; congruence.
Qed.

End NumberText.

Section Drawing.

Lemma floorTimes_bounds r n :
  (0 <= r)%Q -> (r < 1)%Q -> 0 < n -> 0 <= floorTimes r n < n.
Proof.
  intros Hr0 Hr1 Hn. unfold floorTimes.
  assert (Hn' : (0 < inject_Z n)%Q) by (change 0%Q with (inject_Z 0); rewrite <- Zlt_Qlt; exact Hn).
  split.
  - rewrite <- (Qfloor_Z 0). apply Qfloor_resp_le.
    apply Qmult_le_0_compat; [assumption | now apply Qlt_le_weak].
  - rewrite Zlt_Qlt.
    apply Qle_lt_trans with (r * inject_Z n)%Q; [apply Qfloor_le|].
    rewrite <- (Qmult_1_l (inject_Z n)) at 2.
    now apply Qmult_lt_compat_r.
Qed.

Lemma candidateOps_cases config o :
  In o (candidateOps config) -> o = "+" \/ o = "-" \/ o = "*" \/ o = "/".
Proof.
  unfold candidateOps. rewrite !in_app_iff.
  destruct (add config), (sub config), (mul config), (div config); simpl;
    intuition auto.
Qed.

Lemma candidateOps_nonempty config :
  hasOperator config -> (0 < List.length (candidateOps config))%nat.
Proof.
  unfold hasOperator, candidateOps.
  destruct config as [[] [] [] [] n d]; simpl; intros H; try lia;
    decompose [or] H; discriminate.
Qed.

Lemma lookup_in ops i :
  0 <= i < Z.of_nat (List.length ops) ->
  exists o, lookup ops i = Some o /\ In o ops.
Proof.
  intros Hi. unfold lookup.
  destruct (Z.ltb_spec i 0) as [?|_]; [lia|].
  destruct (nth_error ops (Z.to_nat i)) as [o|] eqn:E.
  - exists o. split; [reflexivity | eapply nth_error_In; eassumption].
  - apply nth_error_None in E. lia.
Qed.

Lemma drawProblem_sound config g :
  hasOperator config -> unitDraws g ->
  let d := fst (drawProblem config g) in
  (exists o, operator d = Some o /\ In o (candidateOps config)) /\
  operandRange config (num1 d) /\ operandRange config (num2 d).
Proof.
  intros Hop Hg.
  assert (Hpick : exists o,
    lookup (candidateOps config)
      (floorTimes (draws g (used g))
         (Z.of_nat (List.length (candidateOps config)))) = Some o /\
    In o (candidateOps config)).
  { apply lookup_in. apply floorTimes_bounds; try apply Hg.
    pose proof (candidateOps_nonempty config Hop). lia. }
  assert (Hrange : forall i lo hi, lo <= hi ->
    lo <= floorTimes (draws g i) (hi - lo + 1) + lo <= hi).
  { intros i lo hi Hlh.
    pose proof (floorTimes_bounds (draws g i) (hi - lo + 1)
                  (proj1 (Hg i)) (proj2 (Hg i))). lia. }
  unfold drawProblem, operandRange, Math_random. cbn [draws used].
  pose proof (Hrange (S (used g)) 1 12) as A1.
  pose proof (Hrange (S (S (used g))) 1 12) as A2.
  pose proof (Hrange (S (used g)) 10 99) as B1.
  pose proof (Hrange (S (S (used g))) 10 99) as B2.
  destruct (doubleDigits config), (negatives config); cbn [fst operator num1 num2];
    (split; [exact Hpick|]);
    repeat match goal with |- context [if aboveHalf ?r then _ else _] =>
             destruct (aboveHalf r) end;
    lia.
Qed.

End Drawing.

Section Evaluation.

Lemma evalQuestion_compose a b sym o :
  allChars (notChar " ") sym = true -> readSymbol sym = Some o ->
  evalQuestion (fmt a ++ " " ++ sym ++ " " ++ fmt b) = applyArith o a b.
Proof.
  intros Hsym Hread. unfold evalQuestion.
  change (fmt a ++ " " ++ sym ++ " " ++ fmt b)%string
    with (fmt a ++ String " " (sym ++ String " " (fmt b)))%string.
  rewrite splitOn_app by apply fmt_noSpace.
  rewrite splitOn_app by assumption.
  rewrite splitOn_whole by apply fmt_noSpace.
  now rewrite !readOperand_fmt, Hread.
Qed.

Lemma makeProblem_question d :
  question (makeProblem d) =
  (fmt (shownFirst d) ++ " " ++ String_of (opSymbol (operator d)) ++ " " ++
   fmt (num2 d))%string.
Proof.
  unfold makeProblem, shownFirst.
  destruct (operator d) as [o|]; [|reflexivity]. cbn [isOp].
  destruct (String.eqb_spec o "+") as [->|]; [reflexivity|].
  destruct (String.eqb_spec o "-") as [->|]; [reflexivity|].
  destruct (String.eqb_spec o "*") as [->|]; [reflexivity|].
  destruct (String.eqb_spec o "/") as [->|]; reflexivity.
Qed.

Lemma makeProblem_evaluates d o :
  operator d = Some o -> (o = "+" \/ o = "-" \/ o = "*" \/ o = "/") ->
  num2 d <> 0 ->
  evalQuestion (question (makeProblem d)) = Some (answer (makeProblem d)).
Proof.
  intros Ho Hcases Hnz. rewrite makeProblem_question.
  unfold shownFirst, makeProblem. rewrite Ho.
  destruct Hcases as [-> | [-> | [-> | ->]]]; cbn [isOp String.eqb Ascii.eqb Bool.eqb];
    cbn [opSymbol isOp String.eqb Ascii.eqb Bool.eqb String_of answer];
    (erewrite evalQuestion_compose; [|reflexivity|reflexivity]);
    cbn [applyArith]; try reflexivity.
  rewrite Z.rem_mul by assumption.
  destruct (Z.eqb_spec (num2 d) 0) as [?|_]; [contradiction|]. simpl.
  now rewrite Z.quot_mul, Z.div_mul.
Qed.

End Evaluation.

Lemma unitDraws_rngOf l :
  Forall (fun r => (0 <= r)%Q /\ (r < 1)%Q) l -> unitDraws (rngOf l).
Proof.
  intros Hl i. cbn [rngOf draws]. revert i.
  induction Hl as [|r l Hr _ IH]; intros [|i]; simpl; auto;
    split; reflexivity || discriminate.
Qed.

(** C1. For a configuration with an operator flag and draws in [0, 1), the
    generator picks one of the enabled operators, and the answer it returns
    is the value of the displayed question; when it picks division the
    divisor is not zero, the displayed dividend is [num1 * num2], the
    division leaves no remainder and the answer is [num1].  The symbol
    between the operands of a division is the source's literal, which is not
    the division sign. *)
Theorem generate_answer_matches_question (config : Config) (g : Rng)
    (Hop : hasOperator config) (Hg : unitDraws g) :
  let d := fst (drawProblem config g) in
  let p := fst (generate config g) in
  (exists o, operator d = Some o /\ In o (candidateOps config)) /\
  evalQuestion (question p) = Some (answer p) /\
  (operator d = Some "/" ->
     num2 d <> 0 /\
     question p =
       (fmt (num1 d * num2 d) ++ " " ++ divisionLiteral ++ " " ++ fmt (num2 d))%string /\
     Z.rem (num1 d * num2 d) (num2 d) = 0 /\
     answer p = num1 d /\
     divisionLiteral <> specSymbol "/").
Proof.
  intros d p.
  destruct (drawProblem_sound config g Hop Hg) as ((o & Ho & Hin) & _ & H2).
  fold d in Ho, H2.
  assert (Hnz : num2 d <> 0).
  { unfold operandRange in H2.
    destruct (doubleDigits config), (negatives config); lia. }
  assert (Hp : p = makeProblem d).
  { unfold p, d, generate. now destruct (drawProblem config g). }
  split; [now exists o|]. split.
  - rewrite Hp. apply (makeProblem_evaluates d o Ho); [|exact Hnz].
    now apply (candidateOps_cases config).
  - intros Hdiv. rewrite Hp. split; [exact Hnz|]. split; [|split; [|split]].
    + rewrite makeProblem_question. unfold shownFirst. now rewrite Hdiv.
    + now apply Z.rem_mul.
    + unfold makeProblem. rewrite Hdiv. cbn. now apply Z.div_mul.
    + discriminate.
Qed.

Lemma generate_answer_matches_question_witness :
  let g := rngOf [0; 1 # 4; 1 # 6]%Q in
  fst (generate onlyDiv g) = mkProblem ("12 " ++ divisionLiteral ++ " 3") 4 /\
  question (fst (generate onlyDiv g)) <> "12 ÷ 3" /\
  evalQuestion (question (fst (generate onlyDiv g))) = Some 4.
Proof.
  intros g.
  assert (Hop : hasOperator onlyDiv) by (right; right; right; reflexivity).
  assert (Hg : unitDraws g).
  { apply unitDraws_rngOf. repeat constructor; discriminate. }
  split; [reflexivity|]. split; [discriminate|].
  exact (proj1 (proj2 (generate_answer_matches_question onlyDiv g Hop Hg))).
Defined.

(** C6, as stated, fails: with subtraction alone enabled and draws that give
    the operands 7 and 5, the question is composed with the ASCII
    hyphen-minus of the computation, not with the Unicode minus sign. *)
Lemma question_symbol_counterexample :
  ~ (forall config g, hasOperator config -> unitDraws g ->
       let d := fst (drawProblem config g) in
       forall o, operator d = Some o ->
         question (fst (generate config g)) =
         (fmt (shownFirst d) ++ " " ++ specSymbol o ++ " " ++ fmt (num2 d))%string).
Proof.
  intros H.
  specialize (H onlySub (rngOf [0; 1 # 2; 1 # 3]%Q)).
  assert (Hop : hasOperator onlySub) by (right; left; reflexivity).
  assert (Hg : unitDraws (rngOf [0; 1 # 2; 1 # 3]%Q)).
  { apply unitDraws_rngOf. repeat constructor; discriminate. }
  specialize (H Hop Hg "-" eq_refl). vm_compute in H. discriminate H.
Qed.

(** C6, amended.  Every generated question is the first displayed operand,
    a space, the symbol, a space and the second operand.  An operand that is
    not negative is written as its decimal digits, a negative one as its
    decimal text (a minus sign and digits) between parentheses.  Addition
    and subtraction are shown with the ASCII characters of the computation;
    multiplication and division are shown with a literal of their own, which
    differs from the ASCII operator. *)
Theorem question_format (config : Config) (g : Rng)
    (Hop : hasOperator config) (Hg : unitDraws g) :
  let d := fst (drawProblem config g) in
  let p := fst (generate config g) in
  (exists sym,
     question p = (fmt (shownFirst d) ++ " " ++ sym ++ " " ++ fmt (num2 d))%string /\
     (operator d = Some "+" -> sym = "+") /\
     (operator d = Some "-" -> sym = "-") /\
     (operator d = Some "*" -> sym = timesLiteral /\ sym <> "*") /\
     (operator d = Some "/" -> sym = divisionLiteral /\ sym <> "/")) /\
  (forall n, 0 <= n ->
     fmt n = Number_toString n /\ allChars isDigit (fmt n) = true) /\
  (forall n, n < 0 ->
     fmt n = ("(" ++ Number_toString n ++ ")")%string /\
     exists ds, Number_toString n = String "-" ds /\ allChars isDigit ds = true) /\
  (forall n, readLiteral (Number_toString n) = Some n).
Proof.
  intros d p.
  assert (Hp : p = makeProblem d).
  { unfold p, d, generate. now destruct (drawProblem config g). }
  split; [|split; [|split]].
  - exists (String_of (opSymbol (operator d))).
    split; [rewrite Hp; apply makeProblem_question|].
    split; [|split; [|split]]; intros Hd; rewrite Hd;
      (reflexivity || (split; [reflexivity | discriminate])).
  - intros n Hn. unfold fmt.
    destruct (Z.ltb_spec n 0); [lia|]. split; [reflexivity|].
    now apply toString_nonneg.
  - intros n Hn. unfold fmt.
    destruct (Z.ltb_spec n 0); [|lia]. split; [reflexivity|].
    now apply toString_neg.
  - apply readLiteral_toString.
Qed.

Lemma question_format_witness :
  let g := rngOf [0; 1 # 2; 1 # 3]%Q in
  question (fst (generate onlySub g)) = "7 - 5" /\
  exists sym,
    question (fst (generate onlySub g)) =
      (fmt 7 ++ " " ++ sym ++ " " ++ fmt 5)%string /\ sym = "-".
Proof.
  intros g.
  assert (Hop : hasOperator onlySub) by (right; left; reflexivity).
  assert (Hg : unitDraws g).
  { apply unitDraws_rngOf. repeat constructor; discriminate. }
  split; [reflexivity|].
  destruct (proj1 (question_format onlySub g Hop Hg)) as (sym & Hq & _ & Hs & _).
  exists sym. split; [exact Hq | exact (Hs eq_refl)].
Defined.

(** ** Theorems: accuracy *)

Section Doubles.

Lemma pow2_nonneg_exp k : 0 <= k -> (pow2 k == inject_Z (2 ^ k))%Q.
Proof. intros Hk. unfold pow2. now rewrite Zpower_Qpower. Qed.

Lemma pow2_pos k : (0 < pow2 k)%Q.
Proof. apply Qpower_0_lt. reflexivity. Qed.

Lemma pow2_plus a b : (pow2 (a + b) == pow2 a * pow2 b)%Q.
Proof. apply Qpower_plus. discriminate. Qed.

Lemma pow2_inverse k : (pow2 k * pow2 (- k) == 1)%Q.
Proof. rewrite <- pow2_plus, Z.add_opp_diag_r. reflexivity. Qed.

Lemma exponentOf_spec x :
  (0 < x)%Q -> (pow2 (exponentOf x) <= x)%Q /\ (x < pow2 (exponentOf x + 1))%Q.
Proof.
  intros Hpos.
  assert (Hn : 0 < Qnum x) by (unfold Qlt in Hpos; simpl in Hpos; lia).
  set (n := Qnum x) in *. set (d := Z.pos (Qden x)).
  assert (Hd : 0 < d) by (unfold d; lia).
  destruct (Z.log2_spec n Hn) as [Ha1 Ha2].
  destruct (Z.log2_spec d Hd) as [Hb1 Hb2].
  pose proof (Z.log2_nonneg n) as Ha0. pose proof (Z.log2_nonneg d) as Hb0.
  unfold exponentOf. fold n d.
  set (a := Z.log2 n) in *. set (b := Z.log2 d) in *.
  rewrite Zle_Qle in Ha1, Hb1. rewrite Zlt_Qlt in Ha2, Hb2.
  rewrite <- !pow2_nonneg_exp in * by lia.
  assert (Hx : (x * inject_Z d == inject_Z n)%Q).
  { unfold n, d, Qeq. simpl. lia. }
  assert (Hd' : (0 < inject_Z d)%Q).
  { change 0%Q with (inject_Z 0). rewrite <- Zlt_Qlt. exact Hd. }
  assert (E0 : (pow2 (a - b) == pow2 a * pow2 (- b))%Q).
  { replace (a - b) with (a + - b) by lia. apply pow2_plus. }
  assert (E1 : (pow2 (a - b + 1) == 2 * (pow2 a * pow2 (- b)))%Q).
  { rewrite pow2_plus, E0. change (pow2 1) with 2%Q. ring. }
  assert (E2 : (pow2 (a - b - 1 + 1) == pow2 a * pow2 (- b))%Q).
  { replace (a - b - 1 + 1) with (a + - b) by lia. apply pow2_plus. }
  assert (E3 : (2 * pow2 (a - b - 1) == pow2 a * pow2 (- b))%Q).
  { rewrite <- E2, (pow2_plus (a - b - 1) 1). change (pow2 1) with 2%Q. ring. }
  assert (S1 : (pow2 (Z.succ a) == 2 * pow2 a)%Q).
  { unfold Z.succ. rewrite pow2_plus. change (pow2 1) with 2%Q. ring. }
  assert (S2 : (pow2 (Z.succ b) == 2 * pow2 b)%Q).
  { unfold Z.succ. rewrite pow2_plus. change (pow2 1) with 2%Q. ring. }
  rewrite S1 in Ha2. rewrite S2 in Hb2.
  pose proof (pow2_inverse b) as Hinv.
  pose proof (pow2_pos a) as Pa. pose proof (pow2_pos b) as Pb.
  pose proof (pow2_pos (- b)) as Pi.
  destruct (Qle_bool (pow2 (a - b)) x) eqn:E.
  - apply Qle_bool_iff in E. split; [exact E|]. rewrite E1.
    set (A := pow2 a) in *. set (B := pow2 b) in *. set (I := pow2 (- b)) in *.
    set (N := inject_Z n) in *. set (D := inject_Z d) in *.
    clearbody A B I N D. clear -Hx Hd' Ha1 Ha2 Hb1 Hb2 Hinv Pa Pb Pi Hpos.
    nra.
  - assert (E' : (x < pow2 (a - b))%Q).
    { apply Qnot_le_lt. intros H. apply Qle_bool_iff in H. congruence. }
    rewrite E2. split; [|rewrite <- E0; exact E'].
    assert (G : (2 * pow2 (a - b - 1) <= 2 * x)%Q); [|lra].
    rewrite E3.
    set (A := pow2 a) in *. set (B := pow2 b) in *. set (I := pow2 (- b)) in *.
    set (N := inject_Z n) in *. set (D := inject_Z d) in *.
    clearbody A B I N D. clear -Hx Hd' Ha1 Ha2 Hb1 Hb2 Hinv Pa Pb Pi Hpos.
    nra.
Qed.

Lemma roundHalfEven_range x :
  Qfloor x <= roundHalfEven x <= Qfloor x + 1.
Proof.
  unfold roundHalfEven.
  destruct (Qle_bool _ (1 # 2)); [destruct (Qle_bool (1 # 2) _);
    [destruct (Z.even (Qfloor x))|]|]; lia.
Qed.

Lemma roundHalfEven_le x K : (x <= inject_Z K)%Q -> roundHalfEven x <= K.
Proof.
  intros Hx.
  pose proof (Qfloor_resp_le _ _ Hx) as Hf. rewrite Qfloor_Z in Hf.
  destruct (Z.eq_dec (Qfloor x) K) as [E|NE].
  - pose proof (Qfloor_le x) as Hlo. rewrite E in Hlo.
    unfold roundHalfEven. rewrite E.
    assert (Hr : (x - inject_Z K == 0)%Q) by lra.
    destruct (Qle_bool (x - inject_Z K) (1 # 2)) eqn:E1.
    + destruct (Qle_bool (1 # 2) (x - inject_Z K)) eqn:E2; [|lia].
      apply Qle_bool_iff in E2. lra.
    + assert (E1' : Qle_bool (x - inject_Z K) (1 # 2) = true)
        by (apply Qle_bool_iff; lra).
      congruence.
  - pose proof (roundHalfEven_range x). lia.
Qed.

Lemma roundHalfEven_nonneg x : (0 <= x)%Q -> 0 <= roundHalfEven x.
Proof.
  intros Hx. pose proof (Qfloor_resp_le _ _ Hx) as Hf.
  change (Qfloor 0) with 0 in Hf.
  pose proof (roundHalfEven_range x). lia.
Qed.

Lemma round64_nonneg x : (0 <= round64 x)%Q.
Proof.
  unfold round64. destruct (Qle_bool x 0) eqn:E; [lra|].
  assert (Hx : (0 < x)%Q).
  { apply Qnot_le_lt. intros H. apply Qle_bool_iff in H. congruence. }
  apply Qmult_le_0_compat; [|apply Qlt_le_weak, pow2_pos].
  change 0%Q with (inject_Z 0). rewrite <- Zle_Qle.
  apply roundHalfEven_nonneg.
  apply Qmult_le_0_compat; apply Qlt_le_weak; [exact Hx | apply pow2_pos].
Qed.

Lemma exponentOf_le x B :
  (0 < x)%Q -> (x <= inject_Z B)%Q -> 0 < B <= 128 -> exponentOf x <= 7.
Proof.
  intros Hpos Hx HB.
  assert (Hn : 0 < Qnum x) by (unfold Qlt in Hpos; simpl in Hpos; lia).
  assert (Hle : Qnum x <= Z.pos (Qden x) * 2 ^ 7).
  { unfold Qle in Hx. simpl in Hx. nia. }
  apply Z.log2_le_mono in Hle.
  rewrite Z.log2_mul_pow2 in Hle by lia.
  unfold exponentOf.
  destruct (Qle_bool _ x); lia.
Qed.

(** Rounding to a double never crosses an integer bound up to 128. *)
Lemma round64_le x B :
  (x <= inject_Z B)%Q -> 0 <= B <= 128 -> (round64 x <= inject_Z B)%Q.
Proof.
  intros Hx HB. unfold round64.
  destruct (Qle_bool x 0) eqn:E.
  - change 0%Q with (inject_Z 0). rewrite <- Zle_Qle. lia.
  - assert (Hpos : (0 < x)%Q).
    { apply Qnot_le_lt. intros H. apply Qle_bool_iff in H. congruence. }
    assert (HB' : 0 < B).
    { assert (H : (0 < inject_Z B)%Q) by lra.
      change 0%Q with (inject_Z 0) in H. rewrite <- Zlt_Qlt in H. exact H. }
    pose proof (exponentOf_le x B Hpos Hx (conj HB' (proj2 HB))) as He.
    set (e := exponentOf x) in *. set (k := 52 - e).
    assert (Hk : 0 <= k) by (unfold k; lia).
    replace (e - 52) with (- k) by (unfold k; lia).
    assert (Hm : roundHalfEven (x * pow2 k) <= B * 2 ^ k).
    { apply roundHalfEven_le. rewrite inject_Z_mult, <- pow2_nonneg_exp by exact Hk.
      apply Qmult_le_compat_r; [exact Hx | apply Qlt_le_weak, pow2_pos]. }
    rewrite Zle_Qle, inject_Z_mult, <- pow2_nonneg_exp in Hm by exact Hk.
    pose proof (pow2_pos (- k)) as Hp.
    pose proof (pow2_inverse k) as Hinv.
    apply Qle_trans with (inject_Z B * pow2 k * pow2 (- k))%Q.
    + apply Qmult_le_compat_r; [exact Hm | now apply Qlt_le_weak].
    + rewrite <- Qmult_assoc, Hinv. lra.
Qed.

End Doubles.

Lemma correctCount_le h : (correctCount h <= List.length h)%nat.
Proof.
  unfold correctCount. induction h as [|x h IH]; simpl; [lia|].
  destruct (isCorrect x); simpl; lia.
Qed.

Lemma accuracyOf_range h : 0 <= accuracyOf h <= 100.
Proof.
  unfold accuracyOf.
  destruct (Z.ltb_spec 0 (Z.of_nat (List.length h))) as [Ht|Ht]; [|lia].
  pose proof (correctCount_le h) as Hc.
  set (c := Z.of_nat (correctCount h)). set (t := Z.of_nat (List.length h)).
  assert (Hquot : (inject_Z c / inject_Z t <= inject_Z 1)%Q).
  { apply Qle_shift_div_r.
    - change 0%Q with (inject_Z 0). rewrite <- Zlt_Qlt. exact Ht.
    - rewrite <- inject_Z_mult, <- Zle_Qle. unfold c, t. lia. }
  pose proof (round64_le _ 1 Hquot ltac:(lia)) as H1.
  fold (fdiv (inject_Z c) (inject_Z t)) in H1.
  pose proof (round64_nonneg (inject_Z c / inject_Z t)) as H0.
  fold (fdiv (inject_Z c) (inject_Z t)) in H0.
  set (x1 := fdiv (inject_Z c) (inject_Z t)) in *.
  assert (Hprod : (x1 * inject_Z 100 <= inject_Z 100)%Q).
  { change (inject_Z 1) with 1%Q in H1. change (inject_Z 100) with 100%Q. lra. }
  pose proof (round64_le _ 100 Hprod ltac:(lia)) as H2.
  pose proof (round64_nonneg (x1 * inject_Z 100)) as H3.
  fold (fmul x1 (inject_Z 100)) in H2, H3.
  set (x2 := fmul x1 (inject_Z 100)) in *.
  unfold Math_round. split.
  - change 0 with (Qfloor 0). apply Qfloor_resp_le. lra.
  - change 100 with (Qfloor (inject_Z 100 + (1 # 2))). apply Qfloor_resp_le. lra.
Qed.

Section DoubleError.

(** Half a unit in the last place of a double in [1, 2): [2 ^ -53]. *)
Let u : Q := 1 # 9007199254740992.

Lemma roundHalfEven_error s :
  (inject_Z (roundHalfEven s) - (1 # 2) <= s)%Q /\
  (s <= inject_Z (roundHalfEven s) + (1 # 2))%Q.
Proof.
  pose proof (Qfloor_le s) as Hlo. pose proof (Qlt_floor s) as Hhi.
  rewrite inject_Z_plus in Hhi. change (inject_Z 1) with 1%Q in Hhi.
  unfold roundHalfEven.
  destruct (Qle_bool (s - inject_Z (Qfloor s)) (1 # 2)) eqn:E1.
  - apply Qle_bool_iff in E1.
    destruct (Qle_bool (1 # 2) (s - inject_Z (Qfloor s))) eqn:E2.
    + apply Qle_bool_iff in E2.
      destruct (Z.even (Qfloor s)); rewrite ?inject_Z_plus;
        change (inject_Z 1) with 1%Q; lra.
    + lra.
  - assert (E1' : ((1 # 2) < s - inject_Z (Qfloor s))%Q).
    { apply Qnot_le_lt. intros H. apply Qle_bool_iff in H. congruence. }
    rewrite inject_Z_plus. change (inject_Z 1) with 1%Q. lra.
Qed.

(** Rounding to a double moves a positive number by at most the fraction
    [2 ^ -53] of it. *)
Lemma round64_error x :
  (0 < x)%Q -> (x - x * u <= round64 x)%Q /\ (round64 x <= x + x * u)%Q.
Proof.
  intros Hpos. unfold round64.
  destruct (Qle_bool x 0) eqn:E.
  { apply Qle_bool_iff in E. lra. }
  destruct (exponentOf_spec x Hpos) as [He _].
  set (e := exponentOf x) in *.
  destruct (roundHalfEven_error (x * pow2 (52 - e))) as [Hm1 Hm2].
  set (m := inject_Z (roundHalfEven (x * pow2 (52 - e)))) in *.
  assert (Hs : (x * pow2 (52 - e) * pow2 (e - 52) == x)%Q).
  { rewrite <- Qmult_assoc, <- pow2_plus.
    replace (52 - e + (e - 52)) with 0 by lia. change (pow2 0) with 1%Q. ring. }
  assert (HP : (pow2 (e - 52) == pow2 e * (2 * u))%Q).
  { replace (e - 52) with (e + -52) by lia. rewrite pow2_plus.
    apply Qmult_comp; [reflexivity|]. reflexivity. }
  pose proof (pow2_pos e) as Pe. pose proof (pow2_pos (e - 52)) as PP.
  assert (Hu : (0 < u)%Q) by reflexivity.
  set (S := (x * pow2 (52 - e))%Q) in *.
  set (P := pow2 (e - 52)) in *. set (E2 := pow2 e) in *.
  clearbody S P E2 m u. clear -Hm1 Hm2 Hs HP Pe PP Hu He Hpos.
  assert (H1 : (m * P <= (S + (1 # 2)) * P)%Q)
    by (apply Qmult_le_compat_r; lra).
  assert (H2 : ((S - (1 # 2)) * P <= m * P)%Q)
    by (apply Qmult_le_compat_r; lra).
  assert (H3 : (E2 * u <= x * u)%Q)
    by (apply Qmult_le_compat_r; lra).
  assert (H4 : ((S + (1 # 2)) * P == x + E2 * u)%Q).
  { rewrite Qmult_plus_distr_l, Hs, HP. ring. }
  assert (H5 : ((S - (1 # 2)) * P == x - E2 * u)%Q).
  { setoid_replace ((S - (1 # 2)) * P)%Q with (S * P - (1 # 2) * P)%Q by ring.
    rewrite Hs, HP. ring. }
  rewrite H4 in H1. rewrite H5 in H2. split; lra.
Qed.

(** For a history of at most [2 ^ 32] entries the accuracy is within one
    half of the exact percentage. *)
Lemma accuracyOf_nearest h :
  h <> [] -> Z.of_nat (List.length h) <= 2 ^ 32 ->
  let c := Z.of_nat (correctCount h) in
  let t := Z.of_nat (List.length h) in
  200 * c - t <= 2 * t * accuracyOf h <= 200 * c + t.
Proof.
  intros Hne Hlen c t.
  assert (Ht : 0 < t) by (unfold t; destruct h; [contradiction | simpl; lia]).
  assert (Hc : 0 <= c <= t).
  { unfold c, t. pose proof (correctCount_le h). lia. }
  unfold accuracyOf. fold c t.
  destruct (Z.ltb_spec 0 t) as [_|]; [|lia].
  set (y := (inject_Z c / inject_Z t)%Q).
  assert (HT : (0 < inject_Z t)%Q).
  { change 0%Q with (inject_Z 0). now rewrite <- Zlt_Qlt. }
  assert (Hy : (y * inject_Z t == inject_Z c)%Q).
  { unfold y. field. lra. }
  assert (Hy0 : (0 <= y)%Q).
  { unfold y. apply Qle_shift_div_l; [exact HT|].
    rewrite Qmult_0_l. change 0%Q with (inject_Z 0). rewrite <- Zle_Qle. lia. }
  assert (Hy1 : (y <= inject_Z 1)%Q).
  { unfold y. apply Qle_shift_div_r; [exact HT|].
    rewrite <- inject_Z_mult, <- Zle_Qle. lia. }
  pose proof (round64_le y 1 Hy1 ltac:(lia)) as Hx1.
  pose proof (round64_nonneg y) as Hx0.
  change (inject_Z 1) with 1%Q in Hx1, Hy1.
  assert (He1 : (y - y * u <= round64 y)%Q /\ (round64 y <= y + y * u)%Q).
  { destruct (Qlt_le_dec 0 y) as [Hpos|Hzero]; [now apply round64_error|].
    assert (Hz : Qle_bool y 0 = true) by now apply Qle_bool_iff.
    unfold round64. rewrite Hz. assert (y == 0)%Q by lra. split; nra. }
  unfold fdiv, fmul. fold y. set (x1 := round64 y) in *.
  change (inject_Z 100) with 100%Q.
  assert (He2 : (x1 * 100 - x1 * 100 * u <= round64 (x1 * 100))%Q /\
                (round64 (x1 * 100) <= x1 * 100 + x1 * 100 * u)%Q).
  { destruct (Qlt_le_dec 0 x1) as [Hpos|Hzero].
    - apply round64_error. lra.
    - assert (Hz : Qle_bool (x1 * 100) 0 = true) by (apply Qle_bool_iff; lra).
      unfold round64. rewrite Hz. assert (x1 == 0)%Q by lra. split; nra. }
  set (x2 := round64 (x1 * 100)) in *.
  pose proof (Qfloor_le (x2 + (1 # 2))) as Hlo.
  pose proof (Qlt_floor (x2 + (1 # 2))) as Hhi.
  unfold Math_round. set (a := Qfloor (x2 + (1 # 2))) in *.
  rewrite inject_Z_plus in Hhi. change (inject_Z 1) with 1%Q in Hhi.
  assert (Hu : (u == 1 # 9007199254740992)%Q) by reflexivity.
  assert (HT2 : (inject_Z t <= 4294967296)%Q).
  { change 4294967296%Q with (inject_Z (2 ^ 32)). now rewrite <- Zle_Qle. }
  assert (Hclose : (100 * y - 200 * u <= x2)%Q /\ (x2 <= 100 * y + 200 * u + u)%Q).
  { clearbody x1 x2 u y. destruct He1, He2. split; nra. }
  assert (Hup : (inject_Z (2 * t * a) < inject_Z (200 * c + t + 1))%Q).
  { rewrite !inject_Z_plus, !inject_Z_mult. rewrite <- Hy.
    change (inject_Z 2) with 2%Q. change (inject_Z 200) with 200%Q.
    change (inject_Z 1) with 1%Q.
    set (A := inject_Z a) in *. set (T := inject_Z t) in *.
    clearbody A T x1 x2 u y. destruct Hclose. nra. }
  assert (Hdown : (inject_Z (200 * c - t - 1) < inject_Z (2 * t * a))%Q).
  { unfold Z.sub. rewrite !inject_Z_plus, !inject_Z_opp, !inject_Z_mult. rewrite <- Hy.
    change (inject_Z 2) with 2%Q. change (inject_Z 200) with 200%Q.
    change (inject_Z 1) with 1%Q.
    set (A := inject_Z a) in *. set (T := inject_Z t) in *.
    clearbody A T x1 x2 u y. destruct Hclose. nra. }
  rewrite <- Zlt_Qlt in Hup, Hdown. lia.
Qed.

End DoubleError.

(** The exact accuracy, as a quotient of integers. *)
Lemma specAccuracy_quotient h :
  h <> [] ->
  let c := Z.of_nat (correctCount h) in
  let t := Z.of_nat (List.length h) in
  specAccuracy h = (200 * c + t) / (2 * t).
Proof.
  intros Hne c t.
  assert (Ht : 0 < t) by (unfold t; destruct h; [contradiction | simpl; lia]).
  unfold specAccuracy. fold c t.
  assert (HT : (0 < inject_Z t)%Q).
  { change 0%Q with (inject_Z 0). now rewrite <- Zlt_Qlt. }
  destruct (Qeq_bool (inject_Z t) 0) eqn:E.
  { apply Qeq_bool_iff in E. lra. }
  unfold Math_round. rewrite Zdiv_Qdiv. apply Qfloor_comp.
  rewrite inject_Z_plus, !inject_Z_mult.
  change (inject_Z 200) with 200%Q. change (inject_Z 2) with 2%Q.
  field. lra.
Qed.

(** The accuracy is the exact one, or one below it at an exact tie. *)
Lemma accuracyOf_vs_exact h :
  h <> [] -> Z.of_nat (List.length h) <= 2 ^ 32 ->
  let c := Z.of_nat (correctCount h) in
  let t := Z.of_nat (List.length h) in
  specAccuracy h - 1 <= accuracyOf h <= specAccuracy h /\
  ((200 * c + t) mod (2 * t) <> 0 -> accuracyOf h = specAccuracy h).
Proof.
  intros Hne Hlen c t.
  assert (Ht : 0 < t) by (unfold t; destruct h; [contradiction | simpl; lia]).
  pose proof (accuracyOf_nearest h Hne Hlen) as Hn. cbv zeta in Hn. fold c t in Hn.
  rewrite (specAccuracy_quotient h Hne). fold c t.
  pose proof (Z.div_mod (200 * c + t) (2 * t) ltac:(lia)) as Hdm.
  pose proof (Z.mod_pos_bound (200 * c + t) (2 * t) ltac:(lia)) as Hmb.
  set (q := (200 * c + t) / (2 * t)) in *.
  set (r := (200 * c + t) mod (2 * t)) in *.
  set (a := accuracyOf h) in *.
  clearbody q r a.
  assert (Hlow : q - 1 <= a).
  { apply (Z.mul_le_mono_pos_l _ _ (2 * t)); lia. }
  assert (Hhigh : a < q + 1).
  { apply (Z.mul_lt_mono_pos_l (2 * t)); lia. }
  split; [lia|]. intros Hr.
  assert (Hq : q - 1 < a); [|lia].
  apply (Z.mul_lt_mono_pos_l (2 * t)); lia.
Qed.

(** ** Theorems: answers, rounds and timers *)

Section Handlers.

Lemma handleAnswer_unparsed w :
  parseInt (userInput w) = None -> handleAnswer w = w.
Proof. intros H. unfold handleAnswer. now rewrite H. Qed.

Lemma handleAnswer_parsed w val :
  parseInt (userInput w) = Some val ->
  let w' := handleAnswer w in
  sessionHistory w' = sessionHistory w ++ [historyEntry w val] /\
  score w' = (if val =? answer (currentProblem w) then score w + 1 else score w) /\
  timers w' = timers w ++ [feedbackTimer w val] /\
  nextHandle w' = S (nextHandle w) /\
  currentProblem w' = currentProblem w /\
  userInput w' = userInput w /\
  screen w' = screen w /\
  clock w' = clock w.
Proof.
  intros H. unfold handleAnswer, historyEntry, feedbackTimer. rewrite H.
  destruct (val =? answer (currentProblem w)); repeat split; reflexivity.
Qed.

Lemma handleAnswer_noop_iff w :
  handleAnswer w = w <-> parseInt (userInput w) = None.
Proof.
  split; [|apply handleAnswer_unparsed].
  destruct (parseInt (userInput w)) as [val|] eqn:E; [|reflexivity].
  intros Heq. destruct (handleAnswer_parsed w val E) as (Hh & _).
  rewrite Heq in Hh. apply (f_equal (@List.length _)) in Hh.
  rewrite length_app in Hh. simpl in Hh. lia.
Qed.

Lemma generateProblem_problem w :
  currentProblem (generateProblem w) = fst (generate (config w) (rng w)) /\
  userInput (generateProblem w) = EmptyString /\
  screen (generateProblem w) = screen w /\
  timers (generateProblem w) = timers w /\
  nextHandle (generateProblem w) = nextHandle w /\
  timerInterval (generateProblem w) = timerInterval w.
Proof.
  unfold generateProblem. destruct (generate (config w) (rng w)). repeat split; reflexivity.
Qed.

Lemma clearCountdown_timers w :
  timers (clearCountdown w) =
  match timerInterval w with
  | Some h => filter (fun t => negb (handle t =? h)%nat) (timers w)
  | None => timers w
  end.
Proof. unfold clearCountdown. now destruct (timerInterval w). Qed.

Lemma clearCountdown_other w :
  screen (clearCountdown w) = screen w /\
  nextHandle (clearCountdown w) = nextHandle w /\
  timerInterval (clearCountdown w) = timerInterval w /\
  pastGames (clearCountdown w) = pastGames w /\
  sessionHistory (clearCountdown w) = sessionHistory w /\
  score (clearCountdown w) = score w /\
  config (clearCountdown w) = config w /\
  clock (clearCountdown w) = clock w /\
  browser (clearCountdown w) = browser w /\
  currentProblem (clearCountdown w) = currentProblem w.
Proof.
  unfold clearCountdown.
  destruct (timerInterval w) eqn:E; repeat split; cbn; auto.
Qed.

Lemma endGame_fields w :
  pastGames (endGame w) = firstn 50 (newRecord w :: pastGames w) /\
  timers (endGame w) = timers (clearCountdown w) /\
  nextHandle (endGame w) = nextHandle w /\
  timerInterval (endGame w) = timerInterval w /\
  screen (endGame w) = Result /\
  currentProblem (endGame w) = currentProblem w /\
  saved (endGame w) =
    (if browser w then Some (firstn 50 (newRecord w :: pastGames w))
     else saved w) /\
  config (endGame w) = config w.
Proof.
  destruct (clearCountdown_other w) as (_ & Hn & Hi & Hp & Hh & Hs & Hc & Hk & Hb & Hq).
  assert (Hr : newRecord (clearCountdown w) = newRecord w).
  { unfold newRecord. now rewrite Hh, Hs, Hc, Hk. }
  unfold endGame. rewrite Hr, Hp. cbn [browser with_pastGames].
  rewrite Hb. unfold clearCountdown.
  destruct (browser w), (timerInterval w) eqn:E; repeat split; cbn; auto.
Qed.

End Handlers.

Section TimerTable.

Lemma timersConsistent_ext w w' :
  timers w' = timers w -> nextHandle w' = nextHandle w ->
  timerInterval w' = timerInterval w ->
  timersConsistent w -> timersConsistent w'.
Proof. unfold timersConsistent. intros -> -> ->. exact (fun H => H). Qed.

Lemma timersConsistent_filter w w' f :
  timers w' = filter f (timers w) -> nextHandle w' = nextHandle w ->
  timerInterval w' = timerInterval w ->
  timersConsistent w -> timersConsistent w'.
Proof.
  unfold timersConsistent. intros -> -> -> (H1 & H2 & H3 & H4).
  repeat split; auto; intros t Ht; apply filter_In in Ht as [Ht _]; auto.
Qed.

Lemma timersConsistent_add w w' t :
  timers w' = timers w ++ [t] -> handle t = nextHandle w ->
  nextHandle w' = S (nextHandle w) -> timerInterval w' = timerInterval w ->
  callback t <> Tick ->
  timersConsistent w -> timersConsistent w'.
Proof.
  unfold timersConsistent. intros -> Hh -> -> Hcb (H1 & H2 & H3 & H4).
  repeat split.
  - intros t' Ht'. apply in_app_or in Ht' as [Ht'|[<-|[]]]; [|lia].
    specialize (H1 t' Ht'). lia.
  - intros h Hi. specialize (H2 h Hi). lia.
  - intros t' Ht' Htick. apply in_app_or in Ht' as [Ht'|[<-|[]]]; auto.
    contradiction.
  - intros t' Ht' Hnt. apply in_app_or in Ht' as [Ht'|[<-|[]]]; auto.
    intros Hi. specialize (H2 _ Hi). lia.
Qed.

Lemma timersConsistent_clearCountdown w :
  timersConsistent w -> timersConsistent (clearCountdown w).
Proof.
  destruct (clearCountdown_other w) as (_ & Hn & Hi & _).
  pose proof (clearCountdown_timers w) as Ht.
  destruct (timerInterval w) as [h|] eqn:E.
  - apply (timersConsistent_filter w _ _ Ht Hn). congruence.
  - apply (timersConsistent_ext w _ Ht Hn). congruence.
Qed.

(** After [clearCountdown] no countdown is left in the timer table. *)
Lemma clearCountdown_no_tick w :
  timersConsistent w ->
  Forall (fun t => callback t <> Tick) (timers (clearCountdown w)).
Proof.
  intros (_ & _ & H3 & _). apply Forall_forall. intros t Ht Htick.
  rewrite clearCountdown_timers in Ht.
  destruct (timerInterval w) as [h|] eqn:E.
  - apply filter_In in Ht as [Ht Hne].
    specialize (H3 t Ht Htick). injection H3 as H3.
    rewrite H3, Nat.eqb_refl in Hne. discriminate.
  - specialize (H3 t Ht Htick). congruence.
Qed.

(** [clearCountdown] leaves every other entry in the timer table. *)
Lemma clearCountdown_keeps w t :
  timersConsistent w -> In t (timers w) -> callback t <> Tick ->
  In t (timers (clearCountdown w)).
Proof.
  intros (_ & _ & _ & H4) Ht Hcb. rewrite clearCountdown_timers.
  destruct (timerInterval w) as [h|] eqn:E; [|exact Ht].
  apply filter_In. split; [exact Ht|].
  destruct (Nat.eqb_spec (handle t) h) as [Eh|]; [|reflexivity].
  exfalso. apply (H4 t Ht Hcb). congruence.
Qed.

Lemma startGame_timers w :
  timers (startGame w) =
    timers (clearCountdown w) ++
    [mkTimer (nextHandle w) (clock w + 1000) (Some 1000) Tick;
     mkTimer (S (nextHandle w)) (clock w + 100) None Focus] /\
  nextHandle (startGame w) = S (S (nextHandle w)) /\
  timerInterval (startGame w) = Some (nextHandle w).
Proof.
  unfold startGame, generateProblem. cbn.
  destruct (generate (config w) (rng w)) as [p g]. unfold clearCountdown. cbn.
  destruct (timerInterval w); cbn; rewrite <- app_assoc; repeat split.
Qed.

Lemma timersConsistent_startGame w :
  timersConsistent w -> timersConsistent (startGame w).
Proof.
  intros Hw. destruct (startGame_timers w) as (Ht & Hn & Hi).
  pose proof (clearCountdown_no_tick w Hw) as Hno.
  rewrite Forall_forall in Hno.
  destruct (timersConsistent_clearCountdown w Hw) as (H1 & _).
  destruct (clearCountdown_other w) as (_ & Hn' & _). rewrite Hn' in H1.
  unfold timersConsistent. rewrite Ht, Hn, Hi. repeat split.
  - intros t Hin. apply in_app_or in Hin as [Hin|[<-|[<-|[]]]]; cbn; try lia.
    specialize (H1 t Hin). lia.
  - intros h [= <-]. lia.
  - intros t Hin Htick. apply in_app_or in Hin as [Hin|[<-|[<-|[]]]];
      [now destruct (Hno t Hin) | reflexivity | discriminate].
  - intros t Hin Hnt [= E]. apply in_app_or in Hin as [Hin|[<-|[<-|[]]]]; cbn in *.
    + specialize (H1 t Hin). lia.
    + now apply Hnt.
    + lia.
Qed.

Lemma timersConsistent_endGame w :
  timersConsistent w -> timersConsistent (endGame w).
Proof.
  intros Hw. destruct (endGame_fields w) as (_ & Ht & Hn & Hi & _).
  destruct (clearCountdown_other w) as (_ & Hn' & Hi' & _).
  apply (timersConsistent_ext (clearCountdown w)); try congruence.
  now apply timersConsistent_clearCountdown.
Qed.

Lemma timersConsistent_handleAnswer w :
  timersConsistent w -> timersConsistent (handleAnswer w).
Proof.
  intros Hw. destruct (parseInt (userInput w)) as [val|] eqn:E.
  - destruct (handleAnswer_parsed w val E) as (_ & _ & Ht & Hn & _).
    assert (Hi : timerInterval (handleAnswer w) = timerInterval w).
    { unfold handleAnswer. rewrite E.
      destruct (val =? answer (currentProblem w)); reflexivity. }
    apply (timersConsistent_add w _ _ Ht); auto;
      unfold feedbackTimer; destruct (val =? _); cbn; congruence.
  - now rewrite handleAnswer_unparsed.
Qed.

Lemma timersConsistent_generateProblem w :
  timersConsistent w -> timersConsistent (generateProblem w).
Proof.
  destruct (generateProblem_problem w) as (_ & _ & _ & Ht & Hn & Hi).
  now apply timersConsistent_ext.
Qed.

Lemma timersConsistent_runCallback cb w :
  timersConsistent w -> timersConsistent (runCallback cb w).
Proof.
  intros Hw. destruct cb; cbn [runCallback].
  - destruct (timeLeft (with_timeLeft (timeLeft w - 1) w) <=? 0);
      [apply timersConsistent_endGame|]; exact Hw.
  - exact Hw.
  - now apply timersConsistent_generateProblem.
  - apply timersConsistent_generateProblem. exact Hw.
Qed.

Lemma timersConsistent_rearm w t now :
  timersConsistent w -> In t (timers w) ->
  timersConsistent (with_timers (rearm t now (timers (with_clock now w)))
                      (with_clock now w)).
Proof.
  intros (H1 & H2 & H3 & H4) Ht. unfold rearm. cbn [timers with_clock].
  destruct (period t) as [p|].
  - set (f := fun t' : Timer =>
                if (handle t' =? handle t)%nat
                then mkTimer (handle t) (now + p) (Some p) (callback t)
                else t').
    assert (Hf : forall t0, In t0 (timers w) ->
              handle (f t0) = handle t0 /\
              (callback (f t0) = Tick <-> callback t0 = Tick)).
    { intros t0 Ht0. unfold f.
      destruct (Nat.eqb_spec (handle t0) (handle t)) as [E|NE];
        [|split; [reflexivity | tauto]].
      cbn. split; [now symmetry|]. split; intros Htick.
      - destruct (callback t0) eqn:C; try reflexivity; exfalso;
          (apply (H4 t0 Ht0); [rewrite C; discriminate|]);
          rewrite E; now apply H3.
      - destruct (callback t) eqn:C; try reflexivity; exfalso;
          (apply (H4 t Ht); [rewrite C; discriminate|]);
          rewrite <- E; now apply H3. }
    unfold timersConsistent.
    cbn [timers nextHandle timerInterval with_timers with_clock].
    split; [|split; [exact H2|split]].
    + intros t' Ht'. apply in_map_iff in Ht' as (t0 & <- & Ht0).
      rewrite (proj1 (Hf t0 Ht0)). now apply H1.
    + intros t' Ht' Htick. apply in_map_iff in Ht' as (t0 & <- & Ht0).
      rewrite (proj1 (Hf t0 Ht0)). apply H3; [exact Ht0|].
      now apply (Hf t0 Ht0).
    + intros t' Ht' Hnt. apply in_map_iff in Ht' as (t0 & <- & Ht0).
      rewrite (proj1 (Hf t0 Ht0)). apply H4; [exact Ht0|].
      intros Htick. apply Hnt. now apply (Hf t0 Ht0).
  - eapply (timersConsistent_filter w); try reflexivity. now repeat split.
Qed.

Lemma earliest_in ts t : earliest ts = Some t -> In t ts.
Proof.
  revert t. induction ts as [|t0 ts IH]; simpl; [discriminate|].
  destruct (earliest ts) as [t'|]; intros t.
  - destruct (due t' <? due t0); intros [= <-]; auto.
  - intros [= <-]. now left.
Qed.

Lemma timersConsistent_step e w w' :
  step e w = Some w' -> timersConsistent w -> timersConsistent w'.
Proof.
  intros Hs Hw. destruct e; cbn [step] in Hs.
  - destruct (_ && _); [|discriminate]. injection Hs as <-. exact Hw.
  - destruct (earliest (timers w)) as [t|] eqn:E; [|discriminate].
    injection Hs as <-. apply timersConsistent_runCallback.
    apply timersConsistent_rearm; [exact Hw | now apply earliest_in].
  - destruct (onScreen Menu w); [|discriminate]. injection Hs as <-. exact Hw.
  - destruct (_ || _); [|discriminate]. injection Hs as <-.
    now apply timersConsistent_startGame.
  - destruct (onScreen Game w); [|discriminate]. injection Hs as <-.
    unfold abandonGame. apply (timersConsistent_ext (clearCountdown w));
      try reflexivity. now apply timersConsistent_clearCountdown.
  - destruct (onScreen Game w); [|discriminate]. injection Hs as <-. exact Hw.
  - destruct (onScreen Game w); [|discriminate]. injection Hs as <-.
    now apply timersConsistent_handleAnswer.
  - destruct (_ || _); [|discriminate]. injection Hs as <-. exact Hw.
  - destruct (onScreen Menu w); [|discriminate]. injection Hs as <-. exact Hw.
Qed.

Lemma timersConsistent_run es : forall w w',
  run es w = Some w' -> timersConsistent w -> timersConsistent w'.
Proof.
  induction es as [|e es IH]; intros w w' Hr Hw; simpl in Hr.
  - now injection Hr as <-.
  - destruct (step e w) as [w1|] eqn:E; [|discriminate].
    eapply IH; [exact Hr|]. eapply timersConsistent_step; eassumption.
Qed.

Lemma reachable_timersConsistent w : reachable w -> timersConsistent w.
Proof.
  intros (now & g & b & es & Hr).
  eapply timersConsistent_run; [exact Hr|].
  repeat split; cbn; intros; try contradiction; discriminate.
Qed.

End TimerTable.

Section Reachability.

(** Induction over the events that lead to a reachable world. *)
Lemma reachable_invariant (P : World -> Prop) :
  (forall now g inBrowser, P (initialWorld now g inBrowser)) ->
  (forall e w w', P w -> step e w = Some w' -> P w') ->
  forall w, reachable w -> P w.
Proof.
  intros Hinit Hstep w (now & g & b & es & Hrun).
  revert Hrun. generalize (Hinit now g b). generalize (initialWorld now g b).
  induction es as [|e es IH]; intros w0 Hw0 Hrun; simpl in Hrun.
  - now injection Hrun as <-.
  - destruct (step e w0) as [w1|] eqn:E; [|discriminate].
    apply (IH w1); [eapply Hstep; eassumption | exact Hrun].
Qed.

Lemma runCallback_keeps cb w :
  config (runCallback cb w) = config w /\
  (pastGames (runCallback cb w) = pastGames w \/
   exists r, pastGames (runCallback cb w) = firstn 50 (r :: pastGames w)).
Proof.
  destruct cb; cbn [runCallback].
  - destruct (_ <=? 0); [|split; [reflexivity | now left]].
    destruct (endGame_fields (with_timeLeft (timeLeft w - 1) w))
      as (Hp & _ & _ & _ & _ & _ & _ & Hc).
    split; [exact Hc | right; eexists; exact Hp].
  - split; [reflexivity | now left].
  - unfold generateProblem. destruct (generate _ _). split; [reflexivity | now left].
  - unfold generateProblem. destruct (generate _ _). split; [reflexivity | now left].
Qed.

(** What one event can do to the configuration and to the stored list. *)
Lemma step_keeps e w w' :
  step e w = Some w' ->
  (config w' = config w \/ exists key, config w' = toggleConfig (config w) key) /\
  (pastGames w' = pastGames w \/
   exists r, pastGames w' = firstn 50 (r :: pastGames w)).
Proof.
  intros Hs. destruct e; cbn [step] in Hs.
  - destruct (_ && _); [|discriminate]. injection Hs as <-. split; now left.
  - destruct (earliest (timers w)) as [t|]; [|discriminate]. injection Hs as <-.
    destruct (runCallback_keeps (callback t)
                (with_timers (rearm t (Z.max (clock w) (due t))
                                (timers (with_clock (Z.max (clock w) (due t)) w)))
                   (with_clock (Z.max (clock w) (due t)) w))) as [Hc Hp].
    split; [left; exact Hc | exact Hp].
  - destruct (onScreen Menu w); [|discriminate]. injection Hs as <-.
    split; [right; now exists key | now left].
  - destruct (_ || _); [|discriminate]. injection Hs as <-.
    unfold startGame, generateProblem, clearCountdown. cbn.
    destruct (generate _ _). cbn. destruct (timerInterval w); split; now left.
  - destruct (onScreen Game w); [|discriminate]. injection Hs as <-.
    unfold abandonGame, clearCountdown.
    destruct (timerInterval w); split; now left.
  - destruct (onScreen Game w); [|discriminate]. injection Hs as <-. split; now left.
  - destruct (onScreen Game w); [|discriminate]. injection Hs as <-.
    unfold handleAnswer. destruct (parseInt (userInput w)); [|split; now left].
    destruct (_ =? _); split; now left.
  - destruct (_ || _); [|discriminate]. injection Hs as <-. split; now left.
  - destruct (onScreen Menu w); [|discriminate]. injection Hs as <-. split; now left.
Qed.

(** At all times some operator flag is set. *)
Lemma reachable_hasOperator w : reachable w -> hasOperator (config w).
Proof.
  apply (reachable_invariant (fun w => hasOperator (config w))).
  - intros. left. reflexivity.
  - intros e w0 w1 Hw0 Hs.
    destruct (step_keeps e w0 w1 Hs) as [[-> | [key ->]] _];
      [exact Hw0 | now apply toggleConfig_hasOperator].
Qed.

(** At all times the stored list holds at most 50 records. *)
Lemma reachable_pastGames_capped w :
  reachable w -> (List.length (pastGames w) <= 50)%nat.
Proof.
  apply (reachable_invariant (fun w => (List.length (pastGames w) <= 50)%nat)).
  - intros. simpl. lia.
  - intros e w0 w1 Hw0 Hs.
    destruct (step_keeps e w0 w1 Hs) as [_ [-> | [r ->]]];
      [exact Hw0 | apply firstn_le_length].
Qed.

End Reachability.

(** ** Theorems: the claims about the session *)

(** C5. From a configuration with an operator flag set, [toggleConfig]
    always gives a configuration with an operator flag set; toggling the one
    remaining operator flag changes nothing; toggling a modifier flag always
    flips it and leaves every other flag as it was.  Hence the configuration
    of every reachable world has an operator flag set. *)
Theorem toggleConfig_keeps_operator (cfg : Config) (key : ConfigKey)
    (Hinv : hasOperator cfg) :
  hasOperator (toggleConfig cfg key) /\
  (isOperatorKey key -> activeOps cfg = 1%nat -> getFlag cfg key = true ->
     toggleConfig cfg key = cfg) /\
  (isModifierKey key ->
     getFlag (toggleConfig cfg key) key = negb (getFlag cfg key) /\
     forall k, k <> key -> getFlag (toggleConfig cfg key) k = getFlag cfg k) /\
  (forall w, reachable w -> hasOperator (config w)).
Proof.
  split; [now apply toggleConfig_hasOperator|]. split; [|split].
  - intros Hop Hone Hset. unfold toggleConfig.
    destruct Hop as [-> | [-> | [-> | ->]]]; simpl;
      rewrite Hone; simpl in *; rewrite Hset; reflexivity.
  - intros [-> | ->]; (split; [destruct cfg; reflexivity|]);
      intros k Hk; destruct cfg, k; simpl; congruence.
  - apply reachable_hasOperator.
Qed.

Lemma toggleConfig_keeps_operator_witness :
  let c := mkConfig false false true false false false in
  hasOperator c /\ toggleConfig c Kmul = c /\
  negatives (toggleConfig c Knegatives) = true.
Proof.
  intros c.
  assert (Hc : hasOperator c) by (right; right; left; reflexivity).
  split; [exact Hc|]. split.
  - apply (toggleConfig_keeps_operator c Kmul Hc);
      [right; right; left; reflexivity | reflexivity | reflexivity].
  - apply (proj1 (proj1 (proj2 (proj2 (toggleConfig_keeps_operator c Knegatives Hc)))
                    (or_introl eq_refl))).
Defined.

Lemma demoAfter_reachable es :
  run es demoWorld <> None -> reachable (demoAfter es).
Proof.
  intros H. exists 1000000, (rngOf [0; 1 # 2; 1 # 3; 0; 0; 0; 2 # 3; 1 # 4; 1 # 4]%Q),
    true, es.
  unfold demoAfter. fold demoWorld.
  destruct (run es demoWorld); [reflexivity | contradiction].
Qed.

(** C3, as stated, fails: in the first round of [demoWorld] the answer 12 is
    submitted twice in a row, with no timer firing in between; the second
    submission appends a second entry and raises the score again. *)
Lemma double_submission_counterexample :
  ~ (forall w w1 w2, reachable w ->
       step SubmitAnswer w = Some w1 ->
       sessionHistory w1 <> sessionHistory w ->
       step SubmitAnswer w1 = Some w2 ->
       sessionHistory w2 = sessionHistory w1 /\ score w2 = score w1).
Proof.
  intros H.
  specialize (H (demoAfter [Start; Elapse 50; Input "12"])
                (demoAfter [Start; Elapse 50; Input "12"; SubmitAnswer])
                (demoAfter [Start; Elapse 50; Input "12"; SubmitAnswer;
                            SubmitAnswer])).
  destruct H as [_ H].
  - apply demoAfter_reachable. vm_compute. discriminate.
  - vm_compute. reflexivity.
  - vm_compute. discriminate.
  - vm_compute. reflexivity.
  - vm_compute in H. discriminate H.
Qed.

(** C3, amended.  [handleAnswer] has no guard: on the game screen a second
    submission of an input that parses, made while the callback of the first
    is still pending and the Problem is still the same, is scored like the
    first one.  It appends a second history entry for that Problem, and the
    score goes up a second time when the value is the answer. *)
Theorem handleAnswer_rescored (w : World) (val : Z)
    (Hscreen : screen w = Game) (Hval : parseInt (userInput w) = Some val) :
  exists w1 w2,
    step SubmitAnswer w = Some w1 /\
    In (feedbackTimer w val) (timers w1) /\
    currentProblem w1 = currentProblem w /\
    step SubmitAnswer w1 = Some w2 /\
    currentProblem w2 = currentProblem w /\
    sessionHistory w2 =
      sessionHistory w ++ [historyEntry w val; historyEntry w val] /\
    score w2 =
      (if val =? answer (currentProblem w) then score w + 2 else score w).
Proof.
  destruct (handleAnswer_parsed w val Hval)
    as (Hh1 & Hs1 & Ht1 & _ & Hp1 & Hu1 & Hsc1 & _).
  assert (Hval1 : parseInt (userInput (handleAnswer w)) = Some val)
    by now rewrite Hu1.
  destruct (handleAnswer_parsed (handleAnswer w) val Hval1)
    as (Hh2 & Hs2 & _ & _ & Hp2 & _).
  exists (handleAnswer w), (handleAnswer (handleAnswer w)).
  assert (Hon : forall v, screen v = Game -> onScreen Game v = true).
  { intros v Hv. unfold onScreen. now rewrite Hv. }
  split; [cbn [step]; now rewrite Hon|].
  split; [rewrite Ht1; apply in_or_app; right; now left|].
  split; [exact Hp1|].
  split; [cbn [step]; rewrite Hon; [reflexivity | congruence]|].
  split; [congruence|]. split.
  - rewrite Hh2, Hh1, <- app_assoc. unfold historyEntry. now rewrite Hp1.
  - rewrite Hs2, Hs1, Hp1. destruct (val =? answer (currentProblem w)); lia.
Qed.

Lemma handleAnswer_rescored_witness :
  let w := demoAfter [Start; Elapse 50; Input "12"] in
  exists w1 w2,
    step SubmitAnswer w = Some w1 /\ step SubmitAnswer w1 = Some w2 /\
    currentProblem w2 = mkProblem "7 + 5" 12 /\ score w2 = 2.
Proof.
  intros w.
  assert (Hscreen : screen w = Game) by reflexivity.
  assert (Hval : parseInt (userInput w) = Some 12) by reflexivity.
  destruct (handleAnswer_rescored w 12 Hscreen Hval)
    as (w1 & w2 & H1 & _ & _ & H2 & Hp & _ & Hs).
  exists w1, w2. repeat split; assumption.
Defined.

(** C4, as stated, fails: a wrong answer is submitted in the first round of
    [demoWorld], the round is abandoned and a new one is started; the callback
    the wrong answer left behind, registered before the round was abandoned,
    then fires in the new round and replaces its Problem. *)
Lemma stale_callback_counterexample :
  ~ (forall w w1 es w2 t w3, reachable w ->
       step Abandon w = Some w1 ->
       run es w1 = Some w2 ->
       earliest (timers w2) = Some t ->
       (handle t < nextHandle w1)%nat ->
       step TimerFires w2 = Some w3 ->
       currentProblem w3 = currentProblem w2).
Proof.
  intros H.
  set (round1 := [Start; Elapse 50; Input "0"; SubmitAnswer]).
  set (round2 := [Start; TimerFires; TimerFires; Input "3"]).
  specialize (H (demoAfter round1) (demoAfter (round1 ++ [Abandon])) round2
                (demoAfter (round1 ++ [Abandon] ++ round2))
                (mkTimer 3 1000450 None ShakeThenNext)
                (demoAfter (round1 ++ [Abandon] ++ round2 ++ [TimerFires]))).
  assert (Hneq : currentProblem
                   (demoAfter (round1 ++ [Abandon] ++ round2 ++ [TimerFires])) <>
                 currentProblem (demoAfter (round1 ++ [Abandon] ++ round2))).
  { vm_compute. discriminate. }
  apply Hneq, H.
  - apply demoAfter_reachable. vm_compute. discriminate.
  - vm_compute. reflexivity.
  - vm_compute. reflexivity.
  - vm_compute. reflexivity.
  - vm_compute. lia.
  - vm_compute. reflexivity.
Qed.

(** C4, amended.  In a reachable world, abandoning or ending the round
    leaves no countdown in the timer table, and leaves every other pending
    entry there, the feedback callbacks included; such a callback, when it
    fires, replaces the current Problem with a newly generated one, on
    whatever screen. *)
Theorem round_end_cancels_countdown_only (w : World) (Hw : reachable w) :
  Forall (fun t => callback t <> Tick) (timers (abandonGame w)) /\
  Forall (fun t => callback t <> Tick) (timers (endGame w)) /\
  (forall t, In t (timers w) -> callback t <> Tick ->
     In t (timers (abandonGame w)) /\ In t (timers (endGame w))) /\
  (forall w',
     currentProblem (runCallback NextProblem w') =
       fst (generate (config w') (rng w')) /\
     currentProblem (runCallback ShakeThenNext w') =
       fst (generate (config w') (rng w'))).
Proof.
  apply reachable_timersConsistent in Hw.
  destruct (endGame_fields w) as (_ & Hte & _).
  assert (Hta : timers (abandonGame w) = timers (clearCountdown w)) by reflexivity.
  rewrite Hta, Hte.
  split; [now apply clearCountdown_no_tick|].
  split; [now apply clearCountdown_no_tick|]. split.
  - intros t Ht Hcb. split; now apply clearCountdown_keeps.
  - intros w'. split; cbn [runCallback].
    + apply generateProblem_problem.
    + apply (proj1 (generateProblem_problem (with_shaking false w'))).
Qed.

Lemma round_end_cancels_countdown_only_witness :
  let w := demoAfter [Start; Elapse 50; Input "0"; SubmitAnswer] in
  let t := mkTimer 3 1000450 None ShakeThenNext in
  In t (timers (abandonGame w)) /\ In t (timers (endGame w)).
Proof.
  intros w t.
  assert (Hw : reachable w).
  { apply demoAfter_reachable. vm_compute. discriminate. }
  apply (proj1 (proj2 (proj2 (round_end_cancels_countdown_only w Hw)))).
  - vm_compute. auto.
  - discriminate.
Defined.

(** C8. [endGame] puts the new record in front of the stored list and keeps
    the first 50: the list it leaves has at most 50 entries, starts with the
    new record, goes on with the first 49 of the old list, and is what is
    written to the storage in a browser.  The record carries the clock, the
    score, the accuracy and the configuration.  The countdown callback calls
    [endGame] exactly when the decremented [timeLeft] is not positive, and in
    every reachable world the list holds at most 50 records. *)
Theorem endGame_caps_history (w : World) :
  let w' := endGame w in
  pastGames w' = firstn 50 (newRecord w :: pastGames w) /\
  (List.length (pastGames w') <= 50)%nat /\
  hd_error (pastGames w') = Some (newRecord w) /\
  tl (pastGames w') = firstn 49 (pastGames w) /\
  (browser w = true -> saved w' = Some (pastGames w')) /\
  newRecord w =
    GameRecord.mk (clock w) (clock w) (score w) (accuracyOf (sessionHistory w))
      (config w) /\
  (timeLeft w <= 1 ->
     runCallback Tick w = endGame (with_timeLeft (timeLeft w - 1) w) /\
     pastGames (runCallback Tick w) = firstn 50 (newRecord w :: pastGames w)) /\
  (1 < timeLeft w -> pastGames (runCallback Tick w) = pastGames w) /\
  (reachable w -> (List.length (pastGames w) <= 50)%nat).
Proof.
  intros w'. destruct (endGame_fields w) as (Hp & _ & _ & _ & _ & _ & Hs & _).
  fold w' in Hp, Hs.
  split; [exact Hp|]. split; [rewrite Hp; apply firstn_le_length|].
  split; [now rewrite Hp|]. split; [now rewrite Hp|].
  split; [intros Hb; now rewrite Hs, Hb, Hp|].
  split; [reflexivity|]. split.
  - intros Ht. cbn [runCallback timeLeft with_timeLeft].
    destruct (Z.leb_spec (timeLeft w - 1) 0); [|lia].
    split; [reflexivity|].
    now destruct (endGame_fields (with_timeLeft (timeLeft w - 1) w)) as (-> & _).
  - split; [|apply reachable_pastGames_capped].
    intros Ht. cbn [runCallback timeLeft with_timeLeft].
    destruct (Z.leb_spec (timeLeft w - 1) 0); [lia | reflexivity].
Qed.

Lemma endGame_caps_history_witness :
  let w := with_timeLeft 1 (demoAfter [Start; Elapse 50; Input "12"; SubmitAnswer]) in
  pastGames (runCallback Tick w) =
    [GameRecord.mk 1000050 1000050 1 100 initialConfig] /\
  saved (endGame w) = Some (pastGames (endGame w)).
Proof.
  intros w. split.
  - refine (eq_trans
      (proj2 (proj1 (proj2 (proj2 (proj2 (proj2 (proj2 (proj2
         (endGame_caps_history w))))))) _)) _).
    + vm_compute. discriminate.
    + vm_compute. reflexivity.
  - apply (proj1 (proj2 (proj2 (proj2 (proj2 (endGame_caps_history w)))))).
    reflexivity.
Defined.

(** C10. The input [12abc] is not empty and is not an integer literal, yet
    [parseInt] reads its prefix 12, so [handleAnswer] records an attempt
    with the value 12 and raises the score when 12 is the answer; the same
    holds of [1-2], read as 1.  [handleAnswer] leaves the component unchanged
    exactly for the inputs on which [parseInt] gives [NaN]. *)
Theorem handleAnswer_scores_integer_prefix :
  "12abc" <> EmptyString /\ readLiteral "12abc" = None /\
  parseInt "12abc" = Some 12 /\ parseInt "1-2" = Some 1 /\
  (forall w, userInput w = "12abc" ->
     sessionHistory (handleAnswer w) = sessionHistory w ++ [historyEntry w 12] /\
     user (historyEntry w 12) = 12 /\
     score (handleAnswer w) =
       (if 12 =? answer (currentProblem w) then score w + 1 else score w)) /\
  (forall w, handleAnswer w = w <-> parseInt (userInput w) = None).
Proof.
  split; [discriminate|]. split; [reflexivity|].
  split; [reflexivity|]. split; [reflexivity|]. split.
  - intros w Hw.
    assert (Hval : parseInt (userInput w) = Some 12) by now rewrite Hw.
    destruct (handleAnswer_parsed w 12 Hval) as (Hh & Hs & _).
    now repeat split.
  - apply handleAnswer_noop_iff.
Qed.

Lemma handleAnswer_scores_integer_prefix_witness :
  let w := demoAfter [Start; Elapse 50; Input "12abc"] in
  List.length (sessionHistory (handleAnswer w)) = 1%nat /\
  score (handleAnswer w) = 1.
Proof.
  intros w.
  destruct (proj1 (proj2 (proj2 (proj2 (proj2
              handleAnswer_scores_integer_prefix)))) w eq_refl)
    as (Hh & _ & Hs).
  split; [now rewrite Hh | rewrite Hs; reflexivity].
Defined.

(** C7, as stated, fails: a stored text that is not JSON makes [JSON.parse]
    throw, and the exception leaves the callback of [onMount]. *)
Lemma onMount_corrupt_counterexample :
  ~ (forall stored, exists v, onMount true stored noHistory = Normal v).
Proof.
  intros H. destruct (H (Some "{")) as [v Hv]. vm_compute in Hv. discriminate Hv.
Qed.

(** C7, amended.  With nothing stored, or with the empty string stored, the
    history stays the empty list and there is no error.  A stored text that
    does not parse makes [JSON.parse] throw a [SyntaxError], which nothing
    catches: it propagates and [pastGames] is not assigned.  A stored text
    that parses becomes the history; outside a browser nothing is read. *)
Theorem onMount_outcomes :
  (forall inBrowser, onMount inBrowser None noHistory = Normal noHistory) /\
  onMount true (Some EmptyString) noHistory = Normal noHistory /\
  (forall text past, text <> EmptyString -> JSON_parse text = None ->
     onMount true (Some text) past = Throw "SyntaxError") /\
  (forall text past v, text <> EmptyString -> JSON_parse text = Some v ->
     onMount true (Some text) past = Normal v) /\
  (forall stored past, onMount false stored past = Normal past) /\
  JSON_parse "{" = None /\ JSON_parse "[]" = Some noHistory.
Proof.
  split; [now intros []|]. split; [reflexivity|].
  assert (Hne : forall text, text <> EmptyString -> (text =? EmptyString)%string = false).
  { intros text Ht. now apply String.eqb_neq. }
  split; [|split; [|split; [|split]]].
  - intros text past Ht Hp. unfold onMount. now rewrite (Hne text Ht), Hp.
  - intros text past v Ht Hp. unfold onMount. now rewrite (Hne text Ht), Hp.
  - reflexivity.
  - reflexivity.
  - reflexivity.
Qed.

Lemma onMount_outcomes_witness :
  onMount true (Some "{") noHistory = Throw "SyntaxError" /\
  onMount true (Some "[]") noHistory = Normal noHistory.
Proof.
  split.
  - apply (proj1 (proj2 (proj2 onMount_outcomes))); [discriminate | reflexivity].
  - apply (proj1 (proj2 (proj2 (proj2 onMount_outcomes))));
      [discriminate | reflexivity].
Defined.

(** C9, as stated, fails: for 23 correct answers out of 40 the quotient and
    the product round, as doubles, to a value just below 57.5, so the
    accuracy is 57, while the exact percentage 57.5 rounds to 58. *)
Lemma accuracy_rounding_counterexample :
  ~ (forall h, accuracyOf h = specAccuracy h).
Proof.
  intros H. specialize (H (historyOf 23 17)). vm_compute in H. discriminate H.
Qed.

(** C9, amended.  The accuracy is an integer between 0 and 100, and 0 for an
    empty history.  For a history that is not empty it is [Math.round] of the
    double nearest to the product by 100 of the double nearest to the
    quotient of the two counts.  For up to [2 ^ 32] entries, the bound on the
    length of an array, that is the exact percentage rounded to the nearest
    integer, save that an exact tie may go down instead of up: 23 correct
    answers out of 40 give 57, where 57.5 rounds to 58. *)
Theorem accuracyOf_bounds (h : list HistoryItem) :
  let c := Z.of_nat (correctCount h) in
  let t := Z.of_nat (List.length h) in
  0 <= accuracyOf h <= 100 /\
  accuracyOf [] = 0 /\
  (h <> [] ->
     accuracyOf h =
       Math_round (round64 (round64 (inject_Z c / inject_Z t) * inject_Z 100))) /\
  (h <> [] -> t <= 2 ^ 32 ->
     specAccuracy h - 1 <= accuracyOf h <= specAccuracy h /\
     ((200 * c + t) mod (2 * t) <> 0 -> accuracyOf h = specAccuracy h)) /\
  (accuracyOf (historyOf 23 17) = 57 /\ specAccuracy (historyOf 23 17) = 58) /\
  (forall w, accuracy w = accuracyOf (sessionHistory w) /\
             GameRecord.accuracy (newRecord w) = accuracyOf (sessionHistory w)).
Proof.
  intros c t.
  split; [apply accuracyOf_range|]. split; [reflexivity|]. split; [|split].
  - intros Hne. unfold accuracyOf. fold c t.
    destruct (Z.ltb_spec 0 t) as [_|Hlen]; [reflexivity|].
    unfold t in Hlen. destruct h; [contradiction | simpl in Hlen; lia].
  - intros Hne Hlen. now apply accuracyOf_vs_exact.
  - split; [split; vm_compute; reflexivity|]. intros w. split; reflexivity.
Qed.

Lemma accuracyOf_bounds_witness :
  let h := historyOf 2 1 in
  accuracyOf h = 67 /\ 0 <= accuracyOf h <= 100.
Proof.
  intros h. split.
  - destruct (proj1 (proj2 (proj2 (proj2 (accuracyOf_bounds h)))))
      as [[Hlo Hhi] Heq]; [discriminate | vm_compute; discriminate |].
    rewrite Heq; [vm_compute; reflexivity | vm_compute; discriminate].
  - apply (accuracyOf_bounds h).
Defined.

(** ** Theorems: leaderboards *)

Section StableSort.

Context {A : Type} (cmp : A -> A -> Z).

(** What [sortBy] needs from a comparison function. *)
Hypothesis cmp_total : forall x y, 0 < cmp x y -> cmp y x <= 0.
Hypothesis cmp_trans : forall x y z, cmp x y <= 0 -> cmp y z <= 0 -> cmp x z <= 0.

Let le (x y : A) : Prop := cmp x y <= 0.

Lemma insertBy_perm x l : Permutation (insertBy cmp x l) (x :: l).
Proof.
  induction l as [|y l IH]; simpl; [reflexivity|].
  destruct (cmp x y <=? 0); [reflexivity|].
  rewrite IH. apply perm_swap.
Qed.

Lemma sortBy_perm l : Permutation (sortBy cmp l) l.
Proof.
  induction l as [|x l IH]; simpl; [reflexivity|].
  rewrite insertBy_perm. now constructor.
Qed.

Lemma insertBy_sorted x l :
  StronglySorted le l -> StronglySorted le (insertBy cmp x l).
Proof.
  induction 1 as [|y l Hs IH Hy]; simpl.
  - repeat constructor.
  - destruct (Z.leb_spec (cmp x y) 0) as [Hxy|Hxy].
    + constructor; [now constructor|].
      constructor; [exact Hxy|].
      eapply Forall_impl; [|exact Hy]. intros z Hz. now apply (cmp_trans x y z).
    + constructor; [exact IH|].
      eapply Permutation_Forall; [symmetry; apply insertBy_perm|].
      constructor; [now apply cmp_total | exact Hy].
Qed.

Lemma sortBy_sorted l : StronglySorted le (sortBy cmp l).
Proof.
  induction l as [|x l IH]; simpl; [constructor | now apply insertBy_sorted].
Qed.

End StableSort.

Section Ranking.

Lemma byScoreThenDate_le a b : byScoreThenDate a b <= 0 <-> ranksBefore a b.
Proof.
  unfold byScoreThenDate, ranksBefore.
  destruct (Z.eqb_spec (GameRecord.score b - GameRecord.score a) 0); lia.
Qed.

Lemma byScoreThenDate_total a b :
  0 < byScoreThenDate a b -> byScoreThenDate b a <= 0.
Proof.
  unfold byScoreThenDate.
  destruct (Z.eqb_spec (GameRecord.score b - GameRecord.score a) 0),
           (Z.eqb_spec (GameRecord.score a - GameRecord.score b) 0); lia.
Qed.

Lemma byScoreThenDate_trans a b c :
  byScoreThenDate a b <= 0 -> byScoreThenDate b c <= 0 ->
  byScoreThenDate a c <= 0.
Proof.
  rewrite !byScoreThenDate_le. unfold ranksBefore. lia.
Qed.

Lemma ranked_sorted l : StronglySorted ranksBefore (sortBy byScoreThenDate l).
Proof.
  pose proof (sortBy_sorted byScoreThenDate byScoreThenDate_total
                byScoreThenDate_trans l) as H.
  induction H as [|x l' Hs IH Hx]; constructor; [exact IH|].
  eapply Forall_impl; [|exact Hx]. intros y. apply byScoreThenDate_le.
Qed.

Lemma StronglySorted_firstn {A} (R : A -> A -> Prop) n l :
  StronglySorted R l -> StronglySorted R (firstn n l).
Proof.
  intros H. revert n. induction H as [|x l Hs IH Hx]; intros [|n]; simpl;
    try constructor; [apply IH|].
  apply Forall_forall. intros y Hy.
  rewrite Forall_forall in Hx. apply Hx.
  rewrite <- (firstn_skipn n l). apply in_or_app. now left.
Qed.

Lemma boards_sorted l :
  StronglySorted (fun a b => topDate b <= topDate a) (sortBy byTopDate l).
Proof.
  assert (H : StronglySorted (fun a b => byTopDate a b <= 0) (sortBy byTopDate l)).
  { apply sortBy_sorted; unfold byTopDate; intros; lia. }
  induction H as [|x l' Hs IH Hx]; constructor; [exact IH|].
  eapply Forall_impl; [|exact Hx]. unfold byTopDate. intros y Hy. lia.
Qed.

End Ranking.

Section Grouping.

Lemma addGame_keys k g m :
  map Board.key (addGame k g m) =
  if existsb (String.eqb k) (map Board.key m) then map Board.key m
  else map Board.key m ++ [k].
Proof.
  induction m as [|b m IH]; simpl; [reflexivity|].
  rewrite (String.eqb_sym k).
  destruct (Board.key b =? k)%string; simpl; [reflexivity|].
  rewrite IH. now destruct (existsb _ _).
Qed.

Lemma NoDup_snoc {A} (l : list A) x : NoDup l -> ~ In x l -> NoDup (l ++ [x]).
Proof.
  induction 1 as [|y l Hy Hl IH]; simpl; intros Hx.
  - constructor; [intros [] | constructor].
  - constructor.
    + rewrite in_app_iff. intros [H|[H|[]]]; [contradiction|].
      apply Hx. now left.
    + apply IH. intros H. apply Hx. now right.
Qed.

Lemma filter_none {A} (f : A -> bool) l :
  (forall x, In x l -> f x = false) -> filter f l = [].
Proof.
  induction l as [|x l IH]; simpl; intros H; [reflexivity|].
  rewrite (H x) by now left. apply IH. intros y Hy. apply H. now right.
Qed.

Lemma filter_snoc {A} (f : A -> bool) l x :
  filter f (l ++ [x]) = filter f l ++ (if f x then [x] else []).
Proof. rewrite filter_app. reflexivity. Qed.

Lemma entries_other_key g seen m :
  let k := configKey (GameRecord.config g) in
  ~ In k (map Board.key m) ->
  Forall (fun b => Board.entries b = filter (hasKey (Board.key b)) seen /\
                   Board.entries b <> []) m ->
  Forall (fun b => Board.entries b = filter (hasKey (Board.key b)) (seen ++ [g]) /\
                   Board.entries b <> []) m.
Proof.
  intros k Hk Hm. induction Hm as [|b m [Hb Hne] Hm IH]; constructor.
  - split; [|exact Hne]. rewrite filter_snoc, Hb. unfold hasKey at 3. fold k.
    destruct (String.eqb_spec k (Board.key b)) as [E|_];
      [|now rewrite app_nil_r].
    exfalso. apply Hk. left. now symmetry.
  - apply IH. intros Hin. apply Hk. now right.
Qed.

Lemma addGame_entries g seen m :
  let k := configKey (GameRecord.config g) in
  NoDup (map Board.key m) ->
  Forall (fun b => Board.entries b = filter (hasKey (Board.key b)) seen /\
                   Board.entries b <> []) m ->
  (forall g', In g' seen -> hasKey k g' = true -> In k (map Board.key m)) ->
  Forall (fun b => Board.entries b = filter (hasKey (Board.key b)) (seen ++ [g]) /\
                   Board.entries b <> []) (addGame k g m).
Proof.
  intros k Hnd Hm Hseen. induction Hm as [|b m [Hb Hne] Hm IH]; simpl.
  - constructor; [|constructor]. simpl. split; [|discriminate].
    rewrite filter_snoc. unfold hasKey at 2. fold k. rewrite String.eqb_refl.
    replace (filter (hasKey k) seen) with (@nil GameRecord.t); [reflexivity|].
    symmetry. apply filter_none.
    intros g' Hg'. destruct (hasKey k g') eqn:E; [|reflexivity].
    destruct (Hseen g' Hg' E).
  - simpl in Hnd. apply NoDup_cons_iff in Hnd as [Hnotin Hnd].
    destruct (String.eqb_spec (Board.key b) k) as [Ek|Nk].
    + constructor.
      * simpl. split.
        -- rewrite filter_snoc, Hb. unfold hasKey at 3. fold k.
           rewrite Ek, String.eqb_refl. reflexivity.
        -- destruct (Board.entries b); discriminate.
      * apply entries_other_key; [|exact Hm]. fold k. now rewrite <- Ek.
    + constructor.
      * split; [|exact Hne]. rewrite filter_snoc, Hb. unfold hasKey at 3. fold k.
        destruct (String.eqb_spec k (Board.key b)) as [E|_];
          [congruence | now rewrite app_nil_r].
      * apply IH; [exact Hnd|].
        intros g' Hg' Hk. destruct (Hseen g' Hg' Hk) as [E|Hin];
          [contradiction | exact Hin].
Qed.

Lemma addGame_grouped g seen m :
  grouped seen m ->
  grouped (seen ++ [g]) (addGame (configKey (GameRecord.config g)) g m).
Proof.
  intros (Hnd & Hall & Hfiled). set (k := configKey (GameRecord.config g)).
  assert (Hkeys := addGame_keys k g m).
  split; [|split].
  - rewrite Hkeys. destruct (existsb _ _) eqn:E; [exact Hnd|].
    apply NoDup_snoc; [exact Hnd|]. intros Hin.
    assert (existsb (String.eqb k) (map Board.key m) = true).
    { apply existsb_exists. exists k. split; [exact Hin | apply String.eqb_refl]. }
    congruence.
  - apply addGame_entries; [exact Hnd | exact Hall |].
    intros g' Hg' Hk. unfold hasKey in Hk.
    apply String.eqb_eq in Hk. rewrite <- Hk. now apply Hfiled.
  - intros g' Hg'. rewrite Hkeys. apply in_app_or in Hg'.
    assert (Hmem : forall x, In x (map Board.key m) ->
              In x (if existsb (String.eqb k) (map Board.key m)
                    then map Board.key m else map Board.key m ++ [k])).
    { intros x Hx. destruct (existsb _ _); [exact Hx | apply in_or_app; now left]. }
    destruct Hg' as [Hg'|[<-|[]]]; [now apply Hmem, Hfiled|].
    fold k. destruct (existsb _ _) eqn:E.
    + apply existsb_exists in E as (x & Hx & Ex).
      apply String.eqb_eq in Ex. now subst x.
    + apply in_or_app. right. now left.
Qed.

Lemma fold_grouped games : forall seen m,
  grouped seen m ->
  grouped (seen ++ games)
    (fold_left (fun m g => addGame (configKey (GameRecord.config g)) g m) games m).
Proof.
  induction games as [|g games IH]; intros seen m H; simpl.
  - now rewrite app_nil_r.
  - replace (seen ++ g :: games) with ((seen ++ [g]) ++ games)
      by (now rewrite <- app_assoc).
    apply IH. now apply addGame_grouped.
Qed.

Lemma groupGames_grouped games : grouped games (groupGames games).
Proof.
  apply (fold_grouped games [] []). repeat split; [constructor | constructor |].
  intros g [].
Qed.

End Grouping.

Lemma Permutation_three {A} (a b c : A) l :
  Permutation l [a; b; c] ->
  l = [a; b; c] \/ l = [a; c; b] \/ l = [b; a; c] \/
  l = [b; c; a] \/ l = [c; a; b] \/ l = [c; b; a].
Proof.
  intros H.
  destruct (Permutation_vs_cons_inv H) as (l1 & l2 & ->).
  apply (Permutation_app_inv l1 l2 [] [b; c] a) in H. simpl in H.
  symmetry in H. apply Permutation_length_2_inv in H.
  destruct H as [H|H]; destruct l1 as [|x [|y [|z l1]]]; simpl in H;
    inversion H; subst; simpl; auto 10.
Qed.

Lemma rankEntries_spec games b :
  In b (map rankEntries (groupGames games)) ->
  exists ranked top,
    Permutation ranked (filter (hasKey (Board.key b)) games) /\
    StronglySorted ranksBefore ranked /\
    Board.entries b = firstn 10 ranked /\
    hd_error (Board.entries b) = Some top /\
    topDate b = GameRecord.date top.
Proof.
  intros Hin. apply in_map_iff in Hin as (b0 & <- & Hb0).
  destruct (groupGames_grouped games) as (_ & Hall & _).
  rewrite Forall_forall in Hall. destruct (Hall b0 Hb0) as [Hent Hne].
  pose proof (sortBy_perm byScoreThenDate (Board.entries b0)) as Hperm.
  pose proof (ranked_sorted (Board.entries b0)) as Hsorted.
  unfold topDate. cbn [rankEntries Board.key Board.entries].
  destruct (sortBy byScoreThenDate (Board.entries b0)) as [|top rest].
  { apply Permutation_nil in Hperm. congruence. }
  exists (top :: rest), top.
  split; [now rewrite <- Hent|]. now repeat split.
Qed.

(** C2. Every leaderboard holds the first ten of the ranking of all the
    games that have its key, the ranking going by score from the highest and,
    at equal scores, by timestamp from the latest; the leaderboards come in
    the order of the timestamp of their first entry, latest first; each key
    has one leaderboard and every game's key has one.  Three games of one
    configuration with scores 10, 20 and 20 at times [t1 < t2 < t3] are
    ranked 20 at [t3], 20 at [t2], 10 at [t1], in whatever order they are
    stored. *)
Theorem getLeaderboards_ranking :
  (forall games,
     let boards := getLeaderboards games in
     Forall (fun b =>
       exists ranked top,
         Permutation ranked (filter (hasKey (Board.key b)) games) /\
         StronglySorted ranksBefore ranked /\
         Board.entries b = firstn 10 ranked /\
         hd_error (Board.entries b) = Some top /\
         topDate b = GameRecord.date top) boards /\
     Forall (fun b => (List.length (Board.entries b) <= 10)%nat) boards /\
     StronglySorted (fun a b => topDate b <= topDate a) boards /\
     NoDup (map Board.key boards) /\
     (forall g, In g games ->
        In (configKey (GameRecord.config g)) (map Board.key boards))) /\
  (forall c t1 t2 t3 i1 i2 i3 a1 a2 a3 games,
     t1 < t2 -> t2 < t3 ->
     let r1 := GameRecord.mk i1 t1 10 a1 c in
     let r2 := GameRecord.mk i2 t2 20 a2 c in
     let r3 := GameRecord.mk i3 t3 20 a3 c in
     Permutation games [r1; r2; r3] ->
     getLeaderboards games = [Board.mk (configKey c) c [r3; r2; r1]]).
Proof.
  split.
  - intros games boards.
    assert (Hperm : Permutation boards (map rankEntries (groupGames games)))
      by apply sortBy_perm.
    destruct (groupGames_grouped games) as (Hnd & Hall & Hfiled).
    assert (Hkeys : map Board.key (map rankEntries (groupGames games)) =
                    map Board.key (groupGames games)).
    { rewrite map_map. reflexivity. }
    repeat split.
    + apply Forall_forall. intros b Hb. apply rankEntries_spec.
      eapply Permutation_in; eassumption.
    + apply Forall_forall. intros b Hb.
      destruct (rankEntries_spec games b) as (ranked & _ & _ & _ & -> & _).
      { eapply Permutation_in; eassumption. }
      apply firstn_le_length.
    + apply boards_sorted.
    + eapply Permutation_NoDup; [symmetry; apply Permutation_map; exact Hperm|].
      now rewrite Hkeys.
    + intros g Hg. eapply Permutation_in;
        [symmetry; apply Permutation_map; exact Hperm|].
      rewrite Hkeys. now apply Hfiled.
  - intros c t1 t2 t3 i1 i2 i3 a1 a2 a3 games H12 H23 r1 r2 r3 Hperm.
    apply Permutation_three in Hperm.
    assert (Hk : (configKey c =? configKey c)%string = true)
      by apply String.eqb_refl.
    assert (F12 : (byScoreThenDate r1 r2 <=? 0) = false) by reflexivity.
    assert (F13 : (byScoreThenDate r1 r3 <=? 0) = false) by reflexivity.
    assert (F21 : (byScoreThenDate r2 r1 <=? 0) = true) by reflexivity.
    assert (F31 : (byScoreThenDate r3 r1 <=? 0) = true) by reflexivity.
    assert (F23 : (byScoreThenDate r2 r3 <=? 0) = false).
    { unfold byScoreThenDate. cbn. apply Z.leb_gt. lia. }
    assert (F32 : (byScoreThenDate r3 r2 <=? 0) = true).
    { unfold byScoreThenDate. cbn. apply Z.leb_le. lia. }
    assert (C1 : GameRecord.config r1 = c) by reflexivity.
    assert (C2 : GameRecord.config r2 = c) by reflexivity.
    assert (C3 : GameRecord.config r3 = c) by reflexivity.
    clearbody r1 r2 r3.
    destruct Hperm as [-> | [-> | [-> | [-> | [-> | ->]]]]];
      unfold getLeaderboards, groupGames;
      repeat (progress (cbn [fold_left addGame Board.key
                             Board.config Board.entries app];
                        rewrite ?C1, ?C2, ?C3, ?Hk));
      cbn [map sortBy insertBy]; unfold rankEntries;
      cbn [Board.config Board.entries Board.key];
      repeat (progress (cbn [sortBy insertBy];
                        rewrite ?F12, ?F13, ?F21, ?F31, ?F23, ?F32));
      reflexivity.
Qed.

Lemma getLeaderboards_ranking_witness :
  let r1 := GameRecord.mk 1 100 10 50 initialConfig in
  let r2 := GameRecord.mk 2 200 20 80 initialConfig in
  let r3 := GameRecord.mk 3 300 20 90 initialConfig in
  getLeaderboards [r1; r2; r3] =
    [Board.mk (configKey initialConfig) initialConfig [r3; r2; r1]].
Proof.
  intros r1 r2 r3.
  apply (proj2 getLeaderboards_ranking initialConfig 100 200 300 1 2 3 50 80 90);
    [lia | lia | apply Permutation_refl].
Defined.

(** ** Theorems: the round as a whole *)

Section Frames.

(** What the handlers do to the fields the invariants speak of. *)
Lemma generateProblem_frame w :
  let w' := generateProblem w in
  screen w' = screen w /\ score w' = score w /\ timeLeft w' = timeLeft w /\
  timerInterval w' = timerInterval w /\ sessionHistory w' = sessionHistory w /\
  pastGames w' = pastGames w /\ timers w' = timers w /\
  nextHandle w' = nextHandle w /\ clock w' = clock w /\ saved w' = saved w /\
  browser w' = browser w /\ config w' = config w.
Proof.
  unfold generateProblem. destruct (generate (config w) (rng w)).
  repeat split; reflexivity.
Qed.

Lemma clearCountdown_frame w :
  let w' := clearCountdown w in
  screen w' = screen w /\ score w' = score w /\ timeLeft w' = timeLeft w /\
  timerInterval w' = timerInterval w /\ sessionHistory w' = sessionHistory w /\
  pastGames w' = pastGames w /\ nextHandle w' = nextHandle w /\
  clock w' = clock w /\ saved w' = saved w /\ browser w' = browser w /\
  config w' = config w.
Proof.
  unfold clearCountdown.
  destruct (timerInterval w) eqn:E; repeat split; cbn; auto.
Qed.

Lemma startGame_frame w :
  let w' := startGame w in
  screen w' = Game /\ score w' = 0 /\ timeLeft w' = 60 /\
  sessionHistory w' = [] /\ pastGames w' = pastGames w /\
  clock w' = clock w /\ saved w' = saved w /\ browser w' = browser w /\
  config w' = config w /\
  currentProblem w' = fst (generate (config w) (rng w)) /\
  userInput w' = EmptyString.
Proof.
  unfold startGame, generateProblem. cbn.
  destruct (generate (config w) (rng w)) as [p g]. unfold clearCountdown. cbn.
  destruct (timerInterval w); repeat split; reflexivity.
Qed.

Lemma abandonGame_frame w :
  let w' := abandonGame w in
  screen w' = Menu /\ score w' = score w /\ timeLeft w' = timeLeft w /\
  timerInterval w' = timerInterval w /\ sessionHistory w' = sessionHistory w /\
  pastGames w' = pastGames w /\ timers w' = timers (clearCountdown w) /\
  nextHandle w' = nextHandle w /\ clock w' = clock w /\ saved w' = saved w /\
  browser w' = browser w /\ config w' = config w.
Proof.
  unfold abandonGame, clearCountdown.
  destruct (timerInterval w) eqn:E; repeat split; cbn; auto.
Qed.

Lemma handleAnswer_frame w :
  let w' := handleAnswer w in
  screen w' = screen w /\ timeLeft w' = timeLeft w /\
  timerInterval w' = timerInterval w /\ pastGames w' = pastGames w /\
  clock w' = clock w /\ saved w' = saved w /\ browser w' = browser w /\
  config w' = config w /\ currentProblem w' = currentProblem w /\
  userInput w' = userInput w.
Proof.
  unfold handleAnswer. destruct (parseInt (userInput w)); [|repeat split; reflexivity].
  destruct (_ =? _); repeat split; reflexivity.
Qed.

Lemma endGame_frame w :
  let w' := endGame w in
  score w' = score w /\ timeLeft w' = timeLeft w /\
  sessionHistory w' = sessionHistory w /\ clock w' = clock w /\
  browser w' = browser w.
Proof.
  unfold endGame, clearCountdown.
  destruct (timerInterval w), (browser w) eqn:E; cbn; rewrite ?E; cbn;
    repeat split; auto.
Qed.

End Frames.

Section SessionInvariant.

Lemma reachable_step e w w' :
  reachable w -> step e w = Some w' -> reachable w'.
Proof.
  intros (now & g & b & es & Hrun) Hs. exists now, g, b, (es ++ [e]).
  revert Hrun. generalize (initialWorld now g b).
  induction es as [|e0 es IH]; intros w0 Hrun; simpl in *.
  - injection Hrun as ->. now rewrite Hs.
  - destruct (step e0 w0); [now apply IH | discriminate].
Qed.

Lemma filter_filter_keep {A} (p q : A -> bool) l :
  (forall x, In x l -> p x = true -> q x = true) ->
  filter p (filter q l) = filter p l.
Proof.
  induction l as [|x l IH]; intros H; simpl; [reflexivity|].
  destruct (q x) eqn:Q; simpl.
  - destruct (p x); rewrite IH; auto; intros; apply H; auto; now right.
  - destruct (p x) eqn:P.
    + rewrite (H x) in Q; [discriminate | now left | exact P].
    + apply IH. intros y Hy. apply H. now right.
Qed.

Lemma filter_map_same {A} (p : A -> bool) (f : A -> A) l :
  (forall x, In x l -> p (f x) = p x) ->
  List.length (filter p (map f l)) = List.length (filter p l).
Proof.
  induction l as [|x l IH]; intros H; simpl; [reflexivity|].
  rewrite (H x) by now left.
  destruct (p x); simpl; rewrite IH; auto; intros; apply H; now right.
Qed.

Lemma isTick_iff t : isTick t = true <-> callback t = Tick.
Proof. unfold isTick. destruct (callback t); split; congruence. Qed.

Lemma clearCountdown_countdowns w :
  timersConsistent w -> countdowns (clearCountdown w) = [].
Proof.
  intros Hw. pose proof (clearCountdown_no_tick w Hw) as Hno.
  unfold countdowns. induction Hno as [|t ts Ht _ IH]; simpl; [reflexivity|].
  destruct (isTick t) eqn:E; [|exact IH].
  apply isTick_iff in E. contradiction.
Qed.

Lemma periodsTyped_filter f ts : periodsTyped ts -> periodsTyped (filter f ts).
Proof.
  unfold periodsTyped. rewrite !Forall_forall. intros H t Ht.
  apply filter_In in Ht as [Ht _]. now apply H.
Qed.

(** The table after the entry [t] has fired and has been armed again or
    dropped: the countdowns are as many as before, and none is left only if
    none was there. *)
Lemma rearm_countdowns w t now :
  timersConsistent w -> periodsTyped (timers w) -> In t (timers w) ->
  periodsTyped (rearm t now (timers w)) /\
  List.length (filter isTick (rearm t now (timers w))) =
  List.length (filter isTick (timers w)).
Proof.
  intros (H1 & H2 & H3 & H4) Hty Ht.
  pose proof Hty as Hty'. unfold periodsTyped in Hty'. rewrite Forall_forall in Hty'.
  pose proof (Hty' t Ht) as Htt. unfold rearm.
  destruct (isTick t) eqn:Tk.
  - rewrite Htt. apply isTick_iff in Tk. split.
    + unfold periodsTyped. apply Forall_forall. intros t' Ht'.
      apply in_map_iff in Ht' as (t0 & <- & Ht0).
      destruct (handle t0 =? handle t)%nat; [|now apply Hty'].
      unfold isTick. cbn. now rewrite Tk.
    + apply filter_map_same. intros t0 Ht0.
      destruct (Nat.eqb_spec (handle t0) (handle t)) as [E|NE]; [|reflexivity].
      unfold isTick at 1. cbn. rewrite Tk.
      destruct (isTick t0) eqn:T0; [reflexivity|].
      exfalso. apply (H4 t0 Ht0).
      * intros C. apply isTick_iff in C. congruence.
      * rewrite E. now apply H3.
  - rewrite Htt. split; [now apply periodsTyped_filter|].
    f_equal. apply filter_filter_keep. intros t0 Ht0 T0.
    destruct (Nat.eqb_spec (handle t0) (handle t)) as [E|NE]; [|reflexivity].
    exfalso. apply isTick_iff in T0. apply (H4 t Ht).
    + intros C. apply isTick_iff in C. congruence.
    + rewrite <- E. now apply H3.
Qed.

Lemma in_firstn {A} n (l : list A) x : In x (firstn n l) -> In x l.
Proof.
  intros H. rewrite <- (firstn_skipn n l). apply in_or_app. now left.
Qed.

Lemma wellFormedRecord_later now now' r :
  now <= now' -> wellFormedRecord now r -> wellFormedRecord now' r.
Proof. unfold wellFormedRecord. intros Hle (H1 & H2). split; [lia | exact H2]. Qed.

Lemma correctCount_snoc h x :
  Z.of_nat (correctCount (h ++ [x])) =
  Z.of_nat (correctCount h) + (if isCorrect x then 1 else 0).
Proof.
  unfold correctCount. rewrite filter_app, length_app. simpl.
  destruct (isCorrect x); simpl; lia.
Qed.

(** The invariant only reads some fields, and the clock only as a bound. *)
Lemma sessionInvariant_ext w w' :
  periodsTyped (timers w') ->
  List.length (countdowns w') = List.length (countdowns w) ->
  (screen w' = Game <-> screen w = Game) ->
  timeLeft w' = timeLeft w -> score w' = score w ->
  sessionHistory w' = sessionHistory w -> pastGames w' = pastGames w ->
  saved w' = saved w -> browser w' = browser w -> clock w <= clock w' ->
  sessionInvariant w -> sessionInvariant w'.
Proof.
  intros Hty Hlen Hscr Htl Hsc Hh Hpg Hsv Hbr Hck
    (_ & Hcnt & Hgame & Hrange & Hpos & Hscore & Hrec & Hsort & Hsaved).
  assert (Hne : countdowns w' <> [] <-> countdowns w <> []).
  { destruct (countdowns w'), (countdowns w); simpl in Hlen;
      try discriminate; split; congruence. }
  unfold sessionInvariant.
  rewrite Hlen, Hscr, Hne, Htl, Hsc, Hh, Hpg, Hsv, Hbr.
  repeat split; try tauto; try lia; auto.
  eapply Forall_impl; [|exact Hrec]. intros r. now apply wellFormedRecord_later.
Qed.

Lemma sessionInvariant_initial now g b : sessionInvariant (initialWorld now g b).
Proof.
  unfold sessionInvariant, periodsTyped, countdowns. cbn.
  repeat split; try constructor; try lia; try discriminate; try congruence.
  destruct b; auto.
Qed.

Lemma sessionInvariant_generateProblem w :
  sessionInvariant w -> sessionInvariant (generateProblem w).
Proof.
  destruct (generateProblem_frame w)
    as (Hs & Hsc & Htl & _ & Hh & Hp & Ht & _ & Hc & Hsv & Hb & _).
  intros H. pose proof H as (Hty & _).
  apply (sessionInvariant_ext w); auto; unfold countdowns;
    rewrite ?Ht, ?Hs, ?Hc; auto; try tauto; try lia.
Qed.

Lemma periodsTyped_clearCountdown w :
  periodsTyped (timers w) -> periodsTyped (timers (clearCountdown w)).
Proof.
  rewrite clearCountdown_timers.
  destruct (timerInterval w); [apply periodsTyped_filter | exact (fun H => H)].
Qed.

Lemma sessionInvariant_startGame w :
  timersConsistent w -> sessionInvariant w -> sessionInvariant (startGame w).
Proof.
  intros Hw (Hty & _ & _ & _ & _ & _ & Hrec & Hsort & Hsaved).
  destruct (startGame_timers w) as (Ht & _).
  destruct (startGame_frame w)
    as (Hs & Hsc & Htl & Hh & Hp & Hc & Hsv & Hb & _).
  pose proof (clearCountdown_countdowns w Hw) as Hno. unfold countdowns in Hno.
  assert (Hcd : countdowns (startGame w) =
                [mkTimer (nextHandle w) (clock w + 1000) (Some 1000) Tick]).
  { unfold countdowns. rewrite Ht, filter_app, Hno. reflexivity. }
  unfold sessionInvariant.
  rewrite Hcd, Hs, Hsc, Htl, Hh, Hp, Hc, Hsv, Hb, Ht.
  repeat split; auto; try lia; try discriminate.
  unfold periodsTyped. apply Forall_app. split.
  - now apply periodsTyped_clearCountdown.
  - repeat constructor.
Qed.

Lemma sessionInvariant_abandonGame w :
  timersConsistent w -> sessionInvariant w -> sessionInvariant (abandonGame w).
Proof.
  intros Hw (Hty & _ & _ & Hrange & _ & Hscore & Hrec & Hsort & Hsaved).
  destruct (abandonGame_frame w)
    as (Hs & Hsc & Htl & _ & Hh & Hp & Ht & _ & Hc & Hsv & Hb & _).
  assert (Hcd : countdowns (abandonGame w) = []).
  { unfold countdowns. rewrite Ht. now apply clearCountdown_countdowns. }
  unfold sessionInvariant.
  rewrite Hcd, Hs, Hsc, Htl, Hh, Hp, Hc, Hsv, Hb, Ht.
  repeat split; auto; try lia; try discriminate; try congruence.
  now apply periodsTyped_clearCountdown.
Qed.

Lemma sessionInvariant_handleAnswer w :
  sessionInvariant w -> sessionInvariant (handleAnswer w).
Proof.
  intros Hinv. destruct (parseInt (userInput w)) as [val|] eqn:E;
    [|now rewrite handleAnswer_unparsed].
  destruct (handleAnswer_parsed w val E) as (Hh & Hsc & Ht & _).
  destruct (handleAnswer_frame w)
    as (Hs & Htl & _ & Hp & Hc & Hsv & Hb & _).
  destruct Hinv as (Hty & Hcnt & Hgame & Hrange & Hpos & Hscore & Hrec & Hsort & Hsaved).
  assert (Hfb : isTick (feedbackTimer w val) = false /\
                period (feedbackTimer w val) = None).
  { unfold feedbackTimer. destruct (_ =? _); split; reflexivity. }
  assert (Hcd : countdowns (handleAnswer w) = countdowns w).
  { unfold countdowns. rewrite Ht, filter_app. simpl.
    rewrite (proj1 Hfb). apply app_nil_r. }
  unfold sessionInvariant.
  rewrite Hcd, Hs, Htl, Hp, Hc, Hsv, Hb, Ht, Hh, Hsc.
  repeat split; auto; try tauto; try lia.
  - unfold periodsTyped. apply Forall_app. split; [exact Hty|].
    constructor; [|constructor]. now rewrite (proj1 Hfb).
  - rewrite correctCount_snoc. unfold historyEntry. cbn [isCorrect].
    destruct (_ =? _); lia.
Qed.

(** The countdown expires: [endGame] in a world whose clock is the time of
    the record. *)
Lemma sessionInvariant_endGame w :
  timersConsistent w -> hasOperator (config w) ->
  periodsTyped (timers w) ->
  score w = Z.of_nat (correctCount (sessionHistory w)) ->
  Forall (wellFormedRecord (clock w)) (pastGames w) ->
  StronglySorted (fun a b => GameRecord.date b <= GameRecord.date a) (pastGames w) ->
  (if browser w
   then saved w = Some (pastGames w) \/ (saved w = None /\ pastGames w = [])
   else saved w = None) ->
  timeLeft w = 0 -> sessionInvariant (endGame w).
Proof.
  intros Hw Hop Hty Hscore Hrec Hsort Hsaved Hzero.
  destruct (endGame_fields w) as (Hp & Ht & _ & _ & Hs & _ & Hsv & _).
  destruct (endGame_frame w) as (Hsc & Htl & Hh & Hc & Hb).
  assert (Hcd : countdowns (endGame w) = []).
  { unfold countdowns. rewrite Ht. now apply clearCountdown_countdowns. }
  assert (Hnew : wellFormedRecord (clock w) (newRecord w)).
  { unfold wellFormedRecord, newRecord. cbn.
    pose proof (accuracyOf_range (sessionHistory w)). repeat split; auto; lia. }
  unfold sessionInvariant.
  rewrite Hcd, Hs, Hsc, Htl, Hh, Hp, Hc, Hsv, Hb, Ht, Hzero.
  repeat split; auto; try lia; try discriminate; try congruence.
  - now apply periodsTyped_clearCountdown.
  - apply Forall_forall. intros r Hr. apply in_firstn in Hr.
    destruct Hr as [<-|Hr]; [exact Hnew|].
    rewrite Forall_forall in Hrec. now apply Hrec.
  - apply StronglySorted_firstn. constructor; [exact Hsort|].
    eapply Forall_impl; [|exact Hrec]. intros r (Hd & _). cbn. exact Hd.
  - destruct (browser w); [now left | exact Hsaved].
Qed.

Lemma sessionInvariant_timeLeft w v :
  sessionInvariant w -> 1 <= v <= 60 -> sessionInvariant (with_timeLeft v w).
Proof.
  intros (A1 & A2 & A3 & A4 & A5 & A6 & A7 & A8 & A9) Hv.
  unfold sessionInvariant. cbn [timeLeft with_timeLeft].
  split; [exact A1|]. split; [exact A2|]. split; [exact A3|].
  split; [lia|]. split; [intros _; lia|].
  split; [exact A6|]. split; [exact A7|]. split; [exact A8 | exact A9].
Qed.

Lemma sessionInvariant_step e w w' :
  reachable w -> sessionInvariant w -> step e w = Some w' -> sessionInvariant w'.
Proof.
  intros Hreach Hinv Hs.
  pose proof (reachable_timersConsistent w Hreach) as Hw.
  pose proof (reachable_hasOperator w Hreach) as Hop.
  pose proof Hinv as (Hty & Hcnt & Hgame & Hrange & Hpos & _).
  destruct e; cbn [step] in Hs.
  - destruct (0 <=? ms) eqn:Ems; [|discriminate]. cbn in Hs.
    destruct (forallb _ _); [|discriminate]. injection Hs as <-.
    apply (sessionInvariant_ext w); auto; try tauto; try (cbn; lia).
  - destruct (earliest (timers w)) as [t|] eqn:E; [|discriminate].
    injection Hs as <-. apply earliest_in in E.
    set (now := Z.max (clock w) (due t)).
    set (w1 := with_timers (rearm t now (timers (with_clock now w)))
                 (with_clock now w)).
    destruct (rearm_countdowns w t now Hw Hty E) as [Hty1 Hlen1].
    assert (Hinv1 : sessionInvariant w1).
    { apply (sessionInvariant_ext w); auto; try tauto; try (cbn; lia). }
    assert (Hw1 : timersConsistent w1) by now apply timersConsistent_rearm.
    destruct (callback t) eqn:Cb; cbn [runCallback].
    + assert (Hne : countdowns w <> []).
      { unfold countdowns. intros Hnil.
        assert (Hin : In t (filter isTick (timers w))).
        { apply filter_In. split; [exact E | now apply isTick_iff]. }
        rewrite Hnil in Hin. contradiction. }
      specialize (Hpos Hne).
      match goal with
      | |- sessionInvariant (if ?c then _ else _) => destruct c eqn:Hle
      end; cbn [timeLeft with_timeLeft with_timers with_clock] in Hle.
      * apply Z.leb_le in Hle.
        destruct Hinv1 as (A1 & A2 & A3 & A4 & A5 & A6 & A7 & A8 & A9).
        apply sessionInvariant_endGame;
          [exact Hw1 | exact Hop | exact A1 | exact A6 | exact A7 | exact A8
          | exact A9 | cbn [timeLeft with_timeLeft with_timers with_clock]; lia].
      * apply Z.leb_gt in Hle.
        apply (sessionInvariant_timeLeft w1); [exact Hinv1|].
        cbn [timeLeft with_timeLeft with_timers with_clock]. lia.
    + exact Hinv1.
    + now apply sessionInvariant_generateProblem.
    + apply sessionInvariant_generateProblem.
      apply (sessionInvariant_ext w1); auto; try tauto; try reflexivity; try lia.
  - destruct (onScreen Menu w); [|discriminate]. injection Hs as <-.
    apply (sessionInvariant_ext w); auto; try tauto; try reflexivity; try lia.
  - destruct (_ || _); [|discriminate]. injection Hs as <-.
    now apply sessionInvariant_startGame.
  - destruct (onScreen Game w); [|discriminate]. injection Hs as <-.
    now apply sessionInvariant_abandonGame.
  - destruct (onScreen Game w); [|discriminate]. injection Hs as <-.
    apply (sessionInvariant_ext w); auto; try tauto; try reflexivity; try lia.
  - destruct (onScreen Game w); [|discriminate]. injection Hs as <-.
    now apply sessionInvariant_handleAnswer.
  - destruct (onScreen Result w || onScreen History w) eqn:On; [|discriminate].
    injection Hs as <-.
    assert (Hscr : screen w <> Game).
    { unfold onScreen in On. destruct (screen w); try discriminate; simpl in On;
        discriminate. }
    apply (sessionInvariant_ext w); auto; try tauto; try reflexivity; try lia.
    cbn. split; [discriminate | contradiction].
  - destruct (onScreen Menu w) eqn:On; [|discriminate]. injection Hs as <-.
    assert (Hscr : screen w <> Game).
    { unfold onScreen in On. destruct (screen w); discriminate. }
    apply (sessionInvariant_ext w); auto; try tauto; try reflexivity; try lia.
    cbn. split; [discriminate | contradiction].
Qed.

Lemma reachable_sessionInvariant w : reachable w -> sessionInvariant w.
Proof.
  intros Hw.
  assert (H : reachable w /\ sessionInvariant w); [|tauto].
  revert w Hw. apply (reachable_invariant (fun w => reachable w /\ sessionInvariant w)).
  - intros now g b. split; [|apply sessionInvariant_initial].
    exists now, g, b, []. reflexivity.
  - intros e w w' [Hr Hi] Hs. split.
    + eapply reachable_step; eassumption.
    + eapply sessionInvariant_step; eassumption.
Qed.

End SessionInvariant.

(** ** Theorems: rounds, countdown and stored records *)

(** X1. In every reachable world at most one countdown is armed, it is the
    entry [timerInterval] names and it repeats every second, and a countdown
    is armed exactly while the game screen is shown.  Starting a round
    leaves exactly one countdown, the new one, due one second later. *)
Theorem single_countdown (w : World) (Hw : reachable w) :
  (List.length (countdowns w) <= 1)%nat /\
  (screen w = Game <-> countdowns w <> []) /\
  (forall t, In t (countdowns w) ->
     timerInterval w = Some (handle t) /\ period t = Some 1000) /\
  (forall w', step Start w = Some w' ->
     countdowns w' =
       [mkTimer (nextHandle w) (clock w + 1000) (Some 1000) Tick] /\
     timerInterval w' = Some (nextHandle w)).
Proof.
  destruct (reachable_sessionInvariant w Hw) as (Hty & Hcnt & Hgame & _).
  pose proof (reachable_timersConsistent w Hw) as Hc.
  split; [exact Hcnt|]. split; [exact Hgame|]. split.
  - intros t Ht. apply filter_In in Ht as [Hin Htick]. split.
    + destruct Hc as (_ & _ & H3 & _). apply H3; [exact Hin|].
      now apply isTick_iff.
    + unfold periodsTyped in Hty. rewrite Forall_forall in Hty.
      specialize (Hty t Hin). now rewrite Htick in Hty.
  - intros w' Hs. cbn [step] in Hs.
    destruct (_ || _); [|discriminate]. injection Hs as <-.
    destruct (startGame_timers w) as (Ht & _ & Hi). split; [|exact Hi].
    pose proof (clearCountdown_countdowns w Hc) as Hno. unfold countdowns in *.
    rewrite Ht, filter_app, Hno. reflexivity.
Qed.

Lemma single_countdown_witness :
  let w := demoAfter [Start; Elapse 50; Input "0"; SubmitAnswer; Abandon] in
  forall w', step Start w = Some w' ->
    countdowns w' = [mkTimer 4 1001050 (Some 1000) Tick].
Proof.
  intros w w' Hs.
  assert (Hw : reachable w).
  { apply demoAfter_reachable. vm_compute. discriminate. }
  exact (proj1 (proj2 (proj2 (proj2 (single_countdown w Hw))) w' Hs)).
Defined.

Lemma percent_range a b :
  0 <= a <= b -> 0 < b ->
  (0 <= fmul (fdiv (inject_Z a) (inject_Z b)) (inject_Z 100))%Q /\
  (fmul (fdiv (inject_Z a) (inject_Z b)) (inject_Z 100) <= inject_Z 100)%Q.
Proof.
  intros Ha Hb. unfold fmul, fdiv. split; [apply round64_nonneg|].
  assert (Hquot : (inject_Z a / inject_Z b <= inject_Z 1)%Q).
  { apply Qle_shift_div_r.
    - change 0%Q with (inject_Z 0). now rewrite <- Zlt_Qlt.
    - rewrite <- inject_Z_mult, <- Zle_Qle. lia. }
  pose proof (round64_le _ 1 Hquot ltac:(lia)) as H1.
  pose proof (round64_nonneg (inject_Z a / inject_Z b)) as H0.
  apply round64_le; [|lia].
  change (inject_Z 1) with 1%Q in H1. change (inject_Z 100) with 100%Q. lra.
Qed.

(** X2. In every reachable world [timeLeft] is between 0 and 60, and at
    least 1 while the game screen is shown; the progress bar width
    [progressPct], computed on doubles, is between 0 and 100. *)
Theorem timeLeft_in_range (w : World) (Hw : reachable w) :
  0 <= timeLeft w <= 60 /\
  (screen w = Game -> 1 <= timeLeft w) /\
  (0 <= progressPct w)%Q /\ (progressPct w <= 100)%Q.
Proof.
  destruct (reachable_sessionInvariant w Hw) as (_ & _ & Hgame & Hrange & Hpos & _).
  split; [exact Hrange|]. split; [intros Hs; now apply Hpos, Hgame|].
  apply (percent_range (timeLeft w) 60); lia.
Qed.

Lemma timeLeft_in_range_witness :
  let w := demoAfter [Start; TimerFires; TimerFires] in
  timeLeft w = 59 /\ 1 <= timeLeft w.
Proof.
  intros w. split; [vm_compute; reflexivity|].
  assert (Hw : reachable w).
  { apply demoAfter_reachable. vm_compute. discriminate. }
  apply (proj1 (proj2 (timeLeft_in_range w Hw))). vm_compute. reflexivity.
Defined.

(** X3. In every reachable world the score is the number of correct entries
    of the session history, hence between 0 and the number of attempts. *)
Theorem score_counts_correct (w : World) (Hw : reachable w) :
  score w = Z.of_nat (correctCount (sessionHistory w)) /\
  0 <= score w <= Z.of_nat (List.length (sessionHistory w)).
Proof.
  destruct (reachable_sessionInvariant w Hw) as (_ & _ & _ & _ & _ & Hscore & _).
  split; [exact Hscore|]. pose proof (correctCount_le (sessionHistory w)). lia.
Qed.

Lemma score_counts_correct_witness :
  let w := demoAfter [Start; Elapse 50; Input "12"; SubmitAnswer; Input "3"; SubmitAnswer] in
  score w = 1 /\ List.length (sessionHistory w) = 2%nat.
Proof.
  intros w.
  assert (Hw : reachable w).
  { apply demoAfter_reachable. vm_compute. discriminate. }
  split; [|vm_compute; reflexivity].
  rewrite (proj1 (score_counts_correct w Hw)). vm_compute. reflexivity.
Defined.

(** X4. In every reachable world the stored list is ordered from the most
    recent record to the oldest, and every record in it has a timestamp no
    later than the clock, an id equal to its timestamp, a score that is not
    negative, an accuracy between 0 and 100 and a configuration with an
    operator flag set. *)
Theorem stored_records_well_formed (w : World) (Hw : reachable w) :
  StronglySorted (fun a b => GameRecord.date b <= GameRecord.date a) (pastGames w) /\
  Forall (wellFormedRecord (clock w)) (pastGames w).
Proof.
  destruct (reachable_sessionInvariant w Hw)
    as (_ & _ & _ & _ & _ & _ & Hrec & Hsort & _).
  now split.
Qed.

(** X5. In a browser, in every reachable world, the list written to the
    storage is the list in memory as soon as a record exists; outside a
    browser nothing is ever written. *)
Theorem storage_mirrors_history (w : World) (Hw : reachable w) :
  (browser w = true -> pastGames w <> [] -> saved w = Some (pastGames w)) /\
  (browser w = false -> saved w = None).
Proof.
  destruct (reachable_sessionInvariant w Hw)
    as (_ & _ & _ & _ & _ & _ & _ & _ & Hsaved).
  split; intros Hb; rewrite Hb in Hsaved.
  - intros Hne. destruct Hsaved as [H|[_ H]]; [exact H | contradiction].
  - exact Hsaved.
Qed.

Lemma stored_records_well_formed_witness :
  let w := demoAfter (Start :: repeat TimerFires 61) in
  pastGames w = [GameRecord.mk 1060000 1060000 0 0 initialConfig] /\
  Forall (wellFormedRecord (clock w)) (pastGames w).
Proof.
  intros w. split; [vm_compute; reflexivity|].
  assert (Hw : reachable w).
  { apply demoAfter_reachable. vm_compute. discriminate. }
  exact (proj2 (stored_records_well_formed w Hw)).
Defined.

Lemma storage_mirrors_history_witness :
  let w := demoAfter (Start :: repeat TimerFires 61) in
  saved w = Some (pastGames w).
Proof.
  intros w.
  assert (Hw : reachable w).
  { apply demoAfter_reachable. vm_compute. discriminate. }
  apply (proj1 (storage_mirrors_history w Hw)).
  - reflexivity.
  - vm_compute. discriminate.
Defined.

(** X6. In a reachable world the stored list changes only when the countdown
    fires for the last time during a game: the event is a timer firing, the
    game screen was shown with one second left, the result screen is shown
    afterwards, and the list gains in front one record with the current
    score, accuracy and configuration and the time of the firing.  No action
    of the user, abandoning included, changes the list. *)
Theorem record_only_on_expiry (w w' : World) (e : Event)
    (Hw : reachable w) (Hs : step e w = Some w')
    (Hch : pastGames w' <> pastGames w) :
  e = TimerFires /\ screen w = Game /\ timeLeft w = 1 /\
  screen w' = Result /\ timeLeft w' = 0 /\
  pastGames w' =
    firstn 50 (GameRecord.mk (clock w') (clock w') (score w)
                 (accuracyOf (sessionHistory w)) (config w) :: pastGames w).
Proof.
  destruct (reachable_sessionInvariant w Hw) as (_ & _ & Hgame & _ & Hpos & _).
  destruct e; cbn [step] in Hs.
  - destruct (_ && _); [|discriminate]. injection Hs as <-. now destruct Hch.
  - destruct (earliest (timers w)) as [t|] eqn:E; [|discriminate].
    injection Hs as <-. apply earliest_in in E.
    set (now := Z.max (clock w) (due t)) in *.
    set (w1 := with_timers (rearm t now (timers (with_clock now w)))
                 (with_clock now w)) in *.
    destruct (callback t) eqn:Cb; cbn [runCallback] in *.
    + assert (Hne : countdowns w <> []).
      { unfold countdowns. intros Hnil.
        assert (Hin : In t (filter isTick (timers w))).
        { apply filter_In. split; [exact E | now apply isTick_iff]. }
        rewrite Hnil in Hin. contradiction. }
      specialize (Hpos Hne).
      set (w2 := with_timeLeft (timeLeft w1 - 1) w1) in *.
      assert (Htl2 : timeLeft w2 = timeLeft w - 1) by reflexivity.
      match type of Hch with
      | context [if ?c then _ else _] => destruct c eqn:Hle
      end; [|now destruct Hch].
      apply Z.leb_le in Hle. change (timeLeft w - 1 <= 0) in Hle.
      match goal with
      | |- context [endGame ?x] =>
          destruct (endGame_fields x) as (Hp & _ & _ & _ & Hscr & _);
          destruct (endGame_frame x) as (_ & Htl & _ & Hc & _)
      end.
      split; [reflexivity|]. split; [now apply Hgame|]. split; [lia|].
      split; [exact Hscr|].
      split; [rewrite Htl; cbn [timeLeft with_timeLeft with_timers with_clock]; lia|].
      rewrite Hp, Hc. reflexivity.
    + now destruct Hch.
    + match type of Hch with
      | context [generateProblem ?x] =>
          destruct (generateProblem_frame x) as (_ & _ & _ & _ & _ & Hp & _)
      end.
      rewrite Hp in Hch. now destruct Hch.
    + match type of Hch with
      | context [generateProblem ?x] =>
          destruct (generateProblem_frame x) as (_ & _ & _ & _ & _ & Hp & _)
      end.
      rewrite Hp in Hch. now destruct Hch.
  - destruct (onScreen Menu w); [|discriminate]. injection Hs as <-. now destruct Hch.
  - destruct (_ || _); [|discriminate]. injection Hs as <-.
    destruct (startGame_frame w) as (_ & _ & _ & _ & Hp & _).
    rewrite Hp in Hch. now destruct Hch.
  - destruct (onScreen Game w); [|discriminate]. injection Hs as <-.
    destruct (abandonGame_frame w) as (_ & _ & _ & _ & _ & Hp & _).
    rewrite Hp in Hch. now destruct Hch.
  - destruct (onScreen Game w); [|discriminate]. injection Hs as <-. now destruct Hch.
  - destruct (onScreen Game w); [|discriminate]. injection Hs as <-.
    destruct (handleAnswer_frame w) as (_ & _ & _ & Hp & _).
    rewrite Hp in Hch. now destruct Hch.
  - destruct (_ || _); [|discriminate]. injection Hs as <-. now destruct Hch.
  - destruct (onScreen Menu w); [|discriminate]. injection Hs as <-. now destruct Hch.
Qed.

Lemma record_only_on_expiry_witness :
  let w := demoAfter (Start :: repeat TimerFires 60) in
  let w' := demoAfter (Start :: repeat TimerFires 61) in
  screen w = Game /\ timeLeft w = 1 /\ screen w' = Result.
Proof.
  intros w w'.
  assert (Hw : reachable w).
  { apply demoAfter_reachable. vm_compute. discriminate. }
  assert (Hs : step TimerFires w = Some w') by (vm_compute; reflexivity).
  assert (Hch : pastGames w' <> pastGames w) by (vm_compute; discriminate).
  destruct (record_only_on_expiry w w' TimerFires Hw Hs Hch)
    as (_ & H1 & H2 & H3 & _).
  now repeat split.
Defined.

Section Liveness.

Lemma earliest_some ts : ts <> [] -> exists t, earliest ts = Some t.
Proof.
  destruct ts as [|t ts]; [contradiction|]. intros _. simpl.
  destruct (earliest ts) as [t'|]; [|now exists t].
  destruct (due t' <? due t); eauto.
Qed.

Lemma filter_filter_drop {A} (p q : A -> bool) l x :
  In x l -> p x = true -> q x = false ->
  (List.length (filter p (filter q l)) < List.length (filter p l))%nat.
Proof.
  induction l as [|y l IH]; intros Hin Hp Hq; [contradiction|].
  assert (Hle : forall l', (List.length (filter p (filter q l')) <=
                            List.length (filter p l'))%nat).
  { induction l' as [|z l' IH']; simpl; [lia|].
    destruct (q z); simpl; destruct (p z); simpl; lia. }
  destruct Hin as [->|Hin]; simpl.
  - rewrite Hq, Hp. simpl. specialize (Hle l). lia.
  - specialize (IH Hin Hp Hq).
    destruct (q y); simpl; destruct (p y); simpl; lia.
Qed.

(** What one firing of the timer that is due first does. *)
Lemma timerFires_effect w t :
  reachable w -> earliest (timers w) = Some t ->
  exists w',
    step TimerFires w = Some w' /\
    score w' = score w /\ sessionHistory w' = sessionHistory w /\
    config w' = config w /\
    ((isTick t = true /\ timeLeft w = 1 /\ screen w' = Result /\
      pastGames w' =
        firstn 50 (GameRecord.mk (clock w') (clock w') (score w)
                     (accuracyOf (sessionHistory w)) (config w) :: pastGames w)) \/
     (isTick t = true /\ 1 < timeLeft w /\ screen w' = screen w /\
      timeLeft w' = timeLeft w - 1 /\ pastGames w' = pastGames w /\
      List.length (timeouts w') = List.length (timeouts w)) \/
     (isTick t = false /\ screen w' = screen w /\ timeLeft w' = timeLeft w /\
      pastGames w' = pastGames w /\
      (List.length (timeouts w') < List.length (timeouts w))%nat)).
Proof.
  intros Hw E.
  destruct (reachable_sessionInvariant w Hw) as (Hty & _ & _ & _ & Hpos & _).
  pose proof (reachable_timersConsistent w Hw) as Hc.
  pose proof (earliest_in _ _ E) as Hin.
  pose proof Hty as Hty'. unfold periodsTyped in Hty'. rewrite Forall_forall in Hty'.
  specialize (Hty' t Hin).
  eexists. split; [cbn [step]; rewrite E; reflexivity|].
  destruct (isTick t) eqn:Tk.
  - assert (Cb : callback t = Tick) by now apply isTick_iff.
    rewrite Cb. cbn [runCallback].
    assert (Hne : countdowns w <> []).
    { unfold countdowns. intros Hnil.
      assert (Hx : In t (filter isTick (timers w)))
        by (apply filter_In; now split).
      rewrite Hnil in Hx. contradiction. }
    specialize (Hpos Hne).
    match goal with
    | |- context [if ?c then _ else _] => destruct c eqn:Hle
    end; cbn [timeLeft with_timeLeft with_timers with_clock] in Hle.
    + apply Z.leb_le in Hle.
      match goal with
      | |- context [endGame ?x] =>
          destruct (endGame_fields x) as (Hp & _ & _ & _ & Hscr & _ & _ & Hcf);
          destruct (endGame_frame x) as (Hsc & _ & Hh & Hck & _)
      end.
      split; [exact Hsc|]. split; [exact Hh|]. split; [exact Hcf|].
      left. split; [reflexivity|]. split; [lia|]. split; [exact Hscr|].
      rewrite Hp, Hck. reflexivity.
    + apply Z.leb_gt in Hle. repeat split. right. left.
      repeat split; try lia.
      unfold timeouts. cbn [timers with_timeLeft with_timers with_clock].
      unfold rearm. rewrite Hty'. apply filter_map_same.
      intros t0 Ht0.
      destruct (Nat.eqb_spec (handle t0) (handle t)) as [Eh|]; [|reflexivity].
      unfold isTick at 1. cbn. rewrite Cb. cbn.
      destruct (isTick t0) eqn:T0; [reflexivity|]. exfalso.
      destruct Hc as (_ & _ & H3 & H4). apply (H4 t0 Ht0).
      * intros C. apply isTick_iff in C. congruence.
      * rewrite Eh. now apply H3.
  - assert (Hframe : forall x : World,
              timers x = rearm t (Z.max (clock w) (due t)) (timers w) ->
              (List.length (timeouts x) < List.length (timeouts w))%nat).
    { intros x Hx. unfold timeouts. rewrite Hx. unfold rearm. rewrite Hty'.
      apply (filter_filter_drop _ _ _ t); [exact Hin | now rewrite Tk |].
      now rewrite Nat.eqb_refl. }
    destruct (callback t) eqn:Cb; cbn [runCallback].
    + unfold isTick in Tk. rewrite Cb in Tk. discriminate.
    + repeat split. right. right. repeat split. now apply Hframe.
    + match goal with
      | |- context [generateProblem ?x] =>
          destruct (generateProblem_frame x)
            as (Hs & Hsc & Htl & _ & Hh & Hp & Ht & _ & _ & _ & _ & Hcf)
      end.
      split; [exact Hsc|]. split; [exact Hh|]. split; [exact Hcf|].
      right. right. split; [reflexivity|]. split; [exact Hs|].
      split; [exact Htl|]. split; [exact Hp|]. apply Hframe. now rewrite Ht.
    + match goal with
      | |- context [generateProblem ?x] =>
          destruct (generateProblem_frame x)
            as (Hs & Hsc & Htl & _ & Hh & Hp & Ht & _ & _ & _ & _ & Hcf)
      end.
      split; [exact Hsc|]. split; [exact Hh|]. split; [exact Hcf|].
      right. right. split; [reflexivity|]. split; [exact Hs|].
      split; [exact Htl|]. split; [exact Hp|]. apply Hframe. now rewrite Ht.
Qed.

Lemma round_ends_within n : forall w,
  reachable w -> screen w = Game ->
  (Z.to_nat (timeLeft w) + List.length (timeouts w) <= n)%nat ->
  exists k w',
    (k <= n)%nat /\ run (repeat TimerFires k) w = Some w' /\
    screen w' = Result /\
    pastGames w' =
      firstn 50 (GameRecord.mk (clock w') (clock w') (score w)
                   (accuracyOf (sessionHistory w)) (config w) :: pastGames w).
Proof.
  induction n as [|n IH]; intros w Hw Hg Hm.
  - destruct (reachable_sessionInvariant w Hw) as (_ & _ & Hgame & _ & Hpos & _).
    specialize (Hpos (proj1 Hgame Hg)). lia.
  - destruct (reachable_sessionInvariant w Hw) as (_ & _ & Hgame & Hrange & _).
    assert (Hne : timers w <> []).
    { intros Hnil. apply (proj1 Hgame Hg). unfold countdowns. now rewrite Hnil. }
    destruct (earliest_some _ Hne) as [t E].
    destruct (timerFires_effect w t Hw E) as (w1 & Hs & Hsc & Hh & Hcf & Hcase).
    pose proof (reachable_step _ _ _ Hw Hs) as Hw1.
    destruct Hcase as [(_ & _ & Hres & Hp) | [(_ & Hgt & Hscr & Htl & Hp & Hto)
                                             | (_ & Hscr & Htl & Hp & Hto)]].
    + exists 1%nat, w1. split; [lia|]. split; [cbn [run repeat]; now rewrite Hs|].
      now split.
    + destruct (IH w1 Hw1) as (k & w' & Hk & Hrun & Hres & Hpg);
        [congruence | rewrite Htl, Hto; lia|].
      exists (S k), w'. split; [lia|]. split; [cbn [run repeat]; now rewrite Hs|].
      split; [exact Hres|]. now rewrite Hpg, Hsc, Hh, Hcf, Hp.
    + destruct (IH w1 Hw1) as (k & w' & Hk & Hrun & Hres & Hpg);
        [congruence | rewrite Htl; lia|].
      exists (S k), w'. split; [lia|]. split; [cbn [run repeat]; now rewrite Hs|].
      split; [exact Hres|]. now rewrite Hpg, Hsc, Hh, Hcf, Hp.
Qed.

End Liveness.

(** X7. A round that has started always ends: from a reachable world on the
    game screen, letting the timers fire, with no further action of the user,
    leads to the result screen after at most as many firings as there are
    seconds left plus pending callbacks, and the stored list then starts
    with one new record that carries the score, accuracy and configuration
    of that world. *)
Theorem round_always_ends (w : World)
    (Hw : reachable w) (Hgame : screen w = Game) :
  exists k w',
    (k <= Z.to_nat (timeLeft w) + List.length (timeouts w))%nat /\
    run (repeat TimerFires k) w = Some w' /\
    screen w' = Result /\
    pastGames w' =
      firstn 50 (GameRecord.mk (clock w') (clock w') (score w)
                   (accuracyOf (sessionHistory w)) (config w) :: pastGames w).
Proof. now apply (round_ends_within _ w Hw Hgame). Qed.

Lemma round_always_ends_witness :
  let w := demoAfter [Start; Elapse 50; Input "12"; SubmitAnswer] in
  exists k w', (k <= 62)%nat /\ run (repeat TimerFires k) w = Some w' /\
               screen w' = Result.
Proof.
  intros w.
  assert (Hw : reachable w).
  { apply demoAfter_reachable. vm_compute. discriminate. }
  destruct (round_always_ends w Hw eq_refl) as (k & w' & Hk & Hrun & Hres & _).
  exists k, w'. split; [|now split].
  exact Hk.
Defined.

(** ** Theorems: toggles, generator and input *)

(** X8. From a configuration with an operator flag set, toggling the same
    flag twice gives the configuration back, whether or not the first toggle
    was refused. *)
Theorem toggleConfig_twice (cfg : Config) (key : ConfigKey)
    (Hinv : hasOperator cfg) :
  toggleConfig (toggleConfig cfg key) key = cfg.
Proof.
  destruct cfg as [[] [] [] [] [] []], key; unfold hasOperator in Hinv;
    simpl in Hinv; try reflexivity; decompose [or] Hinv; discriminate.
Qed.

Lemma toggleConfig_twice_witness :
  toggleConfig (toggleConfig initialConfig Kdiv) Kdiv = initialConfig /\
  toggleConfig (toggleConfig onlyDiv Kdiv) Kdiv = onlyDiv.
Proof.
  split.
  - apply toggleConfig_twice. left. reflexivity.
  - apply toggleConfig_twice. right. right. right. reflexivity.
Defined.

(** X9. The refusal never locks the user in: from any configuration with an
    operator flag set, any other such configuration is reached by at most six
    toggles, every configuration on the way having an operator flag set. *)
Theorem toggleConfig_connects (c c' : Config)
    (Hc : hasOperator c) (Hc' : hasOperator c') :
  fold_left toggleConfig (togglePath c c') c = c' /\
  (List.length (togglePath c c') <= 6)%nat /\
  forall n, hasOperator (fold_left toggleConfig (firstn n (togglePath c c')) c).
Proof.
  split; [|split].
  - destruct c as [[] [] [] [] [] []], c' as [[] [] [] [] [] []];
      unfold hasOperator in Hc, Hc'; simpl in Hc, Hc';
      try reflexivity; try (decompose [or] Hc; discriminate);
      decompose [or] Hc'; discriminate.
  - destruct c as [[] [] [] [] [] []], c' as [[] [] [] [] [] []];
      cbv; repeat constructor.
  - intros n. generalize (firstn n (togglePath c c')). intros ks.
    revert c Hc. induction ks as [|k ks IH]; intros c Hc; simpl; [exact Hc|].
    apply IH. now apply toggleConfig_hasOperator.
Qed.

Lemma toggleConfig_connects_witness :
  fold_left toggleConfig (togglePath initialConfig onlyDiv) initialConfig = onlyDiv.
Proof.
  apply toggleConfig_connects.
  - left. reflexivity.
  - right. right. right. reflexivity.
Defined.

(** X10. For a configuration with an operator flag and draws in [0, 1), both
    operands are in the range of the configuration (1 to 12, or 10 to 99,
    with either sign only when [negatives] is set) and so never zero; the
    answer and both displayed operands are at most the square of the largest
    operand in magnitude; the answer of a division is itself in the operand
    range; and the generator takes three draws, five with [negatives]. *)
Theorem generated_numbers_in_range (config : Config) (g : Rng)
    (Hop : hasOperator config) (Hg : unitDraws g) :
  let d := fst (drawProblem config g) in
  let p := fst (generate config g) in
  operandRange config (num1 d) /\ operandRange config (num2 d) /\
  num1 d <> 0 /\ num2 d <> 0 /\
  Z.abs (answer p) <= maxOperand config * maxOperand config /\
  Z.abs (shownFirst d) <= maxOperand config * maxOperand config /\
  (operator d = Some "/" -> operandRange config (answer p)) /\
  used (snd (generate config g)) =
    (used g + (if negatives config then 5 else 3))%nat.
Proof.
  intros d p.
  destruct (drawProblem_sound config g Hop Hg) as ((o & Ho & Hin) & H1 & H2).
  fold d in Ho, H1, H2.
  assert (Hp : p = makeProblem d).
  { unfold p, d, generate. now destruct (drawProblem config g). }
  assert (Hb1 : 1 <= Z.abs (num1 d) <= maxOperand config).
  { unfold operandRange, maxOperand in *.
    destruct (doubleDigits config), (negatives config); lia. }
  assert (Hb2 : 1 <= Z.abs (num2 d) <= maxOperand config).
  { unfold operandRange, maxOperand in *.
    destruct (doubleDigits config), (negatives config); lia. }
  assert (Hm : 12 <= maxOperand config)
    by (unfold maxOperand; destruct (doubleDigits config); lia).
  assert (Hmul : Z.abs (num1 d * num2 d) <= maxOperand config * maxOperand config).
  { rewrite Z.abs_mul. apply Z.mul_le_mono_nonneg; lia. }
  split; [exact H1|]. split; [exact H2|].
  split; [lia|]. split; [lia|].
  apply (candidateOps_cases config) in Hin.
  assert (Hdiv : (num1 d * num2 d) / num2 d = num1 d) by (apply Z.div_mul; lia).
  split; [|split; [|split]].
  - rewrite Hp. unfold makeProblem. rewrite Ho.
    destruct Hin as [-> | [-> | [-> | ->]]]; cbn; rewrite ?Hdiv; nia.
  - unfold shownFirst. rewrite Ho.
    destruct Hin as [-> | [-> | [-> | ->]]]; cbn; nia.
  - intros Hd. rewrite Hp. unfold makeProblem. rewrite Hd. cbn.
    now rewrite Hdiv.
  - unfold generate, drawProblem, Math_random. cbn.
    destruct (negatives config); cbn; lia.
Qed.

Lemma generated_numbers_in_range_witness :
  let g := rngOf [0; 1 # 4; 1 # 6]%Q in
  Z.abs (answer (fst (generate onlyDiv g))) <= 144 /\
  used (snd (generate onlyDiv g)) = 3%nat.
Proof.
  intros g.
  assert (Hop : hasOperator onlyDiv) by (right; right; right; reflexivity).
  assert (Hg : unitDraws g).
  { apply unitDraws_rngOf. repeat constructor; discriminate. }
  destruct (generated_numbers_in_range onlyDiv g Hop Hg)
    as (_ & _ & _ & _ & Ha & _ & _ & Hu).
  split; [exact Ha | exact Hu].
Defined.

Section ParseIntText.

Lemma skipWhite_number a r :
  isDigit a || Ascii.eqb a "-" = true -> skipWhite (String a r) = String a r.
Proof.
  intros Ha.
  destruct a as [[] [] [] [] [] [] [] []]; try discriminate Ha;
    destruct r as [|b [|c r3]]; reflexivity.
Qed.

Lemma readDigits_tail rest v :
  endsNumber rest = true -> readDigits 10 rest (Some v) = Some v.
Proof.
  destruct rest as [|a r]; [reflexivity|]. simpl. intros Ha.
  apply negb_true_iff in Ha. apply orb_false_iff in Ha as [Ha _].
  apply orb_false_iff in Ha as [Ha _].
  assert (Hd : digitValue 10 a = None).
  { destruct a as [[] [] [] [] [] [] [] []]; try discriminate Ha; reflexivity. }
  now rewrite Hd.
Qed.

Lemma readDigits_acc d : forall p rest,
  readDigits 10 (NilEmpty.string_of_uint d ++ rest) (Some (Z.pos p)) =
  readDigits 10 rest (Some (Z.pos (Pos.of_uint_acc d p))).
Proof.
  induction d; intros p rest; try reflexivity;
    cbn [NilEmpty.string_of_uint append readDigits];
    match goal with
    | |- context [digitValue 10 ?c] =>
        change (digitValue 10 c) with (Some (Z.of_nat (nat_of_ascii c) - 48))
    end; cbn [Pos.of_uint_acc]; rewrite <- IHd; f_equal; f_equal;
    match goal with
    | |- context [Z.of_nat (nat_of_ascii ?c)] =>
        let v := eval cbv in (Z.of_nat (nat_of_ascii c)) in
        change (Z.of_nat (nat_of_ascii c)) with v
    end; lia.
Qed.

Lemma readDigits_zero d : forall rest,
  readDigits 10 (NilEmpty.string_of_uint d ++ rest) (Some 0) =
  readDigits 10 rest (Some (Z.of_N (Pos.of_uint d))).
Proof.
  induction d; intros rest; try reflexivity;
    cbn [NilEmpty.string_of_uint append readDigits];
    match goal with
    | |- context [digitValue 10 ?c] =>
        change (digitValue 10 c) with (Some (Z.of_nat (nat_of_ascii c) - 48))
    end; cbn [Pos.of_uint];
    first [ rewrite <- IHd; reflexivity
          | cbn [Z.of_N]; rewrite <- readDigits_acc; reflexivity ].
Qed.

Lemma readDigits_start d rest :
  d <> Decimal.Nil ->
  readDigits 10 (NilEmpty.string_of_uint d ++ rest) None =
  readDigits 10 (NilEmpty.string_of_uint d ++ rest) (Some 0).
Proof. destruct d; [contradiction | ..]; reflexivity. Qed.

(** The decimal digits of [d], then something that ends the number, read as
    the value of [d] in radix 10, with no hexadecimal prefix found. *)
Lemma parseDigits_uint d rest :
  d <> Decimal.Nil -> endsNumber rest = true ->
  (let '(radix, s) :=
     match (NilEmpty.string_of_uint d ++ rest)%string with
     | String "0"%char (String x r) =>
         if (Ascii.eqb x "x" || Ascii.eqb x "X")%char
         then (16, r) else (10, (NilEmpty.string_of_uint d ++ rest)%string)
     | _ => (10, (NilEmpty.string_of_uint d ++ rest)%string)
     end in
   readDigits radix s None) = Some (Z.of_N (Pos.of_uint d)).
Proof.
  intros Hd Hrest.
  assert (Hread : readDigits 10 (NilEmpty.string_of_uint d ++ rest) None =
                  Some (Z.of_N (Pos.of_uint d))).
  { rewrite readDigits_start, readDigits_zero by assumption.
    now apply readDigits_tail. }
  destruct (NilEmpty.string_of_uint d ++ rest)%string as [|a s] eqn:E;
    [exact Hread|].
  destruct s as [|x r].
  { destruct a as [[] [] [] [] [] [] [] []]; exact Hread. }
  destruct (Ascii.eqb_spec a "0") as [->|Ha].
  - assert (Hx : (Ascii.eqb x "x" || Ascii.eqb x "X")%char = false).
    { destruct d; try discriminate E; try contradiction.
      cbn in E. injection E as E.
      destruct d; cbn in E.
      - subst rest. cbn in Hrest. apply negb_true_iff in Hrest.
        apply orb_false_iff in Hrest as [Hrest HX].
        apply orb_false_iff in Hrest as [_ Hx]. now rewrite Hx, HX.
      - injection E as <- _. reflexivity.
      - injection E as <- _. reflexivity.
      - injection E as <- _. reflexivity.
      - injection E as <- _. reflexivity.
      - injection E as <- _. reflexivity.
      - injection E as <- _. reflexivity.
      - injection E as <- _. reflexivity.
      - injection E as <- _. reflexivity.
      - injection E as <- _. reflexivity.
      - injection E as <- _. reflexivity. }
    rewrite Hx. exact Hread.
  - destruct a as [[] [] [] [] [] [] [] []]; try exact Hread. now destruct Ha.
Qed.

End ParseIntText.

Section TypedAnswers.

Lemma uint_head d :
  d <> Decimal.Nil ->
  exists a r, NilEmpty.string_of_uint d = String a r /\ isDigit a = true.
Proof.
  destruct d; [contradiction | ..]; intros _; do 2 eexists;
    (split; [reflexivity | reflexivity]).
Qed.

Lemma parseInt_digits d rest :
  d <> Decimal.Nil -> endsNumber rest = true ->
  parseInt (NilEmpty.string_of_uint d ++ rest) = Some (Z.of_N (Pos.of_uint d)).
Proof.
  intros Hd Hrest. pose proof (parseDigits_uint d rest Hd Hrest) as H.
  destruct (uint_head d Hd) as (a & r & E & Ha).
  unfold parseInt. rewrite E in *. cbn [append] in *.
  rewrite skipWhite_number by (rewrite Ha; reflexivity).
  destruct a as [[] [] [] [] [] [] [] []]; try discriminate Ha;
    cbv beta iota zeta;
    try match type of H with
        | (let '(_, _) := ?M in _) = _ => destruct M as [radix s]
        end; rewrite H; cbn [option_map]; f_equal; lia.
Qed.

Lemma parseInt_minus_digits d rest :
  d <> Decimal.Nil -> endsNumber rest = true ->
  parseInt (String "-" (NilEmpty.string_of_uint d ++ rest)) =
  Some (- Z.of_N (Pos.of_uint d)).
Proof.
  intros Hd Hrest. pose proof (parseDigits_uint d rest Hd Hrest) as H.
  unfold parseInt. rewrite skipWhite_number by reflexivity.
  cbv beta iota zeta.
  match type of H with
  | (let '(_, _) := ?M in _) = _ => destruct M as [radix s]
  end; rewrite H; cbn [option_map]; f_equal; lia.
Qed.

(** [parseInt] reads the decimal text of an integer back, whatever follows
    it, as long as that does not continue the number. *)
Lemma parseInt_toString n rest :
  endsNumber rest = true -> parseInt (Number_toString n ++ rest) = Some n.
Proof.
  intros Hrest. unfold Number_toString.
  destruct n as [|p|p]; cbn [Z.to_int NilZero.string_of_int].
  - apply (parseInt_digits (Decimal.D0 Decimal.Nil) rest); [discriminate | exact Hrest].
  - pose proof (DecimalPos.Unsigned.to_uint_nonnil p) as Hnn.
    replace (NilZero.string_of_uint (Pos.to_uint p))
      with (NilEmpty.string_of_uint (Pos.to_uint p))
      by (destruct (Pos.to_uint p); [contradiction | ..]; reflexivity).
    rewrite parseInt_digits by assumption.
    now rewrite DecimalPos.Unsigned.of_to.
  - pose proof (DecimalPos.Unsigned.to_uint_nonnil p) as Hnn.
    replace (NilZero.string_of_uint (Pos.to_uint p))
      with (NilEmpty.string_of_uint (Pos.to_uint p))
      by (destruct (Pos.to_uint p); [contradiction | ..]; reflexivity).
    cbn [append]. rewrite parseInt_minus_digits by assumption.
    now rewrite DecimalPos.Unsigned.of_to.
Qed.

Lemma append_empty (s : string) : (s ++ EmptyString)%string = s.
Proof. induction s as [|a s IH]; [reflexivity | cbn; now rewrite IH]. Qed.

Lemma skipWhite_prefix pre s :
  allChars isAsciiWhite pre = true -> skipWhite (pre ++ s) = skipWhite s.
Proof.
  induction pre as [|a pre IH]; [reflexivity|]. cbn [allChars append].
  intros H. apply andb_true_iff in H as [Ha Hpre].
  cbn [skipWhite]. rewrite Ha. now apply IH.
Qed.

Lemma parseInt_skipWhite s t : skipWhite s = skipWhite t -> parseInt s = parseInt t.
Proof. intros H. unfold parseInt. now rewrite H. Qed.

Lemma step_history e w w' :
  step e w = Some w' ->
  sessionHistory w' = sessionHistory w \/ sessionHistory w' = [] \/
  exists val, sessionHistory w' = sessionHistory w ++ [historyEntry w val].
Proof.
  intros Hs. destruct e; cbn [step] in Hs.
  - destruct (_ && _); [|discriminate]. injection Hs as <-. now left.
  - destruct (earliest (timers w)) as [t|]; [|discriminate]. injection Hs as <-.
    left. destruct (callback t); cbn [runCallback].
    + match goal with |- context [if ?c then _ else _] => destruct c end;
        [|reflexivity].
      match goal with
      | |- context [endGame ?x] =>
          destruct (endGame_frame x) as (_ & _ & -> & _)
      end. reflexivity.
    + reflexivity.
    + match goal with
      | |- context [generateProblem ?x] =>
          destruct (generateProblem_frame x) as (_ & _ & _ & _ & -> & _)
      end. reflexivity.
    + match goal with
      | |- context [generateProblem ?x] =>
          destruct (generateProblem_frame x) as (_ & _ & _ & _ & -> & _)
      end. reflexivity.
  - destruct (onScreen Menu w); [|discriminate]. injection Hs as <-. now left.
  - destruct (_ || _); [|discriminate]. injection Hs as <-. right; left.
    now destruct (startGame_frame w) as (_ & _ & _ & -> & _).
  - destruct (onScreen Game w); [|discriminate]. injection Hs as <-. left.
    now destruct (abandonGame_frame w) as (_ & _ & _ & _ & -> & _).
  - destruct (onScreen Game w); [|discriminate]. injection Hs as <-. now left.
  - destruct (onScreen Game w); [|discriminate]. injection Hs as <-.
    destruct (parseInt (userInput w)) as [val|] eqn:E.
    + right; right. exists val. now destruct (handleAnswer_parsed w val E) as (-> & _).
    + left. now rewrite handleAnswer_unparsed.
  - destruct (_ || _); [|discriminate]. injection Hs as <-. now left.
  - destruct (onScreen Menu w); [|discriminate]. injection Hs as <-. now left.
Qed.

Lemma reachable_honest w : reachable w -> Forall honestEntry (sessionHistory w).
Proof.
  revert w. apply reachable_invariant.
  - intros now g b. constructor.
  - intros e w w' Hw Hs.
    destruct (step_history e w w' Hs) as [-> | [-> | [val ->]]];
      [exact Hw | constructor |].
    apply Forall_app. split; [exact Hw|]. constructor; [|constructor].
    reflexivity.
Qed.

Lemma correctCount_filter h :
  (correctCount h + List.length (filter (fun x => negb (isCorrect x)) h) =
   List.length h)%nat.
Proof.
  unfold correctCount. induction h as [|x h IH]; [reflexivity|].
  cbn [filter]. destruct (isCorrect x); cbn [negb List.length]; lia.
Qed.

End TypedAnswers.

(** X11. [parseInt] reads back the decimal text of every integer a double
    holds exactly: after any run of ASCII white space, and whatever follows
    the digits as long as it does not continue the number, the value read
    is that integer.  So a value can always be typed in. *)
Theorem parseInt_reads_decimal_text (n : Z) (pre rest : string) :
  Z.abs n <= 2 ^ 53 ->
  allChars isAsciiWhite pre = true ->
  endsNumber rest = true ->
  parseInt (pre ++ Number_toString n ++ rest) = Some n.
Proof.
  intros _ Hpre Hrest.
  rewrite (parseInt_skipWhite _ (Number_toString n ++ rest))
    by now apply skipWhite_prefix.
  now apply parseInt_toString.
Qed.

Lemma parseInt_reads_decimal_text_witness :
  parseInt "  -42 apples" = Some (-42).
Proof.
  apply (parseInt_reads_decimal_text (-42) "  " " apples");
    [vm_compute; discriminate | reflexivity | reflexivity].
Defined.

(** X12. On the game screen, typing the decimal text of a number and
    submitting it always records an attempt with that number.  When it is
    the answer, the score goes up by one, the input takes the colours of a
    right answer and the next Problem is due 150 ms later; when it is not,
    the score stays, the input takes the colours of a wrong answer and
    shakes, and the next Problem is due 400 ms later.  The Problem itself
    stays until then. *)
Theorem typed_answer_feedback (w w1 : World) (n : Z) :
  Z.abs n <= 2 ^ 53 ->
  step (Input (Number_toString n)) w = Some w1 ->
  exists w2,
    step SubmitAnswer w1 = Some w2 /\
    sessionHistory w2 =
      sessionHistory w ++
      [mkHistoryItem (question (currentProblem w)) (answer (currentProblem w))
         n (n =? answer (currentProblem w))] /\
    currentProblem w2 = currentProblem w /\
    screen w2 = Game /\
    (n = answer (currentProblem w) ->
       score w2 = score w + 1 /\ inputClass w2 = correctClass /\
       shaking w2 = shaking w /\
       timers w2 =
         timers w ++ [mkTimer (nextHandle w) (clock w + 150) None NextProblem]) /\
    (n <> answer (currentProblem w) ->
       score w2 = score w /\ inputClass w2 = wrongClass /\
       shaking w2 = true /\
       timers w2 =
         timers w ++ [mkTimer (nextHandle w) (clock w + 400) None ShakeThenNext]).
Proof.
  intros _ Hs. cbn [step] in Hs.
  destruct (onScreen Game w) eqn:Hon; [|discriminate]. injection Hs as <-.
  assert (Hscr : screen w = Game).
  { unfold onScreen in Hon. destruct (screen w); try discriminate; reflexivity. }
  exists (handleAnswer (with_userInput (Number_toString n) w)).
  split.
  { cbn [step]. unfold onScreen. cbn [screen with_userInput]. now rewrite Hscr. }
  unfold handleAnswer. cbn [userInput with_userInput].
  assert (Hp : parseInt (Number_toString n) = Some n).
  { rewrite <- (append_empty (Number_toString n)). now apply parseInt_toString. }
  rewrite Hp.
  cbn [currentProblem with_userInput].
  destruct (Z.eqb_spec n (answer (currentProblem w))) as [E|E];
    (split; [reflexivity|]); (split; [reflexivity|]);
    (split; [exact Hscr|]); split; intros E'; try contradiction;
    repeat split; reflexivity.
Qed.

Lemma typed_answer_feedback_witness :
  let w := demoAfter [Start; Elapse 50] in
  exists w2,
    step SubmitAnswer (with_userInput "12" w) = Some w2 /\
    score w2 = 1 /\ inputClass w2 = correctClass.
Proof.
  intros w.
  destruct (typed_answer_feedback w (with_userInput "12" w) 12)
    as (w2 & Hs & _ & _ & _ & Hright & _);
    [vm_compute; discriminate | vm_compute; reflexivity |].
  exists w2. destruct (Hright ltac:(vm_compute; reflexivity)) as (Hsc & Hcl & _).
  split; [exact Hs|]. split; [rewrite Hsc; vm_compute; reflexivity | exact Hcl].
Defined.

(** X13. In every reachable world each entry of the session history carries
    the verdict of comparing the typed value with the answer, so the entries
    [missed] shows, at most three and the earliest first, are attempts whose
    value differs from the answer.  Their number is the smaller of three and
    the attempts that did not score, and there is none exactly when the
    score equals the number of attempts. *)
Theorem missed_are_wrong_attempts (w : World) :
  reachable w ->
  Forall honestEntry (sessionHistory w) /\
  Forall (fun h => In h (sessionHistory w) /\ isCorrect h = false /\
                   user h <> correct h) (missed w) /\
  missed w = firstn 3 (filter (fun h => negb (user h =? correct h)) (sessionHistory w)) /\
  List.length (missed w) =
    Nat.min 3 (List.length (sessionHistory w) - Z.to_nat (score w)) /\
  (missed w = [] <-> score w = Z.of_nat (List.length (sessionHistory w))).
Proof.
  intros Hw.
  pose proof (reachable_honest w Hw) as Hh.
  destruct (reachable_sessionInvariant w Hw) as (_ & _ & _ & _ & _ & Hsc & _).
  pose proof (correctCount_filter (sessionHistory w)) as Hcnt.
  rewrite Forall_forall in Hh.
  split; [now apply Forall_forall|]. split; [|split; [|split]].
  - apply Forall_forall. intros h Hin. unfold missed in Hin.
    apply in_firstn in Hin. apply filter_In in Hin as [Hin Hneg].
    apply negb_true_iff in Hneg. split; [exact Hin|]. split; [exact Hneg|].
    specialize (Hh h Hin). unfold honestEntry in Hh. rewrite Hneg in Hh.
    symmetry in Hh. now apply Z.eqb_neq in Hh.
  - unfold missed. f_equal. apply filter_ext_in. intros h Hin.
    now rewrite <- (Hh h Hin).
  - unfold missed. rewrite length_firstn, Hsc, Nat2Z.id. lia.
  - unfold missed. rewrite Hsc. split.
    + intros Hnil. apply (f_equal (@List.length _)) in Hnil.
      rewrite length_firstn in Hnil. cbn [List.length] in Hnil. lia.
    + intros Heq. apply Nat2Z.inj in Heq.
      assert (Hz : List.length (filter (fun h => negb (isCorrect h))
                                  (sessionHistory w)) = 0%nat) by lia.
      apply length_zero_iff_nil in Hz. now rewrite Hz.
Qed.

Lemma missed_are_wrong_attempts_witness :
  let w := demoAfter [Start; Elapse 50; Input "13"; SubmitAnswer] in
  List.length (missed w) = 1%nat /\ score w = 0.
Proof.
  intros w.
  assert (Hw : reachable w) by (apply demoAfter_reachable; vm_compute; discriminate).
  destruct (missed_are_wrong_attempts w Hw) as (_ & _ & _ & Hlen & _).
  split; [rewrite Hlen; vm_compute; reflexivity | vm_compute; reflexivity].
Defined.

(** ** Theorems: keys and leaderboards *)

Section BoardKeys.

Lemma configKey_inj c c' : configKey c = configKey c' -> c = c'.
Proof.
  destruct c as [[] [] [] [] [] []], c' as [[] [] [] [] [] []];
    intros H; try reflexivity; vm_compute in H; discriminate H.
Qed.

Lemma hasKey_config c g :
  hasKey (configKey c) g = true <-> GameRecord.config g = c.
Proof.
  unfold hasKey. rewrite String.eqb_eq. split.
  - apply configKey_inj.
  - now intros ->.
Qed.

Lemma addGame_keyed g m :
  keyed m -> keyed (addGame (configKey (GameRecord.config g)) g m).
Proof.
  unfold keyed. induction m as [|b m IH]; intros H; cbn [addGame].
  - constructor; [reflexivity | constructor].
  - inversion H as [|b' m' Hb Hm]; subst.
    destruct (Board.key b =? _)%string.
    + constructor; [exact Hb | exact Hm].
    + constructor; [exact Hb | now apply IH].
Qed.

Lemma fold_keyed games : forall m,
  keyed m ->
  keyed (fold_left (fun m g => addGame (configKey (GameRecord.config g)) g m)
           games m).
Proof.
  induction games as [|g games IH]; intros m H; cbn [fold_left]; [exact H|].
  apply IH. now apply addGame_keyed.
Qed.

Lemma groupGames_keyed games : keyed (groupGames games).
Proof. apply fold_keyed. constructor. Qed.

Lemma getLeaderboards_in games b :
  In b (getLeaderboards games) <-> In b (map rankEntries (groupGames games)).
Proof.
  unfold getLeaderboards.
  split; apply Permutation_in;
    [apply sortBy_perm | symmetry; apply sortBy_perm].
Qed.

End BoardKeys.

(** X14. The key of a configuration names it: two configurations have the
    same key only when all six flags agree, so the games filed under the key
    of a configuration are the games played with it. *)
Theorem configKey_names_configuration (c c' : Config) (g : GameRecord.t) :
  (configKey c = configKey c' <-> c = c') /\
  (hasKey (configKey c) g = true <-> GameRecord.config g = c).
Proof.
  split; [|apply hasKey_config].
  split; [apply configKey_inj | now intros ->].
Qed.

(** X15. A leaderboard never mixes configurations.  Its key is the key of
    the configuration it shows, each of its entries is a stored game played
    with that configuration, and it holds all of these games up to ten, at
    least one.  Every stored game finds the leaderboard of its
    configuration, and is on it when no more than ten games were played
    with it. *)
Theorem boards_hold_one_configuration (games : list GameRecord.t) :
  let boards := getLeaderboards games in
  (forall b, In b boards ->
     Board.key b = configKey (Board.config b) /\
     Forall (fun e => In e games /\ GameRecord.config e = Board.config b)
       (Board.entries b) /\
     List.length (Board.entries b) =
       Nat.min 10 (List.length (filter (hasKey (Board.key b)) games)) /\
     (1 <= List.length (Board.entries b))%nat) /\
  (forall g, In g games ->
     exists b, In b boards /\ Board.config b = GameRecord.config g /\
       ((List.length (filter (hasKey (Board.key b)) games) <= 10)%nat ->
        In g (Board.entries b))) /\
  (boards = [] <-> games = []).
Proof.
  intros boards.
  assert (Hboard : forall b, In b boards ->
            Board.key b = configKey (Board.config b) /\
            exists ranked,
              Permutation ranked (filter (hasKey (Board.key b)) games) /\
              Board.entries b = firstn 10 ranked /\ Board.entries b <> []).
  { intros b Hb. apply getLeaderboards_in in Hb. split.
    - apply in_map_iff in Hb as (b0 & <- & Hb0).
      pose proof (groupGames_keyed games) as Hk. unfold keyed in Hk.
      rewrite Forall_forall in Hk. exact (Hk b0 Hb0).
    - destruct (rankEntries_spec games b Hb) as (ranked & top & Hp & _ & He & Ht & _).
      exists ranked. split; [exact Hp|]. split; [exact He|].
      intros Hnil. rewrite Hnil in Ht. discriminate Ht. }
  split; [|split].
  - intros b Hb. destruct (Hboard b Hb) as (Hkey & ranked & Hp & He & Hne).
    split; [exact Hkey|]. split; [|split].
    + apply Forall_forall. intros e Hin. rewrite He in Hin.
      apply in_firstn in Hin. apply (Permutation_in _ Hp) in Hin.
      apply filter_In in Hin as [Hin Hk]. split; [exact Hin|].
      rewrite Hkey in Hk. now apply hasKey_config in Hk.
    + rewrite He, length_firstn. now rewrite (Permutation_length Hp).
    + destruct (Board.entries b); [contradiction | cbn; lia].
  - intros g Hg.
    destruct (groupGames_grouped games) as (_ & _ & Hfiled).
    specialize (Hfiled g Hg).
    assert (Hin : In (configKey (GameRecord.config g)) (map Board.key boards)).
    { unfold boards, getLeaderboards.
      apply (Permutation_in _ (Permutation_map Board.key
               (Permutation_sym (sortBy_perm byTopDate _)))).
      now rewrite map_map. }
    apply in_map_iff in Hin as (b & Hk & Hb).
    destruct (Hboard b Hb) as (Hkey & ranked & Hp & He & _).
    exists b. split; [exact Hb|]. split.
    + apply configKey_inj. congruence.
    + intros Hlen. rewrite He.
      rewrite firstn_all2 by (rewrite (Permutation_length Hp); exact Hlen).
      apply (Permutation_in _ (Permutation_sym Hp)).
      apply filter_In. split; [exact Hg|]. unfold hasKey. rewrite Hk.
      apply String.eqb_refl.
  - split.
    + intros Hnil. destruct games as [|g games]; [reflexivity|].
      destruct (groupGames_grouped (g :: games)) as (_ & _ & Hfiled).
      specialize (Hfiled g (or_introl eq_refl)).
      apply in_map_iff in Hfiled as (b & _ & Hb).
      assert (Hin : In (rankEntries b) boards).
      { apply getLeaderboards_in. now apply in_map. }
      rewrite Hnil in Hin. destruct Hin.
    + intros ->. reflexivity.
Qed.

(** ** Theorems: the feedback on an answer *)

Section Feedback.

Lemma NoDup_map_filter {A B} (h : A -> B) f l :
  NoDup (map h l) -> NoDup (map h (filter f l)).
Proof.
  induction l as [|x l IH]; cbn [map filter]; intros H; [constructor|].
  inversion H as [|y ys Hx Hl]; subst.
  destruct (f x); cbn [map]; [|now apply IH].
  constructor; [|now apply IH].
  intros Hin. apply Hx. apply in_map_iff in Hin as (z & Hz & Hzin).
  apply filter_In in Hzin as [Hzin _]. apply in_map_iff. now exists z.
Qed.

Lemma NoDup_map_inj {A B} (h : A -> B) l a b :
  NoDup (map h l) -> In a l -> In b l -> h a = h b -> a = b.
Proof.
  induction l as [|x l IH]; cbn [map]; intros H Ha Hb E; [destruct Ha|].
  inversion H as [|y ys Hx Hl]; subst.
  destruct Ha as [->|Ha], Hb as [->|Hb].
  - reflexivity.
  - exfalso. apply Hx. rewrite E. now apply in_map.
  - exfalso. apply Hx. rewrite <- E. now apply in_map.
  - now apply IH.
Qed.

Lemma Exists_kept {A} (P : A -> Prop) l l' :
  Exists P l -> (forall x, In x l -> P x -> In x l') -> Exists P l'.
Proof.
  intros H Hk. apply Exists_exists in H as (x & Hin & Hx).
  apply Exists_exists. exists x. split; [now apply Hk | exact Hx].
Qed.

Lemma earliest_min ts t :
  earliest ts = Some t -> Forall (fun t' => due t <= due t') ts.
Proof.
  revert t. induction ts as [|t0 ts IH]; cbn [earliest]; [discriminate|].
  intros t. destruct (earliest ts) as [t'|] eqn:E.
  - specialize (IH t' eq_refl).
    destruct (Z.ltb_spec (due t') (due t0)); intros [= <-].
    + constructor; [lia | exact IH].
    + constructor; [lia|]. eapply Forall_impl; [|exact IH].
      cbn. intros; lia.
  - intros [= <-]. constructor; [lia|].
    destruct ts as [|t1 ts]; [constructor|].
    cbn [earliest] in E. destruct (earliest ts) as [t2|]; [|discriminate E].
    destruct (due t2 <? due t1); discriminate E.
Qed.

Lemma rearm_handles t now ts :
  NoDup (map handle ts) -> NoDup (map handle (rearm t now ts)).
Proof.
  intros H. unfold rearm. destruct (period t) as [p|].
  - rewrite map_map.
    replace (map _ ts) with (map handle ts); [exact H|].
    apply map_ext. intros t'.
    destruct (Nat.eqb_spec (handle t') (handle t)) as [E|_];
      [now rewrite E | reflexivity].
  - now apply NoDup_map_filter.
Qed.

Lemma rearm_timely t clk ts :
  periodsTyped ts -> Forall (timely clk) ts -> earliest ts = Some t ->
  Z.max clk (due t) = due t /\
  Forall (timely (due t)) (rearm t (due t) ts).
Proof.
  intros Hty Htm E.
  pose proof (earliest_in _ _ E) as Hin. pose proof (earliest_min _ _ E) as Hmin.
  unfold periodsTyped in Hty. rewrite Forall_forall in Hty, Htm, Hmin.
  assert (Hclk : clk <= due t) by (destruct (Htm t Hin); lia).
  split; [lia|].
  assert (Hold : forall t', In t' ts -> timely (due t) t').
  { intros t' Ht'. specialize (Htm t' Ht'). specialize (Hmin t' Ht').
    unfold timely in *. lia. }
  apply Forall_forall. intros t' Ht'. unfold rearm in Ht'.
  destruct (period t) as [p|] eqn:Ep.
  - apply in_map_iff in Ht' as (t0 & <- & Ht0).
    destruct (handle t0 =? handle t)%nat; [|now apply Hold].
    specialize (Hty t Hin). unfold isTick in Hty.
    unfold timely. cbn [due callback].
    destruct (callback t); cbn [delayOf]; try congruence.
    assert (p = 1000) by congruence. lia.
  - apply filter_In in Ht' as [Ht' _]. now apply Hold.
Qed.

Lemma rearm_keeps t now ts t' :
  NoDup (map handle ts) -> In t ts -> In t' ts -> callback t' <> callback t ->
  In t' (rearm t now ts).
Proof.
  intros Hnd Ht Ht' Hcb.
  assert (Hh : (handle t' =? handle t)%nat = false).
  { apply Nat.eqb_neq. intros E. apply Hcb. f_equal.
    now apply (NoDup_map_inj handle ts). }
  unfold rearm. destruct (period t) as [p|].
  - apply in_map_iff. exists t'. now rewrite Hh.
  - apply filter_In. now rewrite Hh.
Qed.

Lemma clearCountdown_flags w :
  shaking (clearCountdown w) = shaking w /\
  inputClass (clearCountdown w) = inputClass w.
Proof. unfold clearCountdown. destruct (timerInterval w); split; reflexivity. Qed.

Lemma feedbackInvariant_ext w w' :
  timers w' = timers w -> clock w' = clock w ->
  (shaking w' = shaking w \/ shaking w' = false) ->
  (inputClass w' = inputClass w \/ inputClass w' = neutralClass) ->
  feedbackInvariant w -> feedbackInvariant w'.
Proof.
  unfold feedbackInvariant. intros -> -> Hs Hc (Hnd & Htm & Hsh & Hcl).
  split; [exact Hnd|]. split; [exact Htm|]. split.
  - intros H. apply Hsh. destruct Hs as [Hs|Hs]; congruence.
  - intros H. apply Hcl. destruct Hc as [Hc|Hc]; congruence.
Qed.

Lemma feedbackInvariant_clearCountdown w :
  timersConsistent w -> feedbackInvariant w -> feedbackInvariant (clearCountdown w).
Proof.
  intros Hw (Hnd & Htm & Hsh & Hcl).
  destruct (clearCountdown_flags w) as (Es & Ec).
  destruct (clearCountdown_other w) as (_ & _ & _ & _ & _ & _ & _ & Ek & _).
  unfold feedbackInvariant. rewrite Es, Ec, Ek.
  assert (Hincl : forall t, In t (timers (clearCountdown w)) -> In t (timers w)).
  { intros t. rewrite clearCountdown_timers.
    destruct (timerInterval w); [|tauto]. intros H. now apply filter_In in H. }
  split; [|split; [|split]].
  - rewrite clearCountdown_timers.
    destruct (timerInterval w); [now apply NoDup_map_filter | exact Hnd].
  - rewrite Forall_forall in *. auto.
  - intros H. apply (Exists_kept _ _ _ (Hsh H)). intros t Ht Hcb.
    apply clearCountdown_keeps; [exact Hw | exact Ht | congruence].
  - intros H. apply (Exists_kept _ _ _ (Hcl H)). intros t Ht Hcb.
    apply clearCountdown_keeps; [exact Hw | exact Ht|].
    intros E. rewrite E in Hcb. discriminate Hcb.
Qed.

Lemma feedbackInvariant_add w w' new :
  timersConsistent w -> feedbackInvariant w ->
  timers w' = timers w ++ new -> NoDup (map handle new) ->
  Forall (fun t => (nextHandle w <= handle t)%nat /\ timely (clock w) t) new ->
  clock w' = clock w ->
  (shaking w' = true ->
   shaking w = true \/ Exists (fun t => callback t = ShakeThenNext) new) ->
  (inputClass w' <> neutralClass ->
   inputClass w' = inputClass w \/
   Exists (fun t => isFeedback (callback t) = true) new) ->
  feedbackInvariant w'.
Proof.
  intros (H1 & _) (Hnd & Htm & Hsh & Hcl) Ht Hnew Hfresh Hk Hs Hc.
  unfold feedbackInvariant. rewrite Ht, Hk.
  rewrite Forall_forall in Hfresh.
  split; [|split; [|split]].
  - rewrite map_app. apply NoDup_app; [exact Hnd | exact Hnew|].
    intros h Hin Hin'.
    apply in_map_iff in Hin as (t & <- & Hin).
    apply in_map_iff in Hin' as (t' & E & Hin').
    specialize (H1 t Hin). destruct (Hfresh t' Hin') as [Hle _]. lia.
  - apply Forall_app. split; [exact Htm|].
    apply Forall_forall. intros t Hin. now apply Hfresh.
  - intros H. apply Exists_app. destruct (Hs H) as [H'|H']; [left; auto | now right].
  - intros H. apply Exists_app. destruct (Hc H) as [H'|H']; [|now right].
    left. apply Hcl. congruence.
Qed.

Lemma startGame_flags w :
  shaking (startGame w) = shaking w /\ inputClass (startGame w) = neutralClass.
Proof.
  unfold startGame, generateProblem. cbn.
  destruct (generate (config w) (rng w)) as [p g]. unfold clearCountdown. cbn.
  destruct (timerInterval w); split; reflexivity.
Qed.

Lemma feedbackInvariant_startGame w :
  timersConsistent w -> feedbackInvariant w -> feedbackInvariant (startGame w).
Proof.
  intros Hw Hinv.
  destruct (startGame_timers w) as (Ht & _).
  destruct (startGame_flags w) as (Es & Ec).
  destruct (startGame_frame w) as (_ & _ & _ & _ & _ & Ek & _).
  destruct (clearCountdown_other w) as (_ & En & _ & _ & _ & _ & _ & Ek' & _).
  destruct (clearCountdown_flags w) as (Es' & _).
  apply (feedbackInvariant_add (clearCountdown w) _ _
           (timersConsistent_clearCountdown w Hw)
           (feedbackInvariant_clearCountdown w Hw Hinv) Ht).
  - cbn. repeat constructor; cbn; [intros [H|[]]; lia | tauto].
  - rewrite En, Ek'. unfold timely. repeat constructor; cbn; lia.
  - congruence.
  - intros H. left. congruence.
  - intros H. now rewrite Ec in H.
Qed.

Lemma generateProblem_flags w :
  shaking (generateProblem w) = shaking w /\
  inputClass (generateProblem w) = neutralClass /\
  userInput (generateProblem w) = EmptyString.
Proof.
  unfold generateProblem. destruct (generate (config w) (rng w)).
  repeat split; reflexivity.
Qed.

Lemma feedbackInvariant_generateProblem w :
  feedbackInvariant w -> feedbackInvariant (generateProblem w).
Proof.
  destruct (generateProblem_frame w)
    as (_ & _ & _ & _ & _ & _ & Et & _ & Ek & _).
  destruct (generateProblem_flags w) as (Es & Ec & _).
  apply feedbackInvariant_ext; auto.
Qed.

Lemma endGame_flags w :
  shaking (endGame w) = shaking w /\ inputClass (endGame w) = inputClass w.
Proof.
  unfold endGame, clearCountdown.
  destruct (timerInterval w), (browser w) eqn:E; cbn; rewrite ?E; cbn;
    split; reflexivity.
Qed.

Lemma feedbackInvariant_endGame w :
  timersConsistent w -> feedbackInvariant w -> feedbackInvariant (endGame w).
Proof.
  intros Hw Hinv.
  destruct (endGame_fields w) as (_ & Et & _).
  destruct (endGame_frame w) as (_ & _ & _ & Ek & _).
  destruct (endGame_flags w) as (Es & Ec).
  destruct (clearCountdown_flags w) as (Es' & Ec').
  destruct (clearCountdown_other w) as (_ & _ & _ & _ & _ & _ & _ & Ek' & _).
  apply (feedbackInvariant_ext (clearCountdown w)); try congruence.
  - left. congruence.
  - left. congruence.
  - now apply feedbackInvariant_clearCountdown.
Qed.

Lemma handleAnswer_flags w val :
  parseInt (userInput w) = Some val ->
  isFeedback (callback (feedbackTimer w val)) = true /\
  handle (feedbackTimer w val) = nextHandle w /\
  due (feedbackTimer w val) =
    clock w + delayOf (callback (feedbackTimer w val)) /\
  (shaking (handleAnswer w) = true ->
   shaking w = true \/ callback (feedbackTimer w val) = ShakeThenNext).
Proof.
  intros E. unfold handleAnswer, feedbackTimer. rewrite E.
  destruct (val =? answer (currentProblem w)); cbn; repeat split; auto.
Qed.

Lemma feedbackInvariant_handleAnswer w :
  timersConsistent w -> feedbackInvariant w -> feedbackInvariant (handleAnswer w).
Proof.
  intros Hw Hinv. destruct (parseInt (userInput w)) as [val|] eqn:E;
    [|now rewrite handleAnswer_unparsed].
  destruct (handleAnswer_parsed w val E) as (_ & _ & Et & _ & _ & _ & _ & Ek).
  destruct (handleAnswer_flags w val E) as (Hfb & Hh & Hd & Hs).
  apply (feedbackInvariant_add w _ [feedbackTimer w val] Hw Hinv Et).
  - repeat constructor. intros [].
  - constructor; [|constructor]. split; [lia|]. unfold timely. rewrite Hd.
    destruct (callback (feedbackTimer w val)); cbn; lia.
  - exact Ek.
  - intros H. destruct (Hs H) as [H'|H']; [now left | right; now constructor].
  - intros _. right. now constructor.
Qed.

Lemma feedbackInvariant_initial now g b : feedbackInvariant (initialWorld now g b).
Proof.
  unfold feedbackInvariant. cbn. repeat split; try constructor.
  - discriminate.
  - intros H. now contradiction H.
Qed.

Lemma feedbackInvariant_fire w t :
  reachable w -> feedbackInvariant w -> earliest (timers w) = Some t ->
  let now := Z.max (clock w) (due t) in
  feedbackInvariant
    (runCallback (callback t)
       (with_timers (rearm t now (timers (with_clock now w))) (with_clock now w))).
Proof.
  intros Hreach (Hnd & Htm & Hsh & Hcl) E now.
  pose proof (reachable_timersConsistent w Hreach) as Hw.
  destruct (reachable_sessionInvariant w Hreach) as (Hty & _).
  pose proof (earliest_in _ _ E) as Hin.
  destruct (rearm_timely t (clock w) (timers w) Hty Htm E) as (Hnow & Htm1).
  fold now in Hnow.
  set (w1 := with_timers (rearm t now (timers (with_clock now w)))
               (with_clock now w)).
  assert (Hw1 : timersConsistent w1) by now apply timersConsistent_rearm.
  assert (Hinv1 : callback t <> ShakeThenNext ->
                  (isFeedback (callback t) = false \/ inputClass w = neutralClass) ->
                  feedbackInvariant w1).
  { intros Hcb Hfb. unfold feedbackInvariant, w1.
    cbn [timers clock shaking inputClass with_timers with_clock].
    split; [now apply rearm_handles|]. split; [now rewrite Hnow|].
    split.
    - intros H. apply (Exists_kept _ _ _ (Hsh H)). intros t' Ht' Hcb'.
      apply rearm_keeps; auto. congruence.
    - intros H. destruct Hfb as [Hfb|Hfb]; [|contradiction].
      apply (Exists_kept _ _ _ (Hcl H)). intros t' Ht' Hcb'.
      apply rearm_keeps; auto. congruence. }
  destruct (callback t) eqn:Ecb; cbn [runCallback].
  - assert (H1 : feedbackInvariant w1) by (apply Hinv1; [discriminate | now left]).
    assert (H2 : feedbackInvariant (with_timeLeft (timeLeft w1 - 1) w1)).
    { apply (feedbackInvariant_ext w1); auto. }
    match goal with |- context [if ?c then _ else _] => destruct c end;
      [|exact H2].
    apply feedbackInvariant_endGame; [|exact H2].
    now apply (timersConsistent_ext w1).
  - apply Hinv1; [discriminate | now left].
  - apply (feedbackInvariant_ext
             (with_inputClass neutralClass (with_shaking (shaking w) w1))).
    + now destruct (generateProblem_frame w1) as (_ & _ & _ & _ & _ & _ & -> & _).
    + now destruct (generateProblem_frame w1)
        as (_ & _ & _ & _ & _ & _ & _ & _ & -> & _).
    + left. now destruct (generateProblem_flags w1) as (-> & _).
    + right. now destruct (generateProblem_flags w1) as (_ & -> & _).
    + unfold feedbackInvariant, w1.
      cbn [timers clock shaking inputClass with_timers with_clock
           with_inputClass with_shaking].
      split; [now apply rearm_handles|]. split; [now rewrite Hnow|].
      split; [|intros H; now contradiction H].
      intros H. apply (Exists_kept _ _ _ (Hsh H)). intros t' Ht' Hcb'.
      apply rearm_keeps; auto. congruence.
  - apply (feedbackInvariant_ext
             (with_inputClass neutralClass (with_shaking false w1))).
    + now destruct (generateProblem_frame (with_shaking false w1))
        as (_ & _ & _ & _ & _ & _ & -> & _).
    + now destruct (generateProblem_frame (with_shaking false w1))
        as (_ & _ & _ & _ & _ & _ & _ & _ & -> & _).
    + right. now destruct (generateProblem_flags (with_shaking false w1)) as (-> & _).
    + right. now destruct (generateProblem_flags (with_shaking false w1))
        as (_ & -> & _).
    + unfold feedbackInvariant, w1.
      cbn [timers clock shaking inputClass with_timers with_clock
           with_inputClass with_shaking].
      split; [now apply rearm_handles|]. split; [now rewrite Hnow|].
      split; [discriminate | intros H; now contradiction H].
Qed.

Lemma feedbackInvariant_step e w w' :
  reachable w -> feedbackInvariant w -> step e w = Some w' -> feedbackInvariant w'.
Proof.
  intros Hreach Hinv Hs.
  pose proof (reachable_timersConsistent w Hreach) as Hw.
  destruct e; cbn [step] in Hs.
  - destruct (0 <=? ms) eqn:Ems; [|discriminate]. cbn [andb] in Hs.
    destruct (forallb _ _) eqn:Eall; [|discriminate]. injection Hs as <-.
    destruct Hinv as (Hnd & Htm & Hsh & Hcl).
    unfold feedbackInvariant.
    cbn [timers clock shaking inputClass with_clock].
    split; [exact Hnd|]. split; [|split; assumption].
    rewrite forallb_forall in Eall. rewrite Forall_forall in *.
    intros t Ht. specialize (Htm t Ht). specialize (Eall t Ht).
    apply Z.leb_le in Eall. apply Z.leb_le in Ems. unfold timely in *. lia.
  - destruct (earliest (timers w)) as [t|] eqn:E; [|discriminate].
    injection Hs as <-. now apply feedbackInvariant_fire.
  - destruct (onScreen Menu w); [|discriminate]. injection Hs as <-.
    apply (feedbackInvariant_ext w); auto.
  - destruct (_ || _); [|discriminate]. injection Hs as <-.
    now apply feedbackInvariant_startGame.
  - destruct (onScreen Game w); [|discriminate]. injection Hs as <-.
    unfold abandonGame.
    apply (feedbackInvariant_ext (clearCountdown w)); auto.
    now apply feedbackInvariant_clearCountdown.
  - destruct (onScreen Game w); [|discriminate]. injection Hs as <-.
    apply (feedbackInvariant_ext w); auto.
  - destruct (onScreen Game w); [|discriminate]. injection Hs as <-.
    now apply feedbackInvariant_handleAnswer.
  - destruct (_ || _); [|discriminate]. injection Hs as <-.
    apply (feedbackInvariant_ext w); auto.
  - destruct (onScreen Menu w); [|discriminate]. injection Hs as <-.
    apply (feedbackInvariant_ext w); auto.
Qed.

Lemma reachable_feedbackInvariant w : reachable w -> feedbackInvariant w.
Proof.
  intros Hw.
  assert (H : reachable w /\ feedbackInvariant w); [|tauto].
  revert w Hw. apply (reachable_invariant (fun w => reachable w /\ feedbackInvariant w)).
  - intros now g b. split; [|apply feedbackInvariant_initial].
    exists now, g, b, []. reflexivity.
  - intros e w w' [Hr Hi] Hs. split.
    + eapply reachable_step; eassumption.
    + eapply feedbackInvariant_step; eassumption.
Qed.

End Feedback.

(** X16. The feedback on an answer never sticks.  In every reachable world,
    while the input shakes there is a pending callback that stops the shake,
    and while the input shows the colours of a right or wrong answer there
    is a pending callback that restores the neutral ones; these callbacks
    are due within 400 ms of the clock.  In the event loop time never
    passes an entry that is due, so no entry of the timer table is overdue;
    each is due within the delay it was registered with, and no two entries
    share a handle.  When such a callback runs, the input is
    emptied and shown in the neutral colours, and the one registered for a
    wrong answer stops the shake. *)
Theorem feedback_is_withdrawn (w : World) :
  reachable w ->
  (shaking w = true ->
   exists t, In t (timers w) /\ callback t = ShakeThenNext /\
             clock w <= due t <= clock w + 400) /\
  (inputClass w <> neutralClass ->
   exists t, In t (timers w) /\ isFeedback (callback t) = true /\
             clock w <= due t <= clock w + 400) /\
  (forall t, In t (timers w) ->
     clock w <= due t <= clock w + delayOf (callback t)) /\
  NoDup (map handle (timers w)) /\
  (forall cb, isFeedback cb = true ->
     inputClass (runCallback cb w) = neutralClass /\
     userInput (runCallback cb w) = EmptyString) /\
  shaking (runCallback ShakeThenNext w) = false.
Proof.
  intros Hw.
  destruct (reachable_feedbackInvariant w Hw) as (Hnd & Htm & Hsh & Hcl).
  rewrite Forall_forall in Htm.
  split; [|split; [|split; [|split; [|split]]]].
  - intros H. apply Hsh in H. apply Exists_exists in H as (t & Hin & Hcb).
    exists t. split; [exact Hin|]. split; [exact Hcb|].
    specialize (Htm t Hin). unfold timely in Htm. rewrite Hcb in Htm.
    cbn [delayOf] in Htm. lia.
  - intros H. apply Hcl in H. apply Exists_exists in H as (t & Hin & Hcb).
    exists t. split; [exact Hin|]. split; [exact Hcb|].
    specialize (Htm t Hin). unfold timely in Htm.
    destruct (callback t); try discriminate Hcb; cbn [delayOf] in Htm; lia.
  - exact Htm.
  - exact Hnd.
  - intros cb Hcb. destruct cb; try discriminate Hcb; cbn [runCallback].
    + now destruct (generateProblem_flags w) as (_ & -> & ->).
    + now destruct (generateProblem_flags (with_shaking false w)) as (_ & -> & ->).
  - cbn [runCallback].
    now destruct (generateProblem_flags (with_shaking false w)) as (-> & _).
Qed.

Lemma feedback_is_withdrawn_witness :
  let w := demoAfter [Start; Elapse 50; Input "13"; SubmitAnswer] in
  shaking w = true /\
  exists t, In t (timers w) /\ callback t = ShakeThenNext /\
            clock w <= due t <= clock w + 400.
Proof.
  intros w.
  assert (Hw : reachable w) by (apply demoAfter_reachable; vm_compute; discriminate).
  assert (Hs : shaking w = true) by (vm_compute; reflexivity).
  split; [exact Hs|].
  exact (proj1 (feedback_is_withdrawn w Hw) Hs).
Defined.

(** ** Theorems: the ends of the accuracy scale *)

Section AccuracyEnds.

Lemma missed_nil_iff w :
  missed w = [] <->
  correctCount (sessionHistory w) = List.length (sessionHistory w).
Proof.
  pose proof (correctCount_filter (sessionHistory w)) as Hcnt.
  unfold missed. split.
  - intros H. apply (f_equal (@List.length _)) in H.
    rewrite length_firstn in H. cbn [List.length] in H. lia.
  - intros H.
    assert (Hz : List.length (filter (fun h => negb (isCorrect h))
                                (sessionHistory w)) = 0%nat) by lia.
    apply length_zero_iff_nil in Hz. now rewrite Hz.
Qed.

End AccuracyEnds.

(** X17. The ends of the accuracy scale, for a history of up to [2 ^ 32]
    attempts that is not empty.  The accuracy is 100 when every attempt is
    correct and 0 when none is.  An accuracy of 100 leaves room for at most
    one wrong attempt in 200, an accuracy of 0 for at most one correct
    attempt in 200; so with fewer than 200 attempts the accuracy shown is 100
    exactly when [missed] is empty, and 0 exactly when no attempt is
    correct. *)
Theorem accuracy_extremes (w : World) :
  sessionHistory w <> [] ->
  Z.of_nat (List.length (sessionHistory w)) <= 2 ^ 32 ->
  let c := Z.of_nat (correctCount (sessionHistory w)) in
  let t := Z.of_nat (List.length (sessionHistory w)) in
  (c = t -> accuracy w = 100) /\
  (c = 0 -> accuracy w = 0) /\
  (accuracy w = 100 -> 199 * t <= 200 * c) /\
  (accuracy w = 0 -> 200 * c <= t) /\
  (t < 200 -> (accuracy w = 100 <-> missed w = []) /\
              (accuracy w = 0 <-> c = 0)).
Proof.
  intros Hne Hlen c t.
  pose proof (accuracyOf_nearest (sessionHistory w) Hne Hlen) as Hn.
  cbv zeta in Hn. fold c t in Hn. unfold accuracy.
  pose proof (correctCount_le (sessionHistory w)) as Hc.
  assert (Ht : 0 < t).
  { unfold t. destruct (sessionHistory w); [contradiction | cbn; lia]. }
  assert (Hct : 0 <= c <= t) by (unfold c, t; lia).
  set (a := accuracyOf (sessionHistory w)) in *. clearbody a.
  assert (Hfull : c = t -> a = 100) by (intros ->; nia).
  assert (Hnone : c = 0 -> a = 0) by (intros E; rewrite E in Hn; nia).
  assert (Hhi : a = 100 -> 199 * t <= 200 * c) by (intros ->; lia).
  assert (Hlo : a = 0 -> 200 * c <= t) by (intros ->; lia).
  split; [exact Hfull|]. split; [exact Hnone|].
  split; [exact Hhi|]. split; [exact Hlo|].
  intros Hsmall. split.
  - rewrite missed_nil_iff. split.
    + intros Ha. specialize (Hhi Ha). apply Nat2Z.inj. fold c t. lia.
    + intros E. apply Hfull. unfold c, t. now rewrite E.
  - split; [intros Ha; specialize (Hlo Ha); lia | exact Hnone].
Qed.

Lemma accuracy_extremes_witness :
  let w := demoAfter [Start; Elapse 50; Input "12"; SubmitAnswer] in
  accuracy w = 100 /\ missed w = [].
Proof.
  intros w.
  destruct (accuracy_extremes w) as (Hfull & _ & _ & _ & Hsmall);
    [vm_compute; discriminate | vm_compute; discriminate |].
  assert (Ha : accuracy w = 100) by (apply Hfull; vm_compute; reflexivity).
  split; [exact Ha|]. apply (Hsmall ltac:(vm_compute; reflexivity)). exact Ha.
Defined.

